(** * Verification of cloud_addresses.py (auspex-labs/cloud-ipaddresses)

    The program fetches advertised prefixes from six providers, unions them
    per address family and aggregates each union with Python's
    [ipaddress.collapse_addresses] (CPython 3.11, Lib/ipaddress.py).  This
    file embeds that aggregation (the code [main] runs on every prefix),
    the prefix parser [ip_network], the six fetchers, [retry_request] and
    the failure bookkeeping of [main]. *)

From Stdlib Require Import ZArith Lia String Ascii Bool.
From stdpp Require Import base list gmap sorting.

Open Scope Z_scope.

(** ** Address families and network objects *)

Inductive version := V4 | V6.

Definition max_prefixlen (v : version) : Z :=
  match v with V4 => 32 | V6 => 128 end.

(** [_ALL_ONES = (2 ** _max_prefixlen) - 1] *)
Definition ALL_ONES (v : version) : Z := 2 ^ max_prefixlen v - 1.

(** An [IPv4Network] / [IPv6Network] object: its [network_address] as an
    integer and its [_prefixlen]; the family is the section's [fam]. *)
Record network := mknet { network_address : Z; prefixlen : Z }.

#[global] Instance network_eq_dec : EqDecision network.
Proof. solve_decision. Defined.

#[global] Instance network_countable : Countable network.
Proof.
  apply (inj_countable' (fun n => (network_address n, prefixlen n))
                        (fun p => mknet p.1 p.2)).
  by intros [].
Defined.

#[global] Instance string_eq_dec : EqDecision string := string_dec.

(** [_scope_id] of an [IPv6Address]: [None] when the text had no
    [%scope]; IPv4 addresses have none. *)
Definition scope_eqb (a b : option string) : bool :=
  match a, b with
  | None, None => true
  | Some s, Some t => String.eqb s t
  | _, _ => false
  end.

(** A network object: its block ([network_address] as an integer and
    [_prefixlen]) and the scope id of its [network_address]. *)
Definition pynet : Type := (network * option string)%type.

(** A network object built from integers ([supernet()],
    [summarize_address_range]): its address has no scope id. *)
Definition plain (n : network) : pynet := (n, None).

(** ** Python's [sorted] *)

(** [sorted(items)], comparing items with their [__lt__] only. *)
Definition sort_fn : Type := forall A : Type, (A -> A -> bool) -> list A -> list A.

(** The length of a run that continues after [prev]: items less than
    their predecessor when [desc], not less otherwise. *)
Fixpoint run_length {A} (lt : A -> A -> bool) (desc : bool) (prev : A) (l : list A) : nat :=
  match l with
  | [] => O
  | x :: l' => if Bool.eqb (lt x prev) desc then S (run_length lt desc x l') else O
  end.

(** [count_run] (Objects/listobject.c): the length of the run at the
    start of the list, and whether it is strictly descending
    ([l[1] < l[0]]). *)
Definition count_run {A} (lt : A -> A -> bool) (l : list A) : nat * bool :=
  match l with
  | x :: y :: l' => let desc := lt y x in (2 + run_length lt desc y l', desc)%nat
  | _ => (length l, false)
  end.

(** The binary search of [binarysort]: the slot of [pivot] in the sorted
    [pre], between [l] and [r].  [p = l + ((r - l) >> 1)];
    [if pivot < pre[p]: r = p else: l = p + 1], while [l < r]. *)
Fixpoint bisect {A} (lt : A -> A -> bool) (pivot : A) (pre : list A) (fuel l r : nat) : nat :=
  match fuel with
  | O => l
  | S f =>
    if (l <? r)%nat then
      let p := (l + (r - l) / 2)%nat in
      match nth_error pre p with
      | Some x => if lt pivot x then bisect lt pivot pre f l p
                  else bisect lt pivot pre f (S p) r
      | None => l
      end
    else l
  end.

(** [binarysort]: each item of [rest] is inserted into the sorted [pre]
    at the slot [bisect] finds. *)
Fixpoint binarysort {A} (lt : A -> A -> bool) (pre rest : list A) : list A :=
  match rest with
  | [] => pre
  | pivot :: rest' =>
    let i := bisect lt pivot pre (S (length pre)) 0 (length pre) in
    binarysort lt (firstn i pre ++ pivot :: skipn i pre) rest'
  end.

(** CPython's [list.sort] on a list of fewer than 64 items, where
    [merge_compute_minrun(n) = n]: the first run (reversed if it is
    descending) is extended to the whole list by [binarysort].  Longer
    lists are cut into such runs and merged; the statements below take
    the sort as a parameter with the properties both paths have. *)
Definition list_sort : sort_fn := fun A lt l =>
  match l with
  | [] | [_] => l
  | _ => let '(n, desc) := count_run lt l in
         let run := firstn n l in
         binarysort lt (if desc then rev run else run) (skipn n l)
  end.

Section Family.
Variable fam : version.

Local Abbreviation W := (max_prefixlen fam).
Local Abbreviation ONES := (ALL_ONES fam).

(** [_ip_int_from_prefix]: [ALL_ONES ^ (ALL_ONES >> prefixlen)] *)
Definition ip_int_from_prefix (plen : Z) : Z :=
  Z.lxor ONES (Z.shiftr ONES plen).

Definition netmask (n : network) : Z := ip_int_from_prefix (prefixlen n).

(** [hostmask = netmask ^ ALL_ONES] *)
Definition hostmask (n : network) : Z := Z.lxor (netmask n) ONES.

(** [broadcast_address = network_address | hostmask] *)
Definition broadcast_address (n : network) : Z :=
  Z.lor (network_address n) (hostmask n).

(** [__contains__] of an address in a network:
    [other._ip & self.netmask._ip == self.network_address._ip]. *)
Definition addr_in_net (x : Z) (n : network) : bool :=
  Z.land x (netmask n) =? network_address n.

(** [__eq__]: same network address and same netmask. *)
Definition net_eqb (n m : network) : bool :=
  (network_address n =? network_address m) && (netmask n =? netmask m).

(** [n] is before [m] or equal to it in the order of [__lt__] on networks
    without scope id: by network address, then by netmask. *)
Definition net_leb (n m : network) : bool :=
  (network_address n <? network_address m)
  || ((network_address n =? network_address m) && (netmask n <=? netmask m)).

Definition net_le (n m : network) : Prop := net_leb n m = true.

#[global] Instance net_le_dec : RelDecision net_le.
Proof. intros n m. unfold net_le. apply _. Defined.

(** A network object as Python builds it: prefix length in range, address
    in range, no host bits (the constructor's [strict] check). *)
Definition valid_net (n : network) : Prop :=
  0 <= prefixlen n <= W /\ 0 <= network_address n <= ONES /\
  Z.land (network_address n) (netmask n) = network_address n.

(** [supernet()] with [prefixlen_diff = 1]:
    a /0 network is its own supernet; otherwise
    [network_address & (netmask << 1)] at [prefixlen - 1]. *)
Definition supernet (n : network) : network :=
  if prefixlen n =? 0 then n
  else mknet (Z.land (network_address n) (Z.shiftl (netmask n) 1))
             (prefixlen n - 1).

(** The network constructor from an [(address, prefixlen)] tuple with
    [strict=True]: [IPv4Address(int)] checks the range, [_make_netmask]
    the prefix length, then the host bits are checked.  [None] is the
    exception it raises. *)
Definition mk_network (addr plen : Z) : option network :=
  if negb ((0 <=? addr) && (addr <=? ONES)) then None
  else if negb ((0 <=? plen) && (plen <=? W)) then None
  else if negb (Z.land addr (ip_int_from_prefix plen) =? addr) then None
  else Some (mknet addr plen).

(** Python's [int.bit_length]. *)
Definition bit_length (x : Z) : Z :=
  if x =? 0 then 0 else Z.log2 (Z.abs x) + 1.

(** [_count_righthand_zero_bits(number, bits)] *)
Definition count_righthand_zero_bits (number bits : Z) : Z :=
  if number =? 0 then bits
  else Z.min bits (bit_length (Z.land (Z.lnot number) (number - 1))).

(** Trailing zero bits of a positive number. *)
Fixpoint pos_ntz (p : positive) : Z :=
  match p with xO p' => Z.succ (pos_ntz p') | _ => 0 end.

(** The [while first_int <= last_int] loop of [summarize_address_range];
    [fuel] bounds the iterations, [None] is an exception or running out
    of fuel. *)
Fixpoint summarize_loop (fuel : nat) (first_int last_int : Z)
  : option (list network) :=
  match fuel with
  | O => None
  | S fuel' =>
    if first_int <=? last_int then
      let nbits := Z.min (count_righthand_zero_bits first_int W)
                         (bit_length (last_int - first_int + 1) - 1) in
      match mk_network first_int (W - nbits) with
      | None => None
      | Some net =>
        let first_int' := first_int + Z.shiftl 1 nbits in
        if first_int' - 1 =? ONES then Some [net]
        else match summarize_loop fuel' first_int' last_int with
             | None => None
             | Some rest => Some (net :: rest)
             end
      end
    else Some []
  end.

(** [summarize_address_range(first, last)]; the loop adds at least one
    address per iteration, so [last - first + 2] iterations suffice. *)
Definition summarize_address_range (first last : Z) : option (list network) :=
  if last <? first then None
  else summarize_loop (Z.to_nat (last - first + 1) + 1) first last.

(** [_find_address_range] on a non-empty sorted list [first :: rest]:
    the maximal runs of consecutive addresses, as [(first, last)] pairs. *)
Fixpoint find_range_aux (first last : Z) (rest : list Z) : list (Z * Z) :=
  match rest with
  | [] => [(first, last)]
  | ip :: rest' =>
    if negb (ip =? last + 1) then (first, last) :: find_range_aux ip ip rest'
    else find_range_aux first ip rest'
  end.

Definition find_address_range (ips : list Z) : list (Z * Z) :=
  match ips with
  | [] => []
  | ip :: rest => find_range_aux ip ip rest
  end.

Fixpoint summarize_all (rs : list (Z * Z)) : option (list network) :=
  match rs with
  | [] => Some []
  | (f, l) :: rs' =>
    match summarize_address_range f l, summarize_all rs' with
    | Some a, Some b => Some (a ++ b)
    | _, _ => None
    end
  end.

(** [__lt__] of two addresses ([_BaseAddress.__lt__]): their integers;
    the scope id plays no part. *)
Definition addr_lt (a b : Z * option string) : bool := a.1 <? b.1.

(** [supernet()] of a network object: a /0 network is returned itself;
    otherwise a new network built from integers, without scope id. *)
Definition py_supernet (x : pynet) : pynet :=
  if prefixlen x.1 =? 0 then x else plain (supernet x.1).

(** [__eq__] of two network objects: equal [network_address]
    ([IPv6Address.__eq__] compares the integer and the scope id) and
    equal netmask. *)
Definition py_eqb (x y : pynet) : bool :=
  net_eqb x.1 y.1 && scope_eqb x.2 y.2.

(** [_BaseNetwork.__lt__]: [if self.network_address != other.network_address:
    return self.network_address < other.network_address]; otherwise by
    netmask. *)
Definition py_lt (x y : pynet) : bool :=
  if negb ((network_address x.1 =? network_address y.1) && scope_eqb x.2 y.2)
  then network_address x.1 <? network_address y.1
  else netmask x.1 <? netmask y.1.

(** The dict [subnets] of [_collapse_addresses_internal]: its items in
    insertion order.  A key is found by [__eq__] (equal network objects
    have equal hashes). *)
Definition dict : Type := list (pynet * pynet).

(** [subnets.get(k)] *)
Fixpoint dict_get (k : pynet) (d : dict) : option pynet :=
  match d with
  | [] => None
  | (k', v) :: d' => if py_eqb k' k then Some v else dict_get k d'
  end.

(** [subnets[k] = v]: an existing key keeps its place (and its key
    object), a new key goes last. *)
Fixpoint dict_set (k v : pynet) (d : dict) : dict :=
  match d with
  | [] => [(k, v)]
  | (k', v') :: d' => if py_eqb k' k then (k', v) :: d' else (k', v') :: dict_set k v d'
  end.

(** [del subnets[k]] *)
Fixpoint dict_del (k : pynet) (d : dict) : dict :=
  match d with
  | [] => []
  | (k', v) :: d' => if py_eqb k' k then d' else (k', v) :: dict_del k d'
  end.

(** [subnets.values()], in insertion order. *)
Definition values (d : dict) : list pynet := map snd d.

(** The [while to_merge] loop of [_collapse_addresses_internal].  The
    Python list [to_merge] is a stack ([pop()] and [append] work at its
    end); here its top is the head of the list. *)
Fixpoint merge_loop (fuel : nat) (to_merge : list pynet) (subnets : dict) : option dict :=
  match fuel with
  | O => None
  | S fuel' =>
    match to_merge with
    | [] => Some subnets
    | net :: rest =>
      let sn := py_supernet net in
      match dict_get sn subnets with
      | None => merge_loop fuel' rest (dict_set sn net subnets)
      | Some existing =>
        if negb (py_eqb existing net)
        then merge_loop fuel' (sn :: rest) (dict_del sn subnets)
        else merge_loop fuel' rest subnets
      end
    end
  end.

(** The second loop: walk the sorted networks and skip every network whose
    broadcast address does not exceed that of the last one yielded
    ([broadcast_address] is built from integers: no scope id). *)
Fixpoint skip_subsumed (last : option pynet) (l : list pynet) : list pynet :=
  match l with
  | [] => []
  | net :: l' =>
    match last with
    | Some lst =>
      if broadcast_address net.1 <=? broadcast_address lst.1
      then skip_subsumed last l'
      else net :: skip_subsumed (Some net) l'
    | None => net :: skip_subsumed (Some net) l'
    end
  end.

(** Iteration bound of [merge_loop]: each step lowers
    [sum (prefixlen + 2) over to_merge + len(subnets)]. *)
Definition fuel_weight (l : list pynet) : nat :=
  foldr (fun n acc => Z.to_nat (prefixlen n.1) + 2 + acc)%nat 0%nat l.

Definition merge_fuel (l : list pynet) : nat := S (fuel_weight l).

Definition collapse_addresses_internal (sorted : sort_fn) (addresses : list pynet)
  : option (list pynet) :=
  match merge_loop (merge_fuel addresses) (rev addresses) [] with
  | None => None
  | Some subnets => Some (skip_subsumed None (sorted _ py_lt (values subnets)))
  end.

(** [collapse_addresses]: the [network_address] of each network of full
    length goes to [ips], the other networks to [nets]; the addresses
    take the address path ([sorted(set(ips))], [_find_address_range],
    [summarize_address_range]); then
    [_collapse_addresses_internal(addrs + nets)].  The order in which
    [set(ips)] yields its items is left to [sorted]. *)
Definition collapse_addresses (sorted : sort_fn) (addresses : list pynet)
  : option (list pynet) :=
  let ips := map (fun x : pynet => (network_address x.1, x.2))
                 (filter (fun x : pynet => prefixlen x.1 = W) addresses) in
  let nets := filter (fun x : pynet => prefixlen x.1 <> W) addresses in
  let ips := sorted _ addr_lt (remove_dups ips) in
  match (match ips with [] => Some [] | _ => summarize_all (find_address_range (map fst ips)) end) with
  | None => None
  | Some addrs => collapse_addresses_internal sorted (map plain addrs ++ nets)
  end.

(** Addresses covered by a list of networks. *)
Definition covers (L : list network) (x : Z) : Prop :=
  exists n, In n L /\ addr_in_net x n = true.

(** Sibling prefixes: the two distinct length-L subnets of one length
    L-1 parent. *)
Definition siblings (n m : network) : Prop :=
  n <> m /\ prefixlen n = prefixlen m /\ 1 <= prefixlen n /\
  supernet n = supernet m.

(** No address of the family lies in two distinct networks of [L]. *)
Definition pairwise_disjoint (L : list network) : Prop :=
  forall n m, In n L -> In m L -> n <> m ->
  forall x, 0 <= x <= ONES -> ~ (addr_in_net x n = true /\ addr_in_net x m = true).

(** The [prefixlen] leading bits of the network address. *)
Definition key (n : network) : Z :=
  Z.shiftr (network_address n) (max_prefixlen fam - prefixlen n).

(** [n] lies inside [m], stated on prefix lengths and leading bits. *)
Definition sub (n m : network) : Prop :=
  prefixlen m <= prefixlen n /\
  Z.shiftr (key n) (prefixlen n - prefixlen m) = key m.

(** A sibling-free, pairwise disjoint list of valid networks. *)
Definition canonical (A : list network) : Prop :=
  (forall n, In n A -> valid_net n) /\ pairwise_disjoint A /\
  (forall n m, In n A -> In m A -> ~ siblings n m).

(** The loop invariant on networks without scope id: the stack and the
    dict values hold valid networks without scope id, every key is the
    supernet of its value, and together stack and values cover what the
    input covers. *)
Definition merge_inv (T0 T : list pynet) (D : dict) : Prop :=
  (forall x, In x T -> valid_net x.1 /\ x.2 = None) /\
  (forall k v, In (k, v) D -> valid_net v.1 /\ v.2 = None /\ k = py_supernet v) /\
  (forall x, 0 <= x <= ALL_ONES fam ->
     covers (map fst T0) x <-> covers (map fst T) x \/ covers (map fst (values D)) x).

(** Every key of the dict is the supernet of its value, and no key
    occurs twice. *)
Definition keys_ok (D : dict) : Prop :=
  (forall k v, In (k, v) D -> k = py_supernet v) /\ NoDup D.*1.

(** The filtering pass on the blocks alone. *)
Fixpoint skip_blocks (last : option network) (l : list network) : list network :=
  match l with
  | [] => []
  | net :: l' =>
    match last with
    | Some lst =>
      if broadcast_address net <=? broadcast_address lst
      then skip_blocks last l'
      else net :: skip_blocks (Some net) l'
    | None => net :: skip_blocks (Some net) l'
    end
  end.

(** The yielded networks: each ends before the next one starts. *)
Definition before (n m : network) : Prop := broadcast_address n < network_address m.

End Family.

(** ** Exceptions and the error monad *)

(** The exceptions that reach the program: [requests.RequestException];
    [ValueError] and its subclasses [AddressValueError] and
    [NetmaskValueError] from ipaddress; the [TypeError] that
    [collapse_addresses] raises on a mix of families, or an operation on a
    value of the wrong type; the [KeyError] of a missing dict key and the
    [AttributeError] of [.get] on a value that is not a dict; and
    [OutOfFuel], the iteration bound of this model's loops (it is not
    reached on valid input, see [collapse_ok]). *)
Inductive exn :=
  | RequestException | ValueError | AddressValueError | NetmaskValueError
  | TypeError | KeyError | AttributeError | OutOfFuel.

(** [isinstance(e, ValueError)] *)
Definition is_value_error (e : exn) : bool :=
  match e with
  | ValueError | AddressValueError | NetmaskValueError => true
  | _ => false
  end.

(** [isinstance(e, (AddressValueError, NetmaskValueError))] *)
Definition is_address_or_netmask_error (e : exn) : bool :=
  match e with AddressValueError | NetmaskValueError => true | _ => false end.

(** A computation that returns a value or raises. *)
Inductive Exc (A : Type) : Type := Ok (a : A) | Raise (e : exn).
Arguments Ok {A} a.
Arguments Raise {A} e.

#[global] Instance exc_ret : MRet Exc := fun A a => Ok a.
#[global] Instance exc_bind : MBind Exc := fun A B f m =>
  match m with Ok a => f a | Raise e => Raise e end.

(** ** Python string operations (on text of code points below 256) *)

(** [s.split(c)] for a one-character separator. *)
Fixpoint split_on (c : ascii) (s : string) : list string :=
  match s with
  | EmptyString => [EmptyString]
  | String a s' =>
    let rest := split_on c s' in
    if Ascii.eqb a c then EmptyString :: rest
    else match rest with
         | w :: ws => String a w :: ws
         | [] => [String a EmptyString]
         end
  end.

(** [c in s] *)
Fixpoint str_contains (c : ascii) (s : string) : bool :=
  match s with
  | EmptyString => false
  | String a s' => Ascii.eqb a c || str_contains c s'
  end.

(** [s.startswith(c)] for a one-character prefix. *)
Definition startswith (c : ascii) (s : string) : bool :=
  match s with String a _ => Ascii.eqb a c | EmptyString => false end.

(** [s.partition(c)]: the text before the first [c], and the text after
    it if [c] occurs. *)
Fixpoint partition_char (c : ascii) (s : string) : string * option string :=
  match s with
  | EmptyString => (EmptyString, None)
  | String a s' =>
    if Ascii.eqb a c then (EmptyString, Some s')
    else let '(x, r) := partition_char c s' in (String a x, r)
  end.

(** The line boundaries of [str.splitlines]: \n, \x0b, \x0c, \r, \x1c,
    \x1d, \x1e and \x85 (\r\n counts as one boundary). *)
Definition is_line_break (c : ascii) : bool :=
  match nat_of_ascii c with
  | 10 | 11 | 12 | 13 | 28 | 29 | 30 | 133 => true
  | _ => false
  end%nat.

Definition string_of_rev (cur : list ascii) : string :=
  string_of_list_ascii (rev cur).

(** [s.splitlines()]: [cur] holds the current line, reversed; a final
    line without a boundary is kept if it is not empty. *)
Fixpoint splitlines_acc (s : string) (cur : list ascii) : list string :=
  match s with
  | EmptyString => match cur with [] => [] | _ => [string_of_rev cur] end
  | String c s' =>
    if Ascii.eqb c "013"%char then
      match s' with
      | String c2 s'' =>
        if Ascii.eqb c2 "010"%char then string_of_rev cur :: splitlines_acc s'' []
        else string_of_rev cur :: splitlines_acc s' []
      | EmptyString => [string_of_rev cur]
      end
    else if is_line_break c then string_of_rev cur :: splitlines_acc s' []
    else splitlines_acc s' (c :: cur)
  end.

Definition splitlines (s : string) : list string := splitlines_acc s [].

Definition is_ascii_digit (c : ascii) : bool :=
  let n := nat_of_ascii c in (48 <=? n)%nat && (n <=? 57)%nat.

(** [s.isascii() and s.isdigit()] *)
Definition ascii_digits (s : string) : bool :=
  match s with
  | EmptyString => false
  | _ => forallb is_ascii_digit (list_ascii_of_string s)
  end.

(** [int(s)] on a string of decimal digits. *)
Fixpoint dec_value_acc (acc : Z) (s : string) : Z :=
  match s with
  | EmptyString => acc
  | String c s' => dec_value_acc (acc * 10 + (Z.of_nat (nat_of_ascii c) - 48)) s'
  end.

Definition dec_value (s : string) : Z := dec_value_acc 0 s.

(** [_HEX_DIGITS = frozenset('0123456789abcdefABCDEF')] and the digit
    values of [int(s, 16)]. *)
Definition hex_digit_value (c : ascii) : option Z :=
  let n := Z.of_nat (nat_of_ascii c) in
  if (48 <=? n) && (n <=? 57) then Some (n - 48)
  else if (97 <=? n) && (n <=? 102) then Some (n - 87)
  else if (65 <=? n) && (n <=? 70) then Some (n - 55)
  else None.

Definition is_hex_digit (c : ascii) : bool :=
  match hex_digit_value c with Some _ => true | None => false end.

Fixpoint hex_value_acc (acc : Z) (s : string) : Z :=
  match s with
  | EmptyString => acc
  | String c s' =>
    hex_value_acc (acc * 16 + match hex_digit_value c with Some d => d | None => 0 end) s'
  end.

Definition hex_char (d : Z) : ascii :=
  ascii_of_nat (Z.to_nat (if d <? 10 then 48 + d else 87 + d)).

Fixpoint format_hex_acc (fuel : nat) (v : Z) (acc : string) : string :=
  match fuel with
  | O => acc
  | S f => if v =? 0 then acc else format_hex_acc f (v / 16) (String (hex_char (v mod 16)) acc)
  end.

(** ['%x' % v] for [0 <= v < 2 ** 16] *)
Definition format_hex (v : Z) : string :=
  if v =? 0 then "0"%string else format_hex_acc 4 v EmptyString.


(** ** Parsing prefixes: [ip_network] (CPython 3.11 ipaddress) *)

(** [_BaseV4._parse_octet] *)
Definition parse_octet (octet_str : string) : Exc Z :=
  if String.eqb octet_str "" then Raise ValueError
  else if negb (ascii_digits octet_str) then Raise ValueError
  else if (3 <? String.length octet_str)%nat then Raise ValueError
  else if negb (String.eqb octet_str "0") && startswith "0" octet_str then Raise ValueError
  else let octet_int := dec_value octet_str in
       if 255 <? octet_int then Raise ValueError else Ok octet_int.

(** [_BaseV4._ip_int_from_string]: [int.from_bytes(map(_parse_octet,
    octets), 'big')], a [ValueError] becoming [AddressValueError]. *)
Definition ip4_int_from_string (ip_str : string) : Exc Z :=
  if String.eqb ip_str "" then Raise AddressValueError
  else
    let octets := split_on "." ip_str in
    if negb (length octets =? 4)%nat then Raise AddressValueError
    else match mapM parse_octet octets with
         | Ok bytes => Ok (fold_left (fun acc b => acc * 256 + b) bytes 0)
         | Raise e => if is_value_error e then Raise AddressValueError else Raise e
         end.

(** [IPv4Address(s)] for a string. *)
Definition ipv4_address (address : string) : Exc Z :=
  if str_contains "/" address then Raise AddressValueError
  else ip4_int_from_string address.

(** [_IPAddressBase._prefix_from_prefix_string] *)
Definition prefix_from_prefix_string (v : version) (prefixlen_str : string) : Exc Z :=
  if negb (ascii_digits prefixlen_str) then Raise NetmaskValueError
  else let prefixlen := dec_value prefixlen_str in
       if (0 <=? prefixlen) && (prefixlen <=? max_prefixlen v) then Ok prefixlen
       else Raise NetmaskValueError.

(** [_IPAddressBase._prefix_from_ip_int] *)
Definition prefix_from_ip_int (v : version) (ip_int : Z) : Exc Z :=
  let trailing_zeroes := count_righthand_zero_bits ip_int (max_prefixlen v) in
  let prefixlen := max_prefixlen v - trailing_zeroes in
  let leading_ones := Z.shiftr ip_int trailing_zeroes in
  let all_ones := Z.shiftl 1 prefixlen - 1 in
  if negb (leading_ones =? all_ones) then Raise ValueError else Ok prefixlen.

(** [_IPAddressBase._prefix_from_ip_string], as [_BaseV4] calls it: a
    netmask, else a hostmask. *)
Definition prefix_from_ip_string (ip_str : string) : Exc Z :=
  match ip4_int_from_string ip_str with
  | Raise AddressValueError => Raise NetmaskValueError
  | Raise e => Raise e
  | Ok ip_int =>
    match prefix_from_ip_int V4 ip_int with
    | Ok p => Ok p
    | Raise e =>
      if is_value_error e then
        match prefix_from_ip_int V4 (Z.lxor ip_int (ALL_ONES V4)) with
        | Ok p => Ok p
        | Raise e' => if is_value_error e' then Raise NetmaskValueError else Raise e'
        end
      else Raise e
    end
  end.

(** The [mask] argument of [_make_netmask]: the default prefix length
    (an [int]) or the text after the slash. *)
Inductive mask_arg := MaskInt (p : Z) | MaskStr (s : string).

(** [_BaseV4._make_netmask], returning the prefix length (the netmask is
    [ip_int_from_prefix]; the [_netmask_cache] only memoises). *)
Definition make_netmask4 (arg : mask_arg) : Exc Z :=
  match arg with
  | MaskInt prefixlen =>
    if (0 <=? prefixlen) && (prefixlen <=? 32) then Ok prefixlen
    else Raise NetmaskValueError
  | MaskStr s =>
    match prefix_from_prefix_string V4 s with
    | Ok p => Ok p
    | Raise NetmaskValueError => prefix_from_ip_string s
    | Raise e => Raise e
    end
  end.

(** [_BaseV6._make_netmask] *)
Definition make_netmask6 (arg : mask_arg) : Exc Z :=
  match arg with
  | MaskInt prefixlen =>
    if (0 <=? prefixlen) && (prefixlen <=? 128) then Ok prefixlen
    else Raise NetmaskValueError
  | MaskStr s => prefix_from_prefix_string V6 s
  end.

(** [_split_addr_prefix] on a string, with [_split_optional_netmask]. *)
Definition split_addr_prefix (v : version) (address : string) : Exc (string * mask_arg) :=
  let addr := split_on "/" address in
  if (2 <? length addr)%nat then Raise AddressValueError
  else match addr with
       | [a; m] => Ok (a, MaskStr m)
       | [a] => Ok (a, MaskInt (max_prefixlen v))
       | _ => Raise AddressValueError  (* not reached: [split_on] is never [] *)
       end.

(** [_BaseV6._parse_hextet]; [int('', 16)] raises. *)
Definition parse_hextet (hextet_str : string) : Exc Z :=
  if negb (forallb is_hex_digit (list_ascii_of_string hextet_str)) then Raise ValueError
  else if (4 <? String.length hextet_str)%nat then Raise ValueError
  else if String.eqb hextet_str "" then Raise ValueError
  else Ok (hex_value_acc 0 hextet_str).

(** The loop of [_ip_int_from_string] that looks for the one empty inner
    part (the ['::']), starting at index [i]. *)
Fixpoint skip_scan (inner : list string) (i : Z) (skip_index : option Z)
  : Exc (option Z) :=
  match inner with
  | [] => Ok skip_index
  | p :: rest =>
    if String.eqb p "" then
      match skip_index with
      | Some _ => Raise AddressValueError
      | None => skip_scan rest (i + 1) (Some i)
      end
    else skip_scan rest (i + 1) skip_index
  end.

(** [ip_int <<= 16; ip_int |= _parse_hextet(part)] over the parts. *)
Fixpoint parse_hextets (ip_int : Z) (parts : list string) : Exc Z :=
  match parts with
  | [] => Ok ip_int
  | p :: rest => h ← parse_hextet p; parse_hextets (Z.lor (Z.shiftl ip_int 16) h) rest
  end.

Definition HEXTET_COUNT : Z := 8.

(** [_BaseV6._ip_int_from_string] *)
Definition ip6_int_from_string (ip_str : string) : Exc Z :=
  if String.eqb ip_str "" then Raise AddressValueError else
  let parts := split_on ":" ip_str in
  if (length parts <? 3)%nat then Raise AddressValueError else
  parts ← (let lastp := List.last parts EmptyString in
           if str_contains "." lastp then
             match ipv4_address lastp with
             | Ok ipv4_int =>
               Ok (removelast parts ++
                   [format_hex (Z.land (Z.shiftr ipv4_int 16) 65535);
                    format_hex (Z.land ipv4_int 65535)])
             | Raise AddressValueError => Raise AddressValueError
             | Raise e => Raise e
             end
           else Ok parts);
  let len := Z.of_nat (length parts) in
  if HEXTET_COUNT + 1 <? len then Raise AddressValueError else
  skip_index ← skip_scan (firstn (length parts - 2) (tail parts)) 1 None;
  '(parts_hi, parts_lo, parts_skipped) ←
    match skip_index with
    | Some i =>
      parts_hi ← (if String.eqb (nth 0 parts EmptyString) "" then
                    if negb (i - 1 =? 0) then Raise AddressValueError else Ok (i - 1)
                  else Ok i);
      parts_lo ← (if String.eqb (List.last parts EmptyString) "" then
                    if negb (len - i - 1 - 1 =? 0) then Raise AddressValueError
                    else Ok (len - i - 1 - 1)
                  else Ok (len - i - 1));
      let parts_skipped := HEXTET_COUNT - (parts_hi + parts_lo) in
      if parts_skipped <? 1 then Raise AddressValueError
      else Ok (parts_hi, parts_lo, parts_skipped)
    | None =>
      if negb (len =? HEXTET_COUNT) then Raise AddressValueError
      else if String.eqb (nth 0 parts EmptyString) "" then Raise AddressValueError
      else if String.eqb (List.last parts EmptyString) "" then Raise AddressValueError
      else Ok (len, 0, 0)
    end;
  match (hi ← parse_hextets 0 (firstn (Z.to_nat parts_hi) parts);
         parse_hextets (Z.shiftl hi (16 * parts_skipped))
                       (skipn (length parts - Z.to_nat parts_lo) parts)) with
  | Ok ip_int => Ok ip_int
  | Raise e => if is_value_error e then Raise AddressValueError else Raise e
  end.

(** [_split_scope_id]: the address and the scope id after ['%']. *)
Definition split_scope_id (ip_str : string) : Exc (string * option string) :=
  match partition_char "%" ip_str with
  | (addr, None) => Ok (addr, None)
  | (addr, Some scope_id) =>
    if String.eqb scope_id "" || str_contains "%" scope_id then Raise AddressValueError
    else Ok (addr, Some scope_id)
  end.

(** [IPv6Address(s)] for a string: its integer and its scope id. *)
Definition ipv6_address (address : string) : Exc (Z * option string) :=
  if str_contains "/" address then Raise AddressValueError
  else '(addr, scope_id) ← split_scope_id address;
       ip ← ip6_int_from_string addr;
       mret (ip, scope_id).

(** The first three statements of [IPv4Network.__init__]: the address
    and the prefix length. *)
Definition ipv4_network_parts (address : string) : Exc (Z * Z) :=
  '(addr, mask) ← split_addr_prefix V4 address;
  packed ← ipv4_address addr;
  prefixlen ← make_netmask4 mask;
  mret (packed, prefixlen).

(** The same for [IPv6Network.__init__]; the address keeps its scope id. *)
Definition ipv6_network_parts (address : string) : Exc ((Z * option string) * Z) :=
  '(addr, mask) ← split_addr_prefix V6 address;
  packed ← ipv6_address addr;
  prefixlen ← make_netmask6 mask;
  mret (packed, prefixlen).

(** The rest of both constructors: host bits raise [ValueError] when
    [strict]; otherwise the address becomes [IPv6Address(packed &
    netmask)], built from an integer, without scope id. *)
Definition host_bits_check (v : version) (strict : bool)
    (parts : (Z * option string) * Z) : Exc pynet :=
  let '((packed, scope_id), prefixlen) := parts in
  let netmask := ip_int_from_prefix v prefixlen in
  if negb (Z.land packed netmask =? packed) then
    if strict then Raise ValueError else Ok (plain (mknet (Z.land packed netmask) prefixlen))
  else Ok (mknet packed prefixlen, scope_id).

Definition IPv4Network (address : string) (strict : bool) : Exc pynet :=
  '(packed, prefixlen) ← ipv4_network_parts address;
  host_bits_check V4 strict ((packed, None), prefixlen).

Definition IPv6Network (address : string) (strict : bool) : Exc pynet :=
  ipv6_network_parts address ≫= host_bits_check V6 strict.

(** A network object with its family ([network.version]). *)
Definition ipnet : Type := (version * pynet)%type.

(** [ip_network(address, strict)] *)
Definition ip_network (address : string) (strict : bool) : Exc ipnet :=
  match IPv4Network address strict with
  | Ok n => Ok (V4, n)
  | Raise e =>
    if is_address_or_netmask_error e then
      match IPv6Network address strict with
      | Ok n => Ok (V6, n)
      | Raise e' => if is_address_or_netmask_error e' then Raise ValueError else Raise e'
      end
    else Raise e
  end.

(** ** Decoded JSON documents *)

(** A value [json.loads] returns: [None], a bool, an int, a float (its
    value plays no part here), a str, a list, or a dict given by the
    key/value pairs of the text in order. *)
#[warnings="-register-all"] Inductive json :=
  | JNull
  | JBool (b : bool)
  | JInt (z : Z)
  | JFloat
  | JStr (s : string)
  | JArr (items : list json)
  | JObj (fields : list (string * json)).

(** The value of [key] in the dict built from [fields]: a later pair with
    the same key overrides an earlier one. *)
Fixpoint obj_lookup (key : string) (fields : list (string * json)) : option json :=
  match fields with
  | [] => None
  | (k, v) :: rest =>
    match obj_lookup key rest with
    | Some w => Some w
    | None => if String.eqb k key then Some v else None
    end
  end.

(** The keys of that dict in iteration order: each key once, at the place
    of its first pair. *)
Fixpoint obj_keys (fields : list (string * json)) : list string :=
  match fields with
  | [] => []
  | (k, _) :: rest => k :: List.filter (fun k' => negb (String.eqb k' k)) (obj_keys rest)
  end.

(** [d.get(key, default)]: only a dict has [get]. *)
Definition py_get (d : json) (key : string) (default : json) : Exc json :=
  match d with
  | JObj fields => Ok (match obj_lookup key fields with Some v => v | None => default end)
  | _ => Raise AttributeError
  end.

(** [d[key]] for a str [key]: a dict looks the key up; a list and a str
    take integer indices only; the other values are not subscriptable. *)
Definition py_getitem (d : json) (key : string) : Exc json :=
  match d with
  | JObj fields =>
    match obj_lookup key fields with Some v => Ok v | None => Raise KeyError end
  | _ => Raise TypeError
  end.

(** [for x in d]: a list yields its items, a dict its keys, a str its
    characters; the other values are not iterable. *)
Definition py_iter (d : json) : Exc (list json) :=
  match d with
  | JArr items => Ok items
  | JObj fields => Ok (map JStr (obj_keys fields))
  | JStr s => Ok (map (fun c => JStr (String c EmptyString)) (list_ascii_of_string s))
  | _ => Raise TypeError
  end.

(** [key in d] for a str [key]: a key of a dict, an item of a list equal
    to [key], a substring of a str; the other values are not
    iterable. *)
Definition py_contains (key : string) (d : json) : Exc bool :=
  match d with
  | JObj fields => Ok (if obj_lookup key fields then true else false)
  | JArr items =>
    Ok (existsb (fun x => match x with JStr s => String.eqb s key | _ => false end) items)
  | JStr s => Ok (if String.index 0 key s then true else false)
  | _ => Raise TypeError
  end.

(** [ip_network(n)] for an int [n] ([_split_addr_prefix] takes it as an
    address with the full prefix length): the first family whose range
    holds it; outside both, [ValueError]. *)
Definition ip_network_int (z : Z) : Exc ipnet :=
  if (0 <=? z) && (z <=? ALL_ONES V4) then Ok (V4, plain (mknet z (max_prefixlen V4)))
  else if (0 <=? z) && (z <=? ALL_ONES V6) then Ok (V6, plain (mknet z (max_prefixlen V6)))
  else Raise ValueError.

(** [ip_network(x, strict)] for a decoded value [x]: a str is parsed; a
    bool is the int 0 or 1; any other value goes through [str(x)], which
    gives ['None'], the repr of a float, or text starting with ['['] or
    ['{']: neither constructor accepts it, and [ip_network] raises
    [ValueError]. *)
Definition ip_network_json (x : json) (strict : bool) : Exc ipnet :=
  match x with
  | JStr s => ip_network s strict
  | JInt z => ip_network_int z
  | JBool b => ip_network_int (if b then 1 else 0)
  | _ => Raise ValueError
  end.

(** ** [retry_request] *)

Definition MAX_RETRIES : nat := 3.

(** [for attempt in range(MAX_RETRIES)]: [get attempt] is the outcome of
    [requests.get(...)] and [raise_for_status()] at that attempt, [None]
    when either raised [RequestException].  Sleeping and printing are not
    modelled. *)
Fixpoint retry_loop {A} (get : nat -> option A) (attempt remaining : nat) : Exc A :=
  match remaining with
  | O => Raise RequestException  (* raise last_exception *)
  | S r =>
    match get attempt with
    | Some response => Ok response
    | None => retry_loop get (S attempt) r
    end
  end.

Definition retry_request {A} (get : nat -> option A) : Exc A :=
  retry_loop get 0 MAX_RETRIES.

(** ** The six fetchers *)

(** A Python set of networks is given here by the sequence of its
    insertions: the fetchers only add to their sets and [main] tests
    them for emptiness and unions them ([set_union_order]). *)
Definition prefix_sets : Type := (list ipnet * list ipnet)%type.

(** [try: network = ip_network(s) ... add by version ... except
    ValueError: continue] *)
Definition add_or_skip (acc : prefix_sets) (r : Exc ipnet) : Exc prefix_sets :=
  match r with
  | Ok (V4, n) => Ok (acc.1 ++ [(V4, n)], acc.2)
  | Ok (V6, n) => Ok (acc.1, acc.2 ++ [(V6, n)])
  | Raise e => if is_value_error e then Ok acc else Raise e
  end.

(** A successful response to a JSON request: its decoded body, or [None]
    when the body is not JSON.  [response.json()] then raises requests'
    [JSONDecodeError], a [RequestException]. *)
Definition json_response : Type := option json.

(** [response.json()] *)
Definition response_json (r : json_response) : Exc json :=
  match r with Some j => Ok j | None => Raise RequestException end.

(** The loop over the prefixes of a list, parsed with [strict=True],
    each in a [try] that catches [ValueError]. *)
Fixpoint add_all (l : list json) (acc : prefix_sets) : Exc prefix_sets :=
  match l with
  | [] => Ok acc
  | s :: rest => acc' ← add_or_skip acc (ip_network_json s true); add_all rest acc'
  end.

(** [{ip_network(prefix[item_key]) for prefix in
    response.get(list_key, [])}] *)
Definition aws_set (response : json) (list_key item_key : string) : Exc (list ipnet) :=
  prefixes ← py_get response list_key (JArr []);
  items ← py_iter prefixes;
  mapM (fun prefix => p ← py_getitem prefix item_key; ip_network_json p true) items.

(** [fetch_aws_ip_ranges]: two set comprehensions inside a [try] that
    catches [requests.RequestException] only. *)
Definition fetch_aws_ip_ranges (get : nat -> option json_response) : Exc prefix_sets :=
  match (r ← retry_request get;
         response ← response_json r;
         ipv4prefixes ← aws_set response "prefixes" "ip_prefix";
         ipv6prefixes ← aws_set response "ipv6_prefixes" "ipv6_prefix";
         mret (ipv4prefixes, ipv6prefixes)) with
  | Raise RequestException => Ok ([], [])
  | r => r
  end.

(** The pattern [https://download.microsoft.com/download/] of the Azure
    regex, an unescaped ['.'] matching any character but a newline. *)
Definition azure_url_head : list (option ascii) :=
  map (fun c => if Ascii.eqb c "." then None else Some c)
      (list_ascii_of_string "https://download.microsoft.com/download/").

(** Match [head] at the start of [s]; the rest of [s] after it. *)
Fixpoint match_head (head : list (option ascii)) (s : string) : option string :=
  match head, s with
  | [], _ => Some s
  | None :: h, String c s' => if Ascii.eqb c "010"%char then None else match_head h s'
  | Some a :: h, String c s' => if Ascii.eqb a c then match_head h s' else None
  | _ :: _, EmptyString => None
  end.

(** [.*?\.json]: the shortest run of non-newline characters followed by
    [.json], with the [.json]. *)
Fixpoint match_lazy_json (s : string) : option string :=
  if String.prefix ".json" s then Some ".json"%string
  else match s with
       | EmptyString => None
       | String c s' =>
         if Ascii.eqb c "010"%char then None
         else match match_lazy_json s' with Some m => Some (String c m) | None => None end
       end.

Definition azure_url_match_at (s : string) : option string :=
  match match_head azure_url_head s with
  | Some rest =>
    match match_lazy_json rest with
    | Some tail => Some (substring 0 (length azure_url_head) s ++ tail)%string
    | None => None
    end
  | None => None
  end.

(** [re.search(...)] followed by [.group()]: the leftmost match. *)
Fixpoint azure_json_url (page : string) : option string :=
  match azure_url_match_at page with
  | Some m => Some m
  | None => match page with EmptyString => None | String _ s' => azure_json_url s' end
  end.

(** [for value in values: for ip_range in value.get("properties",
    {}).get("addressPrefixes", []): ...] *)
Fixpoint add_azure_values (values : list json) (acc : prefix_sets) : Exc prefix_sets :=
  match values with
  | [] => Ok acc
  | value :: rest =>
    properties ← py_get value "properties" (JObj []);
    prefixes ← py_get properties "addressPrefixes" (JArr []);
    items ← py_iter prefixes;
    acc' ← add_all items acc;
    add_azure_values rest acc'
  end.

(** [fetch_azure_ip_ranges]: the download page, the JSON URL found in it,
    then the JSON document. *)
Definition fetch_azure_ip_ranges (get_page : nat -> option string)
    (get_json : string -> nat -> option json_response) : Exc prefix_sets :=
  match retry_request get_page with
  | Raise RequestException => Ok ([], [])
  | Raise e => Raise e
  | Ok download_page =>
    match azure_json_url download_page with
    | None => Ok ([], [])
    | Some json_url =>
      match (r ← retry_request (get_json json_url); response_json r) with
      | Raise RequestException => Ok ([], [])
      | Raise e => Raise e
      | Ok response =>
        values ← py_get response "values" (JArr []);
        items ← py_iter values;
        add_azure_values items ([], [])
      end
    end
  end.

(** [{ip_network(prefix[key]) for prefix in prefixes if key in prefix}] *)
Fixpoint gcp_filter (key : string) (prefixes : list json) : Exc (list ipnet) :=
  match prefixes with
  | [] => Ok []
  | prefix :: rest =>
    b ← py_contains key prefix;
    if (b : bool) then
      (p ← py_getitem prefix key;
       n ← ip_network_json p true;
       ns ← gcp_filter key rest;
       mret (n :: ns))
    else gcp_filter key rest
  end.

Definition gcp_set (response : json) (key : string) : Exc (list ipnet) :=
  prefixes ← py_get response "prefixes" (JArr []);
  items ← py_iter prefixes;
  gcp_filter key items.

(** [fetch_gcp_ip_ranges]: like AWS, comprehensions inside a [try] that
    catches [requests.RequestException] only. *)
Definition fetch_gcp_ip_ranges (get : nat -> option json_response) : Exc prefix_sets :=
  match (r ← retry_request get;
         response ← response_json r;
         ipv4prefixes ← gcp_set response "ipv4Prefix";
         ipv6prefixes ← gcp_set response "ipv6Prefix";
         mret (ipv4prefixes, ipv6prefixes)) with
  | Raise RequestException => Ok ([], [])
  | r => r
  end.

(** [line.split(",")[0]] *)
Definition first_field (line : string) : string :=
  match split_on "," line with p :: _ => p | [] => EmptyString end.

Fixpoint add_ocean_lines (lines : list string) (acc : prefix_sets) : Exc prefix_sets :=
  match lines with
  | [] => Ok acc
  | line :: rest => acc' ← add_or_skip acc (ip_network (first_field line) true);
                    add_ocean_lines rest acc'
  end.

(** [fetch_digital_ocean_ip_ranges]: the CSV text, line by line. *)
Definition fetch_digital_ocean_ip_ranges (get : nat -> option string) : Exc prefix_sets :=
  match retry_request get with
  | Raise RequestException => Ok ([], [])
  | Raise e => Raise e
  | Ok text => add_ocean_lines (splitlines text) ([], [])
  end.

(** [for cidr in cidrs: try: network = ip_network(cidr["cidr"]) ...
    except ValueError: continue]: a missing key raises [KeyError], which
    the [try] lets through. *)
Fixpoint add_cidrs (cidrs : list json) (acc : prefix_sets) : Exc prefix_sets :=
  match cidrs with
  | [] => Ok acc
  | cidr :: rest =>
    c ← py_getitem cidr "cidr";
    acc' ← add_or_skip acc (ip_network_json c true);
    add_cidrs rest acc'
  end.

(** [for region in regions: for cidr in region.get("cidrs", []): ...] *)
Fixpoint add_oracle_regions (regions : list json) (acc : prefix_sets) : Exc prefix_sets :=
  match regions with
  | [] => Ok acc
  | region :: rest =>
    cidrs ← py_get region "cidrs" (JArr []);
    items ← py_iter cidrs;
    acc' ← add_cidrs items acc;
    add_oracle_regions rest acc'
  end.

(** [fetch_oracle_ip_ranges] *)
Definition fetch_oracle_ip_ranges (get : nat -> option json_response) : Exc prefix_sets :=
  match (r ← retry_request get; response_json r) with
  | Raise RequestException => Ok ([], [])
  | Raise e => Raise e
  | Ok response =>
    regions ← py_get response "regions" (JArr []);
    items ← py_iter regions;
    add_oracle_regions items ([], [])
  end.

(** The loop of [linode_ip_ranges]: lines starting with ["#"] are
    skipped, the others parsed with [strict=False]. *)
Fixpoint add_linode_lines (lines : list string) (acc : prefix_sets) : Exc prefix_sets :=
  match lines with
  | [] => Ok acc
  | line :: rest =>
    if negb (startswith "#" line) then
      acc' ← add_or_skip acc (ip_network (first_field line) false);
      add_linode_lines rest acc'
    else add_linode_lines rest acc
  end.

(** [linode_ip_ranges] *)
Definition linode_ip_ranges (get : nat -> option string) : Exc prefix_sets :=
  match retry_request get with
  | Raise RequestException => Ok ([], [])
  | Raise e => Raise e
  | Ok response => add_linode_lines (splitlines response) ([], [])
  end.

(** ** [main] *)

(** What the network answers: for each provider and each attempt of
    [retry_request], the response ([.text], or the body as [.json()]
    decodes it) or [None] for a [RequestException].  Azure's second
    request depends on the URL found in its download page. *)
Record env := {
  aws_get : nat -> option json_response;
  azure_page_get : nat -> option string;
  azure_json_get : string -> nat -> option json_response;
  gcp_get : nat -> option json_response;
  ocean_get : nat -> option string;
  oracle_get : nat -> option json_response;
  linode_get : nat -> option string }.

Definition version_eqb (v w : version) : bool :=
  match v, w with V4, V4 | V6, V6 => true | _, _ => false end.

(** [list(collapse_addresses(s))] on a set of network objects: networks
    of both families end in a [TypeError]; otherwise the aggregation of
    that family. *)
Definition collapse_ipnets (sorted : sort_fn) (l : list ipnet) : Exc (list ipnet) :=
  match l with
  | [] => Ok []
  | (v, _) :: _ =>
    if forallb (fun x : ipnet => version_eqb x.1 v) l then
      match collapse_addresses v sorted (map snd l) with
      | Some out => Ok (map (pair v) out)
      | None => Raise OutOfFuel
      end
    else Raise TypeError
  end.

(** [if len(x4) == 0 and len(x6) == 0: failed_providers.append(name)] *)
Definition record_failed (name : string) (r : prefix_sets) (failed_providers : list string)
  : list string :=
  match r with
  | ([], []) => failed_providers ++ [name]
  | _ => failed_providers
  end.

(** What [main] prints and writes: the failed providers and the two
    aggregated lists (before their conversion to strings). *)
Record run_report := {
  failed_providers : list string;
  ipv4nets : list ipnet;
  ipv6nets : list ipnet }.

(** [aws4.union(azure4, gcp4, ocean4, oracle4, linode4)] as the result
    set yields its items: it depends on the six sets (each given by the
    sequence of its insertions), their hashes and the history of the
    hash tables; it is a parameter here. *)
Definition set_union_order : Type := list (list ipnet) -> list ipnet.

Definition main (sorted : sort_fn) (union : set_union_order) (e : env) : Exc run_report :=
  aws ← fetch_aws_ip_ranges (aws_get e);
  let failed := record_failed "AWS" aws [] in
  azure ← fetch_azure_ip_ranges (azure_page_get e) (azure_json_get e);
  let failed := record_failed "Azure" azure failed in
  gcp ← fetch_gcp_ip_ranges (gcp_get e);
  let failed := record_failed "GCP" gcp failed in
  ocean ← fetch_digital_ocean_ip_ranges (ocean_get e);
  let failed := record_failed "DigitalOcean" ocean failed in
  oracle ← fetch_oracle_ip_ranges (oracle_get e);
  let failed := record_failed "Oracle" oracle failed in
  linode ← linode_ip_ranges (linode_get e);
  let failed := record_failed "Linode" linode failed in
  let ipv4p := union [aws.1; azure.1; gcp.1; ocean.1; oracle.1; linode.1] in
  let ipv6p := union [aws.2; azure.2; gcp.2; ocean.2; oracle.2; linode.2] in
  ipv4nets ← collapse_ipnets sorted ipv4p;
  ipv6nets ← collapse_ipnets sorted ipv6p;
  mret {| failed_providers := failed; ipv4nets := ipv4nets; ipv6nets := ipv6nets |}.

(** The providers, the name [main] reports for each, its fetch, and
    whether that fetch failed: its [retry_request] (for Azure, either of
    its two) raised after all retries. *)
Inductive provider := AWS | Azure | GCP | DigitalOcean | Oracle | Linode.

Definition provider_name (p : provider) : string :=
  match p with
  | AWS => "AWS" | Azure => "Azure" | GCP => "GCP"
  | DigitalOcean => "DigitalOcean" | Oracle => "Oracle" | Linode => "Linode"
  end.

Definition fetch_result (e : env) (p : provider) : Exc prefix_sets :=
  match p with
  | AWS => fetch_aws_ip_ranges (aws_get e)
  | Azure => fetch_azure_ip_ranges (azure_page_get e) (azure_json_get e)
  | GCP => fetch_gcp_ip_ranges (gcp_get e)
  | DigitalOcean => fetch_digital_ocean_ip_ranges (ocean_get e)
  | Oracle => fetch_oracle_ip_ranges (oracle_get e)
  | Linode => linode_ip_ranges (linode_get e)
  end.

Definition request_failed {A} (get : nat -> option A) : Prop :=
  retry_request get = Raise RequestException.

Definition fetch_failed (e : env) (p : provider) : Prop :=
  match p with
  | AWS => request_failed (aws_get e)
  | Azure =>
    request_failed (azure_page_get e) \/
    exists page url, retry_request (azure_page_get e) = Ok page /\
      azure_json_url page = Some url /\ request_failed (azure_json_get e url)
  | GCP => request_failed (gcp_get e)
  | DigitalOcean => request_failed (ocean_get e)
  | Oracle => request_failed (oracle_get e)
  | Linode => request_failed (linode_get e)
  end.

(** ** Concrete inputs *)

(** The dotted quad [a.b.c.d] as an integer. *)
Definition ip4 (a b c d : Z) : Z := ((a * 256 + b) * 256 + c) * 256 + d.

(** Scenario 4 of the specification and its expected aggregation. *)
Definition scenario4 : list network :=
  [mknet (ip4 10 0 0 0) 24; mknet (ip4 10 0 1 0) 24; mknet (ip4 10 0 3 0) 24].

Definition scenario4_out : list network :=
  [mknet (ip4 10 0 0 0) 23; mknet (ip4 10 0 3 0) 24].

(** Networks and single addresses that overlap and touch. *)
Definition sample_nets : list network :=
  scenario4 ++ [mknet (ip4 10 0 2 6) 32; mknet (ip4 10 0 2 7) 32; mknet (ip4 10 0 0 0) 22].

(** [fe80::] as an integer. *)
Definition fe80 : Z := 0xfe80 * 2 ^ 112.

(** [ip_network('fe80::/64')], [ip_network('fe80::/65')] and
    [ip_network('fe80::%eth0/64')]: link-local networks, the last one
    with a scope id. *)
Definition ll64 : pynet := (mknet fe80 64, None).
Definition ll65 : pynet := (mknet fe80 65, None).
Definition ll64_eth0 : pynet := (mknet fe80 64, Some "eth0"%string).

Definition newline : string := String "010"%char EmptyString.

Definition no_response {A} : nat -> option A := fun _ => None.

(** Provider documents with one malformed prefix string before a good one. *)
Definition aws_doc_malformed : json :=
  JObj [("prefixes", JArr [JObj [("ip_prefix", JStr "bogus")];
                           JObj [("ip_prefix", JStr "10.0.0.0/8")]])]%string.

Definition gcp_doc_malformed : json :=
  JObj [("prefixes", JArr [JObj [("ipv4Prefix", JStr "bogus")];
                           JObj [("ipv4Prefix", JStr "10.0.0.0/8")]])]%string.

Definition ocean_text_malformed : string :=
  ("bogus" ++ newline ++ "10.0.0.0/8,US")%string.

Definition env_malformed_aws : env := {|
  aws_get := fun _ => Some (Some aws_doc_malformed);
  azure_page_get := no_response; azure_json_get := fun _ => no_response;
  gcp_get := no_response; ocean_get := no_response;
  oracle_get := no_response; linode_get := no_response |}.

(** A run in which GCP answers at once with a document without prefixes. *)
Definition env_empty_gcp : env := {|
  aws_get := no_response;
  azure_page_get := no_response; azure_json_get := fun _ => no_response;
  gcp_get := fun _ => Some (Some (JObj [("prefixes", JArr [])]%string));
  ocean_get := no_response; oracle_get := no_response; linode_get := no_response |}.

(** A Linode feed: a comment, an address with host bits, an IPv6 prefix
    with host bits. *)
Definition linode_sample : string :=
  ("# comment" ++ newline ++ "10.0.0.1/24,US" ++ newline ++ "2001:db8::1/32")%string.

(** A run in which DigitalOcean (one malformed line) and Linode answer at
    once, the other providers not at all. *)
Definition env_sample : env := {|
  aws_get := no_response;
  azure_page_get := no_response; azure_json_get := fun _ => no_response;
  gcp_get := no_response; ocean_get := fun _ => Some ocean_text_malformed;
  oracle_get := no_response; linode_get := fun _ => Some linode_sample |}.

(** A run in which DigitalOcean lists [fe80::/64] and Linode
    [fe80::%eth0/64], the other providers not answering. *)
Definition env_scoped : env := {|
  aws_get := no_response;
  azure_page_get := no_response; azure_json_get := fun _ => no_response;
  gcp_get := no_response; ocean_get := fun _ => Some "fe80::/64,ZZ"%string;
  oracle_get := no_response; linode_get := fun _ => Some "fe80::%eth0/64,ZZ"%string |}.

(** ** What [retry_request] does between attempts *)

Definition RETRY_BACKOFF_BASE : Z := 2.

(** The observable steps of [retry_request]: a [requests.get] at an
    attempt, and a [time.sleep] of some seconds (printing is left out). *)
Inductive retry_event := Get (attempt : nat) | Sleep (seconds : Z).

(** The loop of [retry_request] with its steps: after a failed attempt
    it sleeps [RETRY_BACKOFF_BASE ** attempt] seconds unless it was the
    last one. *)
Fixpoint retry_trace_loop {A} (get : nat -> option A) (attempt remaining : nat)
  : Exc A * list retry_event :=
  match remaining with
  | O => (Raise RequestException, [])
  | S r =>
    match get attempt with
    | Some response => (Ok response, [Get attempt])
    | None =>
      let '(res, tr) := retry_trace_loop get (S attempt) r in
      (res, Get attempt ::
              (if (attempt <? MAX_RETRIES - 1)%nat
               then Sleep (RETRY_BACKOFF_BASE ^ Z.of_nat attempt) :: tr else tr))
    end
  end.

Definition retry_request_trace {A} (get : nat -> option A) : Exc A * list retry_event :=
  retry_trace_loop get 0 MAX_RETRIES.

(** ** [str] of an IPv4 network, as [main] writes it *)

Fixpoint format_dec_acc (fuel : nat) (v : Z) (acc : string) : string :=
  match fuel with
  | O => acc
  | S f =>
    if v =? 0 then acc
    else format_dec_acc f (v / 10) (String (ascii_of_nat (Z.to_nat (48 + v mod 10))) acc)
  end.

(** [str(v)] for [v >= 0]: its decimal digits ([v] has at most
    [log2 v + 1] of them). *)
Definition str_int (v : Z) : string :=
  if v =? 0 then "0"%string else format_dec_acc (S (Z.to_nat (Z.log2 v))) v EmptyString.

(** [ip_int.to_bytes(4, 'big')] *)
Definition to_bytes4 (ip_int : Z) : list Z :=
  map (fun k => Z.land (Z.shiftr ip_int (8 * k)) 255) [3; 2; 1; 0].

(** [_BaseV4._string_from_ip_int]: ['.'.join(map(str, ...))] *)
Definition string_from_ip_int4 (ip_int : Z) : string :=
  String.concat "." (map str_int (to_bytes4 ip_int)).

(** [_BaseNetwork.__str__]: ['%s/%d' % (network_address, prefixlen)] *)
Definition network_str4 (n : network) : string :=
  (string_from_ip_int4 (network_address n) ++ "/" ++ str_int (prefixlen n))%string.

(** ** Properties stated below *)

(** [lt] is a strict weak order on the items of [l]: irreflexive,
    transitive, and incomparability is transitive. *)
Definition strict_weak_on {A} (lt : A -> A -> bool) (l : list A) : Prop :=
  forall x y z, In x l -> In y l -> In z l ->
    lt x x = false /\ (lt x y = true -> lt y z = true -> lt x z = true) /\
    (lt x z = true -> lt x y = true \/ lt y z = true).

(** What [sorted] guarantees: it returns a permutation of the items ... *)
Definition sort_permutes (sorted : sort_fn) : Prop :=
  forall A lt (l : list A), sorted A lt l ≡ₚ l.

(** ... and when [__lt__] is a strict weak order on the items, no item
    is less than the item before it. *)
Definition sort_orders (sorted : sort_fn) : Prop :=
  forall A lt (l : list A), strict_weak_on lt l ->
    Sorted (fun x y => lt y x = false) (sorted A lt l).

(** Every exception [m] may raise is a [ValueError]. *)
Definition vraise {A} (m : Exc A) : Prop :=
  forall e, m = Raise e -> is_value_error e = true.

(** [m] raises no [RequestException]. *)
Definition noreq {A} (m : Exc A) : Prop :=
  forall e, m = Raise e -> e <> RequestException.

(** [x] is the network of a line of [lines] that does not start with
    ["#"], its first field parsed with [strict=False]. *)
Definition linode_record (lines : list string) (x : ipnet) : Prop :=
  exists line, In line lines /\ startswith "#" line = false /\
    ip_network (first_field line) false = Ok x.

(** The networks the strings of [l] parse to, in order; the strings that
    raise are left out. *)
Definition parsed (strict : bool) (l : list string) : list ipnet :=
  omap (fun p => match ip_network p strict with Ok x => Some x | Raise _ => None end) l.

(** The networks of family [v], in order. *)
Definition of_family (v : version) (l : list ipnet) : list ipnet :=
  List.filter (fun x : ipnet => version_eqb x.1 v) l.

(** [not line.startswith("#")] *)
Definition not_comment (line : string) : bool := negb (startswith "#" line).

(** A line with no line boundary in it. *)
Definition no_breaks (l : string) : Prop :=
  Forall (fun c => is_line_break c = false) (list_ascii_of_string l).

(** Text made of [ls], each line followed by a newline. *)
Definition unlines (ls : list string) : string :=
  foldr (fun l acc => l ++ String "010" acc)%string EmptyString ls.

(** The blocks of a list of network objects with their family. *)
Definition blocks (l : list ipnet) : list network := map (fun x : ipnet => x.2.1) l.

(** [out] is the aggregation of [l]: one family [v] throughout, sorted
    canonical networks without scope id covering the addresses [l]
    covers. *)
Definition aggregates (l out : list ipnet) : Prop :=
  exists v, (forall x, In x l -> x.1 = v) /\ (forall x, In x out -> x.1 = v /\ x.2.2 = None) /\
    canonical v (blocks out) /\ StronglySorted (before v) (blocks out) /\
    forall a, 0 <= a <= ALL_ONES v -> covers v (blocks out) a <-> covers v (blocks l) a.

(** Every result [m] may return satisfies [P]. *)
Definition post {A} (P : A -> Prop) (m : Exc A) : Prop :=
  forall a, m = Ok a -> P a.

(** A well-formed network object of its family. *)
Definition net_ok (x : ipnet) : Prop := valid_net x.1 x.2.1.

(** Two sets of well-formed network objects. *)
Definition nets_ok (r : prefix_sets) : Prop :=
  forall x, In x r.1 \/ In x r.2 -> net_ok x.

(** ... the first of IPv4 networks, the second of IPv6 networks. *)
Definition sets_ok (r : prefix_sets) : Prop :=
  nets_ok r /\ (forall x, In x r.1 -> x.1 = V4) /\ (forall x, In x r.2 -> x.1 = V6).

(** ** Bit-level facts about network objects *)

Section Bits.
Variable fam : version.
Local Abbreviation W := (max_prefixlen fam).
Local Abbreviation ONES := (ALL_ONES fam).

Lemma W_pos : 0 < W.
Proof. destruct fam; simpl; lia. Qed.

Lemma ONES_ones : ONES = Z.ones W.
Proof. unfold ALL_ONES. rewrite Z.ones_equiv. lia. Qed.

Lemma ONES_pow : ONES + 1 = 2 ^ W.
Proof. unfold ALL_ONES. lia. Qed.

Lemma ip_int_from_prefix_shape l :
  0 <= l <= W -> ip_int_from_prefix fam l = Z.shiftl (Z.ones l) (W - l).
Proof.
  intros Hl. unfold ip_int_from_prefix. rewrite ONES_ones.
  apply Z.bits_inj'. intros i Hi.
  rewrite Z.lxor_spec, Z.shiftr_spec, !Z.testbit_ones_nonneg by lia.
  destruct (Z.lt_ge_cases i (W - l)).
  - rewrite Z.shiftl_spec_low by lia.
    destruct (Z.ltb_spec i W), (Z.ltb_spec (i + l) W); simpl; lia.
  - rewrite Z.shiftl_spec_high by lia. rewrite Z.testbit_ones_nonneg by lia.
    destruct (Z.ltb_spec i W), (Z.ltb_spec (i + l) W),
      (Z.ltb_spec (i - (W - l)) l); simpl; lia.
Qed.

Lemma testbit_high x i : 0 <= x <= ONES -> W <= i -> Z.testbit x i = false.
Proof.
  intros Hx Hi. destruct (Z.eq_dec x 0) as [->|Hx0]; [apply Z.testbit_0_l|].
  apply Z.bits_above_log2; [lia|].
  assert (Z.log2 x < W); [|lia].
  apply Z.log2_lt_pow2; [lia|]. pose proof ONES_pow. lia.
Qed.

(** Masking an address with the netmask of a prefix length keeps its
    [prefixlen] leading bits. *)
Lemma land_netmask x l :
  0 <= x <= ONES -> 0 <= l <= W ->
  Z.land x (ip_int_from_prefix fam l) = Z.shiftl (Z.shiftr x (W - l)) (W - l).
Proof.
  intros Hx Hl. rewrite ip_int_from_prefix_shape by lia.
  apply Z.bits_inj'. intros i Hi. rewrite Z.land_spec.
  destruct (Z.lt_ge_cases i (W - l)).
  - rewrite !Z.shiftl_spec_low by lia. apply andb_false_r.
  - rewrite !Z.shiftl_spec_high by lia.
    rewrite Z.shiftr_spec, Z.testbit_ones_nonneg by lia.
    replace (i - (W - l) + (W - l)) with i by lia.
    destruct (Z.ltb_spec (i - (W - l)) l); [apply andb_true_r|].
    rewrite andb_false_r. symmetry. apply testbit_high; lia.
Qed.

Lemma shiftl_shiftr_eq x k :
  0 <= k -> Z.shiftl (Z.shiftr x k) k = x - x mod 2 ^ k.
Proof.
  intros Hk. rewrite Z.shiftl_mul_pow2, Z.shiftr_div_pow2 by lia.
  pose proof (Z.div_mod x (2 ^ k)). assert (2 ^ k <> 0) by (apply Z.pow_nonzero; lia).
  lia.
Qed.

Lemma hostmask_shape l :
  0 <= l <= W -> Z.lxor (ip_int_from_prefix fam l) ONES = Z.ones (W - l).
Proof.
  intros Hl. rewrite ip_int_from_prefix_shape, ONES_ones by lia.
  apply Z.bits_inj'. intros i Hi.
  rewrite Z.lxor_spec, !Z.testbit_ones_nonneg by lia.
  destruct (Z.lt_ge_cases i (W - l)).
  - rewrite Z.shiftl_spec_low by lia.
    destruct (Z.ltb_spec i W), (Z.ltb_spec i (W - l)); simpl; lia.
  - rewrite Z.shiftl_spec_high, Z.testbit_ones_nonneg by lia.
    destruct (Z.ltb_spec i W), (Z.ltb_spec i (W - l)),
      (Z.ltb_spec (i - (W - l)) l); simpl; lia.
Qed.

End Bits.

(** ** Networks as blocks: prefix length and leading bits *)

Section Blocks.
Variable fam : version.
Local Abbreviation W := (max_prefixlen fam).
Local Abbreviation ONES := (ALL_ONES fam).
Local Abbreviation valid := (valid_net fam).
Local Abbreviation mem x n := (addr_in_net fam x n = true).
Local Abbreviation key := (key fam).
Local Abbreviation sub := (sub fam).

Lemma pow_pos_helper k : 0 <= k -> 0 < 2 ^ k.
Proof. intros. apply Z.pow_pos_nonneg; lia. Qed.

Lemma div_pow_eq x q k :
  0 <= k -> (x / 2 ^ k = q <-> q * 2 ^ k <= x < q * 2 ^ k + 2 ^ k).
Proof.
  intros Hk. pose proof (pow_pos_helper k Hk). split.
  - intros <-. pose proof (Z.div_mod x (2 ^ k)).
    pose proof (Z.mod_pos_bound x (2 ^ k)). lia.
  - intros Hq. symmetry. apply (Z.div_unique_pos x (2 ^ k) q (x - q * 2 ^ k)); lia.
Qed.

Lemma valid_aligned n :
  valid n -> network_address n = Z.shiftl (key n) (W - prefixlen n).
Proof.
  intros (Hl & Ha & Hm). unfold netmask in Hm. unfold key.
  rewrite land_netmask in Hm by lia. congruence.
Qed.

Lemma valid_addr_eq n :
  valid n -> network_address n = key n * 2 ^ (W - prefixlen n).
Proof.
  intros Hv. rewrite (valid_aligned n Hv) at 1.
  destruct Hv as (Hl & _). apply Z.shiftl_mul_pow2. lia.
Qed.

Lemma key_div n :
  valid n -> key n = network_address n / 2 ^ (W - prefixlen n).
Proof. intros (Hl & _). unfold key. apply Z.shiftr_div_pow2. lia. Qed.

Lemma key_bound n : valid n -> 0 <= key n < 2 ^ prefixlen n.
Proof.
  intros Hv. rewrite key_div by done. destruct Hv as (Hl & Ha & _).
  pose proof (pow_pos_helper (W - prefixlen n) ltac:(lia)).
  pose proof ONES_pow fam.
  assert (2 ^ W = 2 ^ prefixlen n * 2 ^ (W - prefixlen n)).
  { rewrite <- Z.pow_add_r by lia. f_equal. lia. }
  split; [apply Z.div_pos; lia|]. apply Z.div_lt_upper_bound; lia.
Qed.

Lemma mem_key n x :
  valid n -> 0 <= x <= ONES ->
  (mem x n <-> Z.shiftr x (W - prefixlen n) = key n).
Proof.
  intros Hv Hx. pose proof Hv as (Hl & _).
  unfold addr_in_net, netmask. rewrite Z.eqb_eq, land_netmask by lia.
  rewrite (valid_aligned n Hv).
  rewrite !Z.shiftl_mul_pow2 by lia.
  pose proof (pow_pos_helper (W - prefixlen n) ltac:(lia)). split.
  - intros Heq. apply Z.mul_cancel_r in Heq; lia.
  - intros ->. reflexivity.
Qed.

Lemma mem_interval n x :
  valid n -> 0 <= x <= ONES ->
  (mem x n <-> network_address n <= x <= network_address n + 2 ^ (W - prefixlen n) - 1).
Proof.
  intros Hv Hx. rewrite mem_key by done.
  rewrite (valid_addr_eq n Hv). pose proof Hv as (Hl & _).
  rewrite Z.shiftr_div_pow2 by lia. rewrite div_pow_eq by lia. lia.
Qed.

Lemma broadcast_eq n :
  valid n -> broadcast_address fam n = network_address n + 2 ^ (W - prefixlen n) - 1.
Proof.
  intros Hv. pose proof Hv as (Hl & _).
  unfold broadcast_address, hostmask, netmask. rewrite hostmask_shape by lia.
  rewrite <- Z.lxor_lor.
  - rewrite <- Z.add_nocarry_lxor.
    + rewrite Z.ones_equiv. lia.
    + rewrite (valid_aligned n Hv). apply Z.bits_inj'. intros i Hi.
      rewrite Z.land_spec, Z.bits_0.
      destruct (Z.lt_ge_cases i (W - prefixlen n)).
      * rewrite Z.shiftl_spec_low by lia. reflexivity.
      * rewrite Z.testbit_ones_nonneg by lia.
        destruct (Z.ltb_spec i (W - prefixlen n)); [lia|apply andb_false_r].
  - rewrite (valid_aligned n Hv). apply Z.bits_inj'. intros i Hi.
    rewrite Z.land_spec, Z.bits_0.
    destruct (Z.lt_ge_cases i (W - prefixlen n)).
    + rewrite Z.shiftl_spec_low by lia. reflexivity.
    + rewrite Z.testbit_ones_nonneg by lia.
      destruct (Z.ltb_spec i (W - prefixlen n)); [lia|apply andb_false_r].
Qed.

Lemma pow_split l :
  0 <= l <= W -> 2 ^ W = 2 ^ l * 2 ^ (W - l).
Proof. intros. rewrite <- Z.pow_add_r by lia. f_equal. lia. Qed.

Lemma net_ext n m :
  valid n -> valid m -> prefixlen n = prefixlen m -> key n = key m -> n = m.
Proof.
  intros Hn Hm Hl Hk. pose proof (valid_addr_eq n Hn). pose proof (valid_addr_eq m Hm).
  destruct n as [a l], m as [b l']; simpl in *. subst l'. f_equal. congruence.
Qed.

Lemma block_valid l p :
  0 <= l <= W -> 0 <= p < 2 ^ l ->
  valid (mknet (p * 2 ^ (W - l)) l) /\ key (mknet (p * 2 ^ (W - l)) l) = p.
Proof.
  intros Hl Hp. pose proof (pow_pos_helper (W - l) ltac:(lia)).
  pose proof (pow_split l Hl). pose proof (ONES_pow fam).
  assert (Hk : key (mknet (p * 2 ^ (W - l)) l) = p).
  { unfold key; simpl. rewrite Z.shiftr_div_pow2 by lia. apply Z.div_mul. lia. }
  split; [|exact Hk]. split; [simpl; lia|]. split; [simpl; nia|].
  unfold netmask; simpl. rewrite land_netmask by (simpl; nia).
  rewrite Z.shiftr_div_pow2, Z.div_mul, Z.shiftl_mul_pow2 by lia. reflexivity.
Qed.

Lemma land_shiftl_ones x l j :
  0 <= x <= ONES -> 0 <= j -> 0 <= l -> W <= j + l ->
  Z.land x (Z.shiftl (Z.ones l) j) = Z.shiftl (Z.shiftr x j) j.
Proof.
  intros Hx Hj Hl Hjl. apply Z.bits_inj'. intros i Hi. rewrite Z.land_spec.
  destruct (Z.lt_ge_cases i j).
  - rewrite !Z.shiftl_spec_low by lia. apply andb_false_r.
  - rewrite !Z.shiftl_spec_high by lia.
    rewrite Z.shiftr_spec, Z.testbit_ones_nonneg by lia.
    replace (i - j + j) with i by lia.
    destruct (Z.ltb_spec (i - j) l); [apply andb_true_r|].
    rewrite andb_false_r. symmetry. apply (testbit_high fam); lia.
Qed.

Lemma supernet_shape n :
  valid n -> 1 <= prefixlen n ->
  supernet fam n = mknet (key n / 2 * 2 ^ (W - (prefixlen n - 1))) (prefixlen n - 1).
Proof.
  intros Hv H1. pose proof Hv as (Hl & Ha & _). unfold supernet.
  destruct (Z.eqb_spec (prefixlen n) 0); [lia|]. f_equal.
  unfold netmask. rewrite ip_int_from_prefix_shape, Z.shiftl_shiftl by lia.
  rewrite land_shiftl_ones by lia.
  rewrite Z.shiftl_mul_pow2, Z.shiftr_div_pow2 by lia.
  rewrite key_div by done. rewrite Z.div_div by (try apply pow_pos_helper; lia).
  assert (E : 2 ^ (W - (prefixlen n - 1)) = 2 ^ (W - prefixlen n) * 2).
  { replace (W - (prefixlen n - 1)) with (Z.succ (W - prefixlen n)) by lia.
    rewrite Z.pow_succ_r by lia. lia. }
  replace (W - prefixlen n + 1) with (W - (prefixlen n - 1)) by lia.
  rewrite E. reflexivity.
Qed.

Lemma supernet_facts n :
  valid n -> 1 <= prefixlen n ->
  valid (supernet fam n) /\ prefixlen (supernet fam n) = prefixlen n - 1 /\
  key (supernet fam n) = key n / 2.
Proof.
  intros Hv H1. rewrite supernet_shape by done.
  pose proof (key_bound n Hv). pose proof Hv as (Hl & _).
  assert (Hp : 0 <= key n / 2 < 2 ^ (prefixlen n - 1)).
  { split; [apply Z.div_pos; lia|]. apply Z.div_lt_upper_bound; [lia|].
    rewrite <- Z.pow_succ_r by lia. replace (Z.succ (prefixlen n - 1)) with (prefixlen n) by lia.
    lia. }
  destruct (block_valid (prefixlen n - 1) (key n / 2)) as [Hb Hk]; [lia|done|].
  split; [exact Hb|]. split; [reflexivity|exact Hk].
Qed.

Lemma supernet_valid n : valid n -> valid (supernet fam n).
Proof.
  intros Hv. destruct (Z.eq_dec (prefixlen n) 0) as [H0|H0].
  - unfold supernet. rewrite H0. exact Hv.
  - apply supernet_facts; [done|]. destruct Hv; lia.
Qed.

Lemma supernet_zero n : prefixlen n = 0 -> supernet fam n = n.
Proof. intros H. unfold supernet. rewrite H. reflexivity. Qed.

Lemma sub_refl n : sub n n.
Proof. split; [lia|]. rewrite Z.sub_diag. apply Z.shiftr_0_r. Qed.

Lemma sub_trans a b c : sub a b -> sub b c -> sub a c.
Proof.
  intros [H1 H2] [H3 H4]. split; [lia|].
  rewrite <- H4, <- H2, Z.shiftr_shiftr by lia. f_equal. lia.
Qed.

Lemma sub_supernet n : valid n -> sub n (supernet fam n).
Proof.
  intros Hv. destruct (Z.eq_dec (prefixlen n) 0) as [H0|H0].
  - rewrite supernet_zero by done. apply sub_refl.
  - destruct (supernet_facts n) as (_ & Hl & Hk); [done|destruct Hv; lia|].
    split; [lia|]. rewrite Hl, Hk. replace (prefixlen n - (prefixlen n - 1)) with 1 by lia.
    apply Z.shiftr_div_pow2. lia.
Qed.

Lemma sub_mem n m x :
  valid n -> valid m -> sub n m -> 0 <= x <= ONES -> mem x n -> mem x m.
Proof.
  intros Hn Hm [Hl Hk] Hx. rewrite !mem_key by done. intros Hxn.
  pose proof Hm as (Hlm & _).
  rewrite <- Hk, <- Hxn, Z.shiftr_shiftr by lia. f_equal. lia.
Qed.

Lemma mem_sub n m x :
  valid n -> valid m -> 0 <= x <= ONES -> mem x n -> mem x m ->
  prefixlen m <= prefixlen n -> sub n m.
Proof.
  intros Hn Hm Hx. rewrite !mem_key by done. intros Hxn Hxm Hl.
  pose proof Hn as (Hln & _). split; [done|].
  rewrite <- Hxm, <- Hxn, Z.shiftr_shiftr by lia. f_equal. lia.
Qed.

Lemma sub_same_len n m : valid n -> valid m -> sub n m -> prefixlen n = prefixlen m -> n = m.
Proof.
  intros Hn Hm [_ Hk] Hl. apply net_ext; [done..|].
  rewrite <- Hk, Hl, Z.sub_diag. symmetry. apply Z.shiftr_0_r.
Qed.

Lemma top_le n : valid n -> network_address n + 2 ^ (W - prefixlen n) - 1 <= ONES.
Proof.
  intros Hv. rewrite (valid_addr_eq n Hv). pose proof (key_bound n Hv).
  pose proof Hv as (Hl & _). pose proof (pow_split _ Hl). pose proof (ONES_pow fam).
  pose proof (pow_pos_helper (W - prefixlen n) ltac:(lia)). nia.
Qed.

Lemma mem_addr n : valid n -> mem (network_address n) n.
Proof.
  intros Hv. pose proof Hv as (Hl & Ha & _). pose proof (pow_pos_helper (W - prefixlen n) ltac:(lia)).
  rewrite mem_interval by (try done; lia). lia.
Qed.

Lemma sub_interval n m :
  valid n -> valid m -> sub n m ->
  network_address m <= network_address n /\
  network_address n + 2 ^ (W - prefixlen n) <= network_address m + 2 ^ (W - prefixlen m).
Proof.
  intros Hn Hm Hs. pose proof Hn as (Hln & Han & _).
  pose proof (pow_pos_helper (W - prefixlen n) ltac:(lia)). pose proof (top_le n Hn).
  assert (H1 : mem (network_address n) m).
  { apply (sub_mem n m); [done..|lia|apply mem_addr; done]. }
  assert (H2 : mem (network_address n + 2 ^ (W - prefixlen n) - 1) m).
  { apply (sub_mem n m); [done..|lia|]. rewrite mem_interval by (try done; lia). lia. }
  rewrite mem_interval in H1, H2 by (try done; lia). lia.
Qed.

Lemma supernet_split e n x :
  valid e -> valid n -> supernet fam e = supernet fam n -> e <> n ->
  0 <= x <= ONES -> mem x (supernet fam n) -> mem x e \/ mem x n.
Proof.
  intros He Hn Hs Hne Hx Hmem.
  destruct (Z.eq_dec (prefixlen n) 0) as [Hn0|Hn0].
  { rewrite supernet_zero in Hmem by done. by right. }
  destruct (Z.eq_dec (prefixlen e) 0) as [He0|He0].
  { rewrite <- Hs, supernet_zero in Hmem by done. by left. }
  destruct (supernet_facts e) as (_ & Hle & Hke); [done|destruct He; lia|].
  destruct (supernet_facts n) as (Hsv & Hln & Hkn); [done|destruct Hn; lia|].
  rewrite Hs in Hle, Hke. assert (Hl : prefixlen e = prefixlen n) by lia.
  assert (Hk : key e <> key n) by (intros ?; apply Hne, net_ext; done).
  rewrite mem_key in Hmem by done. rewrite Hln, Hkn in Hmem.
  pose proof Hn as (Hlr & _).
  replace (W - (prefixlen n - 1)) with ((W - prefixlen n) + 1) in Hmem by lia.
  rewrite <- Z.shiftr_shiftr, Z.shiftr_div_pow2 in Hmem by lia.
  rewrite !mem_key by done. rewrite Hl.
  set (y := Z.shiftr x (W - prefixlen n)) in *.
  pose proof (Z.div_mod y 2 ltac:(lia)). pose proof (Z.mod_pos_bound y 2 ltac:(lia)).
  pose proof (Z.div_mod (key e) 2 ltac:(lia)). pose proof (Z.mod_pos_bound (key e) 2 ltac:(lia)).
  pose proof (Z.div_mod (key n) 2 ltac:(lia)). pose proof (Z.mod_pos_bound (key n) 2 ltac:(lia)).
  rewrite Z.pow_1_r in Hmem. lia.
Qed.

End Blocks.

(** ** Sibling-free disjoint covers are unique *)

Section Canonical.
Variable fam : version.
Local Abbreviation W := (max_prefixlen fam).
Local Abbreviation ONES := (ALL_ONES fam).
Local Abbreviation valid := (valid_net fam).
Local Abbreviation mem x n := (addr_in_net fam x n = true).
Local Abbreviation key := (key fam).
Local Abbreviation sub := (sub fam).
Local Abbreviation canonical := (canonical fam).

Lemma sub_chain x y z : sub x y -> sub x z -> prefixlen z <= prefixlen y -> sub y z.
Proof.
  intros [H1 H2] [H3 H4] H5. split; [done|].
  rewrite <- H4, <- H2, Z.shiftr_shiftr by lia. f_equal. lia.
Qed.

Lemma sub_len x y : sub x y -> prefixlen y <= prefixlen x.
Proof. by intros []. Qed.

(** The two halves of a block that is not a single address. *)
Lemma halves b :
  valid b -> prefixlen b < W ->
  exists h0 h1, valid h0 /\ valid h1 /\ sub h0 b /\ sub h1 b /\
    prefixlen h0 = prefixlen b + 1 /\ prefixlen h1 = prefixlen b + 1 /\
    h0 <> h1 /\ supernet fam h0 = b /\ supernet fam h1 = b.
Proof.
  intros Hb Hlt. pose proof (key_bound fam b Hb) as Hk. pose proof Hb as (Hl & _).
  assert (Hp : 2 ^ (prefixlen b + 1) = 2 * 2 ^ prefixlen b) by (rewrite Z.pow_add_r; lia).
  destruct (block_valid fam (prefixlen b + 1) (2 * key b)) as [V0 K0]; [lia|lia|].
  destruct (block_valid fam (prefixlen b + 1) (2 * key b + 1)) as [V1 K1]; [lia|lia|].
  set (h0 := mknet (2 * key b * 2 ^ (W - (prefixlen b + 1))) (prefixlen b + 1)) in *.
  set (h1 := mknet ((2 * key b + 1) * 2 ^ (W - (prefixlen b + 1))) (prefixlen b + 1)) in *.
  assert (S0 : sub h0 b).
  { split; [simpl; lia|]. rewrite K0. simpl. replace (prefixlen b + 1 - prefixlen b) with 1 by lia.
    rewrite Z.shiftr_div_pow2 by lia. rewrite Z.pow_1_r. rewrite Z.mul_comm. apply Z.div_mul. lia. }
  assert (S1 : sub h1 b).
  { split; [simpl; lia|]. rewrite K1. simpl. replace (prefixlen b + 1 - prefixlen b) with 1 by lia.
    rewrite Z.shiftr_div_pow2 by lia. rewrite Z.pow_1_r.
    symmetry. apply (Z.div_unique_pos _ _ _ 1); lia. }
  assert (P0 : supernet fam h0 = b).
  { destruct (supernet_facts fam h0) as (Vs & Ls & Ks); [done|simpl; lia|].
    apply (net_ext fam); [done..| simpl in *; lia |].
    rewrite Ks, K0, Z.mul_comm, Z.div_mul; lia. }
  assert (P1 : supernet fam h1 = b).
  { destruct (supernet_facts fam h1) as (Vs & Ls & Ks); [done|simpl; lia|].
    apply (net_ext fam); [done..| simpl in *; lia |].
    rewrite Ks, K1. symmetry. apply (Z.div_unique_pos _ _ _ 1); lia. }
  exists h0, h1. do 4 (split; [done|]). split; [reflexivity|]. split; [reflexivity|].
  split; [|done]. intros E. assert (key h0 = key h1) by (rewrite E; done). lia.
Qed.

Section Cover.
Variable A : list network.
Hypothesis HA : canonical A.

(** Every block whose addresses are all covered by [A] lies inside one
    block of [A]. *)
Lemma cover_block b :
  valid b -> (forall x, 0 <= x <= ONES -> mem x b -> covers fam A x) ->
  exists a, In a A /\ sub b a.
Proof.
  destruct HA as (HV & HD & HS).
  assert (Hind : forall d : nat, forall b, Z.of_nat d = W - prefixlen b -> valid b ->
    (forall x, 0 <= x <= ONES -> mem x b -> covers fam A x) ->
    exists a, In a A /\ sub b a).
  { induction d as [|d IH]; intros b0 Hd Hb Hc.
    - pose proof Hb as (Hl & Ha & _).
      destruct (Hc (network_address b0)) as (a & Ha' & Hm); [lia|apply mem_addr; done|].
      exists a. split; [done|]. apply (mem_sub fam b0 a (network_address b0)); auto.
      + apply mem_addr; done.
      + destruct (HV a Ha') as (Hla & _). lia.
    - destruct (halves b0) as (h0 & h1 & V0 & V1 & S0 & S1 & L0 & L1 & Hne & P0 & P1);
        [done|lia|].
      destruct (IH h0) as (a0 & I0 & T0); [lia|done|..].
      { intros x Hx Hm. apply Hc; [done|]. by apply (sub_mem fam h0 b0). }
      destruct (IH h1) as (a1 & I1 & T1); [lia|done|..].
      { intros x Hx Hm. apply Hc; [done|]. by apply (sub_mem fam h1 b0). }
      destruct (Z.le_gt_cases (prefixlen a0) (prefixlen b0)).
      { exists a0. split; [done|]. apply (sub_chain h0); [done..|lia]. }
      destruct (Z.le_gt_cases (prefixlen a1) (prefixlen b0)).
      { exists a1. split; [done|]. apply (sub_chain h1); [done..|lia]. }
      pose proof (sub_len _ _ T0). pose proof (sub_len _ _ T1).
      assert (E0 : h0 = a0) by (apply (sub_same_len fam); auto; lia).
      assert (E1 : h1 = a1) by (apply (sub_same_len fam); auto; lia).
      subst a0 a1. exfalso. apply (HS h0 h1); [done..|].
      repeat split; [done|lia|pose proof (proj1 Hb); lia|congruence]. }
  intros Hb Hc. pose proof Hb as (Hl & _). apply (Hind (Z.to_nat (W - prefixlen b))); auto. lia.
Qed.

(** The blocks of [A] are exactly the maximal blocks inside its cover. *)
Lemma canonical_mem n :
  valid n ->
  (In n A <->
   (forall x, 0 <= x <= ONES -> mem x n -> covers fam A x) /\
   (prefixlen n = 0 \/
    ~ (forall x, 0 <= x <= ONES -> mem x (supernet fam n) -> covers fam A x))).
Proof.
  intros Hn. pose proof HA as (HV & HD & HS). split.
  - intros Hin. split; [intros x _ Hm; by exists n|].
    destruct (Z.eq_dec (prefixlen n) 0) as [|H0]; [by left|right].
    intros Hc. destruct (cover_block (supernet fam n)) as (a & Ia & Ta);
      [by apply supernet_valid|done|].
    pose proof (sub_trans fam _ _ _ (sub_supernet fam n Hn) Ta) as Tn.
    destruct (supernet_facts fam n Hn) as (_ & Ls & _); [pose proof (proj1 Hn); lia|].
    pose proof (sub_len _ _ Ta).
    refine (HD n a Hin Ia _ (network_address n) _ (conj _ _)).
    + intros ->. lia.
    + exact (proj1 (proj2 Hn)).
    + apply mem_addr; done.
    + apply (sub_mem fam n a); auto; [exact (proj1 (proj2 Hn))|apply mem_addr; done].
  - intros [Hc Hmax]. destruct (cover_block n Hn Hc) as (a & Ia & Ta).
    pose proof (sub_len _ _ Ta).
    destruct (Z.eq_dec (prefixlen a) (prefixlen n)) as [E|E].
    { assert (n = a) as -> by (apply (sub_same_len fam); auto). done. }
    destruct Hmax as [H0|Hmax]; [pose proof (proj1 (HV a Ia)); lia|].
    exfalso. apply Hmax. intros x Hx Hm. exists a. split; [done|].
    pose proof (proj1 (HV a Ia)).
    destruct (supernet_facts fam n Hn) as (Vs & Ls & _); [lia|].
    apply (sub_mem fam (supernet fam n) a); auto.
    apply (sub_chain n); [by apply sub_supernet|done|lia].
Qed.

End Cover.

Lemma canonical_unique A B :
  canonical A -> canonical B ->
  (forall x, 0 <= x <= ONES -> covers fam A x <-> covers fam B x) ->
  forall n, In n A <-> In n B.
Proof.
  intros HA HB Hc.
  assert (Hdir : forall A B, canonical A -> canonical B ->
    (forall x, 0 <= x <= ONES -> covers fam A x <-> covers fam B x) ->
    forall n, In n A -> In n B).
  { clear. intros A B HA HB Hc n Hin.
    pose proof (proj1 HA n Hin) as Hn.
    apply (canonical_mem B HB n Hn). apply (canonical_mem A HA n Hn) in Hin.
    destruct Hin as [H1 H2]. split.
    - intros x Hx Hm. apply Hc; auto.
    - destruct H2 as [|H2]; [by left|right]. intros H3. apply H2.
      intros x Hx Hm. apply Hc; auto. }
  intros n. split; apply Hdir; auto. intros x Hx. symmetry. auto.
Qed.

End Canonical.

(** ** CPython's sort of short lists *)

Section Sorting.
Context {A : Type} (lt : A -> A -> bool).
Local Abbreviation R := (fun x y => lt y x = false).

Lemma insert_at_perm (i : nat) (p : A) (pre : list A) :
  firstn i pre ++ p :: skipn i pre ≡ₚ p :: pre.
Proof.
  transitivity (p :: firstn i pre ++ skipn i pre).
  - symmetry. apply Permutation_middle.
  - by rewrite take_drop.
Qed.

Lemma binarysort_perm pre rest : binarysort lt pre rest ≡ₚ pre ++ rest.
Proof.
  revert pre. induction rest as [|p rest IH]; intros pre; simpl.
  - by rewrite app_nil_r.
  - rewrite IH, insert_at_perm. apply Permutation_middle.
Qed.

Lemma list_sort_perm l : list_sort A lt l ≡ₚ l.
Proof.
  unfold list_sort. destruct l as [|x [|y l']]; [done|done|].
  destruct (count_run lt (x :: y :: l')) as [n desc].
  rewrite binarysort_perm.
  transitivity (firstn n (x :: y :: l') ++ skipn n (x :: y :: l')); [|by rewrite take_drop].
  f_equiv. destruct desc; [symmetry; apply Permutation_rev|done].
Qed.

Lemma Sorted_snoc (S : A -> A -> Prop) l a :
  Sorted S l -> (forall b, last l = Some b -> S b a) -> Sorted S (l ++ [a]).
Proof.
  induction 1 as [|b l Hs IH Hh]; intros Hl; simpl; [repeat constructor|].
  constructor.
  - apply IH. intros c Hc. apply Hl. destruct l; [done|]. exact Hc.
  - destruct l as [|c l]; simpl; constructor.
    + by apply Hl.
    + by inversion Hh.
Qed.

Lemma Sorted_rev (S : A -> A -> Prop) l :
  Sorted S l -> Sorted (fun x y => S y x) (rev l).
Proof.
  induction 1 as [|b l Hs IH Hh]; simpl; [constructor|].
  apply Sorted_snoc; [done|]. intros c Hc.
  destruct l as [|d l]; [done|]. simpl in Hc. rewrite last_snoc in Hc. injection Hc as <-.
  by inversion Hh.
Qed.

Lemma run_sorted desc prev l :
  Sorted (fun x y => lt y x = desc) (prev :: firstn (run_length lt desc prev l) l).
Proof.
  revert prev. induction l as [|x l IH]; intros prev; simpl; [repeat constructor|].
  destruct (Bool.eqb_spec (lt x prev) desc) as [E|E]; simpl.
  - constructor; [apply IH|by constructor].
  - repeat constructor.
Qed.

Lemma count_run_sorted l n desc :
  count_run lt l = (n, desc) ->
  Sorted (fun x y => lt y x = desc) (firstn n l).
Proof.
  unfold count_run. destruct l as [|x [|y l']].
  - intros [= <- _]. constructor.
  - intros [= <- _]. repeat constructor.
  - intros [= <- <-]. simpl. constructor; [apply run_sorted|by constructor].
Qed.

Lemma bisect_spec pivot pre fuel l r :
  (l <= r <= length pre)%nat -> (r - l < fuel)%nat ->
  (l = 0%nat \/ exists a, nth_error pre (l - 1) = Some a /\ lt pivot a = false) ->
  (r = length pre \/ exists a, nth_error pre r = Some a /\ lt pivot a = true) ->
  let i := bisect lt pivot pre fuel l r in
  (i <= length pre)%nat /\
  (i = 0%nat \/ exists a, nth_error pre (i - 1) = Some a /\ lt pivot a = false) /\
  (i = length pre \/ exists a, nth_error pre i = Some a /\ lt pivot a = true).
Proof.
  revert l r. induction fuel as [|f IH]; intros l r Hlr Hf Hl Hr; [lia|]. cbn [bisect].
  destruct (Nat.ltb_spec l r) as [Hlt|Hge].
  - assert (Hq : ((r - l) / 2 < r - l)%nat) by (apply Nat.div_lt; lia).
    set (q := ((r - l) / 2)%nat) in *.
    set (p := (l + q)%nat).
    assert (Hp : (l <= p < r)%nat) by (unfold p; lia).
    destruct (nth_error pre p) as [x|] eqn:Hx.
    2:{ apply nth_error_None in Hx. lia. }
    destruct (lt pivot x) eqn:Hpx.
    + apply IH; [lia|lia|done|]. right. eauto.
    + apply IH; [lia|lia| |done]. right. exists x. split; [|done].
      by replace (S p - 1)%nat with p by lia.
  - replace r with l in Hr by lia. split; [lia|]. split; done.
Qed.

Lemma Sorted_insert_at (S : A -> A -> Prop) pre i p :
  Sorted S pre -> (i <= length pre)%nat ->
  (i = 0%nat \/ exists a, nth_error pre (i - 1) = Some a /\ S a p) ->
  (i = length pre \/ exists a, nth_error pre i = Some a /\ S p a) ->
  Sorted S (firstn i pre ++ p :: skipn i pre).
Proof.
  revert i. induction pre as [|b pre IH]; intros i Hs Hi H1 H2.
  - simpl in Hi. replace i with 0%nat by lia. repeat constructor.
  - destruct i as [|j].
    + simpl. constructor; [done|]. constructor.
      destruct H2 as [H2|(a & Ha & Hpa)]; [simpl in H2; lia|]. simpl in Ha. by injection Ha as <-.
    + simpl. apply Sorted_inv in Hs as [Hs Hh]. simpl in Hi. constructor.
      * apply IH; [done|lia| |].
        -- destruct j as [|j']; [by left|right]. destruct H1 as [H1|(a & Ha & Hab)]; [lia|].
           exists a. split; [|done]. simpl in Ha. replace (Datatypes.S j' - 1)%nat with j' by lia. exact Ha.
        -- destruct H2 as [H2|(a & Ha & Hpa)]; [left; simpl in H2; lia|right; eauto].
      * destruct j as [|j']; simpl.
        -- constructor. destruct H1 as [H1|(a & Ha & Hab)]; [lia|]. simpl in Ha. by injection Ha as <-.
        -- destruct pre as [|c pre]; [simpl in Hi; lia|]. simpl. constructor. by inversion Hh.
Qed.

Lemma Sorted_impl_in (S S' : A -> A -> Prop) l :
  (forall a b, In a l -> In b l -> S a b -> S' a b) -> Sorted S l -> Sorted S' l.
Proof.
  intros Himp Hs. induction Hs as [|b l Hs IH Hh]; constructor.
  - apply IH. intros a c Ha Hc. apply Himp; right; done.
  - destruct Hh as [|c l' Hbc]; constructor. apply Himp; [left|right; left|]; done.
Qed.

Section Strict.
Variable l0 : list A.
Hypothesis Hasym : forall a b, In a l0 -> In b l0 -> lt a b = true -> lt b a = false.

Lemma binarysort_sorted pre rest :
  (forall x, In x (pre ++ rest) -> In x l0) ->
  Sorted R pre -> Sorted R (binarysort lt pre rest).
Proof.
  revert pre. induction rest as [|p rest IH]; intros pre Hin Hs; simpl; [done|].
  destruct (bisect_spec p pre (S (length pre)) 0 (length pre)) as (Hi & H1 & H2);
    [lia|lia|by left|by left|].
  set (i := bisect lt p pre (S (length pre)) 0 (length pre)) in *.
  assert (Hp : In p l0) by (apply Hin; rewrite in_app_iff; right; left; done).
  apply IH.
  - intros x Hx. apply Hin. rewrite in_app_iff in Hx |- *.
    destruct Hx as [Hx|Hx]; [|right; right; done].
    apply (Permutation_in _ (insert_at_perm _ p pre)) in Hx. destruct Hx as [<-|Hx]; [right; left; done|left; done].
  - apply Sorted_insert_at; [done|done| |].
    + destruct H1 as [H1|(a & Ha & Hpa)]; [by left|right; eauto].
    + destruct H2 as [H2|(a & Ha & Hpa)]; [by left|right; exists a; split; [done|]].
      apply Hasym; [exact Hp| |exact Hpa].
      apply Hin. rewrite in_app_iff. left. by apply nth_error_In in Ha.
Qed.

End Strict.

End Sorting.

Lemma list_sort_permutes : sort_permutes list_sort.
Proof. intros A lt l. apply list_sort_perm. Qed.

Lemma list_sort_orders : sort_orders list_sort.
Proof.
  intros A lt l Hw.
  assert (Hasym : forall a b, In a l -> In b l -> lt a b = true -> lt b a = false).
  { intros a b Ha Hb Hab. destruct (lt b a) eqn:Hba; [|done].
    destruct (Hw a b a Ha Hb Ha) as (Hirr & Htr & _). rewrite (Htr Hab Hba) in Hirr. discriminate. }
  unfold list_sort. destruct l as [|x [|y l']]; [constructor|repeat constructor|].
  destruct (count_run lt (x :: y :: l')) as [n desc] eqn:Hc.
  apply (binarysort_sorted lt (x :: y :: l')); [done| |].
  - intros z Hz. rewrite in_app_iff in Hz.
    rewrite <- (take_drop n (x :: y :: l')), in_app_iff.
    destruct Hz as [Hz|Hz]; [left|right; done]. destruct desc; [by apply in_rev|done].
  - pose proof (count_run_sorted lt _ _ _ Hc) as Hs. destruct desc.
    + apply Sorted_rev in Hs. revert Hs. apply Sorted_impl_in. intros a b Ha Hb Hab.
      apply in_rev in Ha, Hb. apply Hasym; [| |done];
        (rewrite <- (take_drop n (x :: y :: l')), in_app_iff; left; done).
    + done.
Qed.

(** ** The merging loop of [_collapse_addresses_internal] *)

Section MergeLoop.
Variable fam : version.
Local Abbreviation W := (max_prefixlen fam).
Local Abbreviation ONES := (ALL_ONES fam).
Local Abbreviation valid := (valid_net fam).
Local Abbreviation mem x n := (addr_in_net fam x n = true).
Local Abbreviation py_supernet := (py_supernet fam).
Local Abbreviation py_eqb := (py_eqb fam).
Local Abbreviation dict_get := (dict_get fam).
Local Abbreviation dict_set := (dict_set fam).
Local Abbreviation dict_del := (dict_del fam).

Lemma netmask_value l :
  0 <= l <= W -> ip_int_from_prefix fam l = 2 ^ W - 2 ^ (W - l).
Proof.
  intros Hl. rewrite ip_int_from_prefix_shape, Z.shiftl_mul_pow2, Z.ones_equiv by lia.
  rewrite (pow_split fam l Hl). lia.
Qed.

Lemma net_eqb_true n m : valid n -> valid m -> net_eqb fam n m = true -> n = m.
Proof.
  intros (Hn & _) (Hm & _) H. apply andb_true_iff in H as [Ha Hk].
  apply Z.eqb_eq in Ha, Hk. unfold netmask in Hk.
  rewrite !netmask_value in Hk by lia.
  assert (2 ^ (W - prefixlen n) = 2 ^ (W - prefixlen m)) as E by lia.
  apply Z.pow_inj_r in E; [|lia|lia|lia].
  destruct n, m; simpl in *. f_equal; lia.
Qed.

Lemma scope_eqb_refl s : scope_eqb s s = true.
Proof. destruct s; simpl; [apply String.eqb_refl|done]. Qed.

Lemma py_eqb_refl x : py_eqb x x = true.
Proof. unfold py_eqb, net_eqb. by rewrite !Z.eqb_refl, scope_eqb_refl. Qed.

(** On valid networks without scope id, [__eq__] is equality. *)
Lemma py_eqb_plain x y :
  valid x.1 -> valid y.1 -> x.2 = None -> y.2 = None -> py_eqb x y = true -> x = y.
Proof.
  destruct x as [n s], y as [m t]; simpl. intros Vn Vm -> -> H.
  apply andb_true_iff in H as [H _]. by rewrite (net_eqb_true n m Vn Vm H).
Qed.

Lemma py_supernet_plain x : x.2 = None -> py_supernet x = plain (supernet fam x.1).
Proof.
  destruct x as [n s]; simpl. intros ->. unfold py_supernet. simpl.
  destruct (Z.eqb_spec (prefixlen n) 0) as [E|E]; [|done].
  unfold plain. by rewrite supernet_zero.
Qed.

Lemma py_supernet_len x : (Z.to_nat (prefixlen (py_supernet x).1) <= Z.to_nat (prefixlen x.1))%nat.
Proof.
  unfold py_supernet. destruct (Z.eqb_spec (prefixlen x.1) 0) as [E|E]; [lia|].
  simpl. unfold supernet. apply Z.eqb_neq in E. rewrite E. simpl. lia.
Qed.

Lemma dict_get_split k D v : dict_get k D = Some v ->
  exists D1 k' D2, D = D1 ++ (k', v) :: D2 /\ py_eqb k' k = true /\ dict_del k D = D1 ++ D2.
Proof.
  induction D as [|[k' v'] D IH]; simpl; [done|].
  destruct (py_eqb k' k) eqn:E.
  - intros [= <-]. by exists [], k', D.
  - intros H. destruct (IH H) as (D1 & k'' & D2 & -> & Hk & Hd).
    exists ((k', v') :: D1), k'', D2. rewrite Hd. done.
Qed.

Lemma dict_get_none k D : dict_get k D = None ->
  forall k' v, In (k', v) D -> py_eqb k' k = false.
Proof.
  induction D as [|[k'' v'] D IH]; simpl; [done|].
  destruct (py_eqb k'' k) eqn:E; [discriminate|].
  intros H k' v [[= -> ->]|Hin]; [done|eauto].
Qed.

Lemma dict_set_none k v D : dict_get k D = None -> dict_set k v D = D ++ [(k, v)].
Proof.
  induction D as [|[k' v'] D IH]; simpl; [done|].
  destruct (py_eqb k' k); [discriminate|]. intros H. by rewrite IH.
Qed.

Lemma fuel_weight_app l1 l2 : fuel_weight (l1 ++ l2) = (fuel_weight l1 + fuel_weight l2)%nat.
Proof. induction l1; simpl; lia. Qed.

Lemma fuel_weight_rev l : fuel_weight (rev l) = fuel_weight l.
Proof. induction l; simpl; [done|]. rewrite fuel_weight_app. simpl. lia. Qed.

(** The loop ends within its bound, whatever the networks. *)
Lemma merge_loop_some fuel T D :
  (fuel_weight T + length D < fuel)%nat -> exists D', merge_loop fam fuel T D = Some D'.
Proof.
  revert T D. induction fuel as [|fuel IH]; intros T D Hf; [lia|].
  destruct T as [|net rest]; [by eexists|]. cbn [merge_loop].
  destruct (dict_get (py_supernet net) D) as [e|] eqn:Hg.
  - destruct (negb (py_eqb e net)); apply IH.
    + destruct (dict_get_split _ _ _ Hg) as (D1 & k' & D2 & -> & _ & ->).
      pose proof (py_supernet_len net). rewrite length_app in *. simpl in *. lia.
    + simpl in Hf. lia.
  - apply IH. rewrite dict_set_none by done. rewrite length_app. simpl in *. lia.
Qed.

(** The keys stay the supernets of their values, without repetition. *)
Lemma merge_loop_keys fuel T D D' :
  merge_loop fam fuel T D = Some D' -> keys_ok fam D -> keys_ok fam D'.
Proof.
  revert T D. induction fuel as [|fuel IH]; intros T D H HD; [done|].
  destruct T as [|net rest]; cbn [merge_loop] in H; [by injection H as <-|].
  destruct (dict_get (py_supernet net) D) as [e|] eqn:Hg.
  - destruct (negb (py_eqb e net)); apply (IH _ _ H); [|done].
    destruct (dict_get_split _ _ _ Hg) as (D1 & k' & D2 & E & _ & ->). subst D.
    destruct HD as [HK HN]. split.
    + intros k v Hin. apply HK. rewrite in_app_iff in Hin |- *. simpl. tauto.
    + rewrite fmap_app in HN |- *. simpl in HN.
      apply NoDup_app in HN as (H1 & H2 & H3). apply NoDup_app. split; [done|]. split.
      * intros z Hz Hz'. apply (H2 z Hz). rewrite elem_of_cons. by right.
      * by apply NoDup_cons in H3 as [_ ?].
  - apply (IH _ _ H). rewrite dict_set_none by done. destruct HD as [HK HN]. split.
    + intros k v Hin. apply in_app_iff in Hin as [Hin|[[= <- <-]|[]]]; [auto|done].
    + rewrite fmap_app. simpl. apply NoDup_app. split; [done|]. split; [|apply NoDup_singleton].
      intros k Hk Hk'. apply list_elem_of_singleton in Hk'. subst k.
      apply list_elem_of_fmap in Hk as ([k v] & Hkk & Hin). simpl in Hkk. subst k.
      apply list_elem_of_In in Hin.
      pose proof (dict_get_none _ _ Hg _ _ Hin). by rewrite py_eqb_refl in H0.
Qed.

Lemma covers_cons n T x : covers fam (n :: T) x <-> mem x n \/ covers fam T x.
Proof.
  split.
  - intros (m & [<-|Hin] & Hm); [by left|right; by exists m].
  - intros [Hm|(m & Hin & Hm)]; [exists n; split; [left|]; done|exists m; split; [right|]; done].
Qed.

Lemma covers_app A B x : covers fam (A ++ B) x <-> covers fam A x \/ covers fam B x.
Proof.
  split.
  - intros (n & Hin & Hm). apply in_app_iff in Hin as [Hin|Hin]; [left|right]; by exists n.
  - intros [(n & Hin & Hm)|(n & Hin & Hm)]; exists n; rewrite in_app_iff; auto.
Qed.

Lemma covers_nil x : ~ covers fam [] x.
Proof. by intros (n & [] & _). Qed.

Lemma covers_values_split D1 k v D2 x :
  covers fam (map fst (values (D1 ++ (k, v) :: D2))) x <->
  mem x v.1 \/ covers fam (map fst (values (D1 ++ D2))) x.
Proof.
  unfold values. rewrite !map_app. simpl. rewrite ?map_app, !covers_app, covers_cons. tauto.
Qed.

Lemma covers_values_snoc D k v x :
  covers fam (map fst (values (D ++ [(k, v)]))) x <->
  covers fam (map fst (values D)) x \/ mem x v.1.
Proof.
  unfold values. rewrite !map_app. simpl. rewrite covers_app, covers_cons.
  pose proof (covers_nil x). tauto.
Qed.

Section Inv.
Variable T0 : list pynet.
Local Abbreviation merge_inv := (merge_inv fam T0).

Lemma merge_loop_inv fuel T D D' :
  merge_loop fam fuel T D = Some D' -> merge_inv T D -> merge_inv [] D'.
Proof.
  revert T D. induction fuel as [|fuel IH]; intros T D H Hinv; [done|].
  destruct T as [|net rest]; cbn [merge_loop] in H; [by injection H as <-|].
  destruct Hinv as (HT & HD & HC).
  destruct (HT net (or_introl eq_refl)) as [Vnet Snet].
  assert (HT' : forall x, In x rest -> valid x.1 /\ x.2 = None) by (intros; apply HT; right; done).
  rewrite (py_supernet_plain net Snet) in H.
  destruct (dict_get (plain (supernet fam net.1)) D) as [e|] eqn:Hg.
  - destruct (dict_get_split _ _ _ Hg) as (D1 & k' & D2 & ED & Hk & Hdel).
    assert (Hin : In (k', e) D) by (rewrite ED, in_app_iff; right; left; done).
    destruct (HD _ _ Hin) as (Ve & Se & Hke).
    rewrite (py_supernet_plain e Se) in Hke. subst k'.
    assert (Hse : supernet fam e.1 = supernet fam net.1).
    { exact (f_equal fst (py_eqb_plain (plain (supernet fam e.1)) (plain (supernet fam net.1))
        (supernet_valid fam _ Ve) (supernet_valid fam _ Vnet) eq_refl eq_refl Hk)). }
    destruct (py_eqb e net) eqn:Heq; simpl in H.
    + apply py_eqb_plain in Heq; [|done..]. subst e.
      apply (IH _ _ H). split; [done|]. split; [done|].
      intros x Hx. rewrite HC by done. cbn [map]. rewrite covers_cons, ED, covers_values_split.
      tauto.
    + assert (Hne : e.1 <> net.1).
      { intros E. destruct e as [en es], net as [nn ns]; simpl in *. subst.
        by rewrite py_eqb_refl in Heq. }
      rewrite Hdel in H. apply (IH _ _ H). split; [|split].
      * intros x [<-|Hx]; [split; [by apply supernet_valid|done]|auto].
      * intros k v Hkv. apply HD. rewrite ED, in_app_iff. rewrite in_app_iff in Hkv. simpl. tauto.
      * intros x Hx. rewrite HC by done. cbn [map]. rewrite !covers_cons, ED, covers_values_split.
        split.
        { intros [[Hm|Hr]|[Hm|Hr]].
          - left; left.
            exact (sub_mem fam _ _ x Vnet (supernet_valid fam _ Vnet)
                     (sub_supernet fam _ Vnet) Hx Hm).
          - left; right; done.
          - left; left. rewrite <- Hse.
            exact (sub_mem fam _ _ x Ve (supernet_valid fam _ Ve)
                     (sub_supernet fam _ Ve) Hx Hm).
          - right; done. }
        { intros [[Hm|Hr]|Hr].
          - destruct (supernet_split fam e.1 net.1 x Ve Vnet Hse Hne Hx Hm) as [He|Hn].
            + right; left; done.
            + left; left; done.
          - left; right; done.
          - right; right; done. }
  - rewrite dict_set_none in H by done. apply (IH _ _ H). split; [|split].
    + done.
    + intros k v Hkv. apply in_app_iff in Hkv as [Hkv|[[= <- <-]|[]]]; [auto|].
      split; [done|]. split; [done|]. by rewrite (py_supernet_plain net Snet).
    + intros x Hx. rewrite HC by done. cbn [map]. rewrite covers_cons.
      rewrite covers_values_snoc.
      tauto.
Qed.

End Inv.

End MergeLoop.

(** ** The filtering pass of [_collapse_addresses_internal] *)

Section Skip.
Variable fam : version.
Local Abbreviation W := (max_prefixlen fam).
Local Abbreviation ONES := (ALL_ONES fam).
Local Abbreviation valid := (valid_net fam).
Local Abbreviation mem x n := (addr_in_net fam x n = true).
Local Abbreviation bcast := (broadcast_address fam).
Local Abbreviation le := (net_le fam).
Local Abbreviation before := (before fam).

#[local] Instance net_le_trans : Transitive le.
Proof.
  intros a b c. unfold net_le, net_leb.
  destruct (Z.ltb_spec (network_address a) (network_address b)),
    (Z.ltb_spec (network_address b) (network_address c)),
    (Z.ltb_spec (network_address a) (network_address c)),
    (Z.eqb_spec (network_address a) (network_address b)),
    (Z.eqb_spec (network_address b) (network_address c)),
    (Z.eqb_spec (network_address a) (network_address c)),
    (Z.leb_spec (netmask fam a) (netmask fam b)),
    (Z.leb_spec (netmask fam b) (netmask fam c)),
    (Z.leb_spec (netmask fam a) (netmask fam c)); simpl; auto; try lia.
Qed.

Lemma skip_in last l n : In n (skip_blocks fam last l) -> In n l.
Proof.
  revert last. induction l as [|m l IH]; intros last; simpl; [done|].
  destruct last as [lst|].
  - destruct (Z.leb_spec (bcast m) (bcast lst)).
    + intros Hin. right. eauto.
    + intros [->|Hin]; [by left|right; eauto].
  - intros [->|Hin]; [by left|right; eauto].
Qed.

Lemma le_addr n m : le n m -> network_address n <= network_address m.
Proof.
  unfold net_le, net_leb. destruct (Z.ltb_spec (network_address n) (network_address m)),
    (Z.eqb_spec (network_address n) (network_address m)); simpl; lia.
Qed.

Lemma bcast_ge_addr n : valid n -> network_address n <= bcast n.
Proof.
  intros Hv. rewrite broadcast_eq by done. pose proof (proj1 Hv).
  pose proof (pow_pos_helper (W - prefixlen n) ltac:(lia)). lia.
Qed.

Lemma mem_bcast n x :
  valid n -> 0 <= x <= ONES -> (mem x n <-> network_address n <= x <= bcast n).
Proof. intros Hv Hx. rewrite mem_interval, broadcast_eq by done. lia. Qed.

(** A network after [lst] in the order whose broadcast address is larger
    starts after the broadcast address of [lst]. *)
Lemma next_after lst n :
  valid lst -> valid n -> le lst n -> bcast lst < bcast n ->
  bcast lst < network_address n.
Proof.
  intros Vl Vn Hle Hb. pose proof (proj1 Vl). pose proof (proj1 Vn).
  destruct (Z.lt_ge_cases (bcast lst) (network_address n)) as [|Hge]; [done|exfalso].
  assert (Hm1 : mem (network_address n) lst).
  { rewrite mem_bcast by (try done; exact (proj1 (proj2 Vn))). pose proof (le_addr _ _ Hle). lia. }
  assert (Hm2 : mem (network_address n) n) by (apply mem_addr; done).
  pose proof (proj1 (proj2 Vn)) as Hr.
  rewrite !broadcast_eq in Hb by done.
  destruct (Z.le_gt_cases (prefixlen lst) (prefixlen n)).
  - pose proof (sub_interval fam n lst Vn Vl (mem_sub fam n lst _ Vn Vl Hr Hm2 Hm1 ltac:(lia))).
    lia.
  - pose proof (sub_interval fam lst n Vl Vn (mem_sub fam lst n _ Vl Vn Hr Hm1 Hm2 ltac:(lia))).
    unfold net_le, net_leb in Hle.
    destruct (Z.ltb_spec (network_address lst) (network_address n)); [lia|].
    destruct (Z.eqb_spec (network_address lst) (network_address n)); [|done].
    simpl in Hle. apply Z.leb_le in Hle. unfold netmask in Hle.
    rewrite !netmask_value in Hle by lia.
    assert (2 ^ (W - prefixlen lst) < 2 ^ (W - prefixlen n)) by
      (apply Z.pow_lt_mono_r; lia). lia.
Qed.

Lemma skip_cover_some l lst x :
  valid lst -> (forall n, In n l -> valid n) -> Forall (le lst) l ->
  StronglySorted le l -> 0 <= x <= ONES ->
  (covers fam (skip_blocks fam (Some lst) l) x \/ mem x lst <->
   covers fam l x \/ mem x lst).
Proof.
  revert lst. induction l as [|n l IH]; intros lst Vl Vs Hle Hs Hx; simpl; [done|].
  inversion Hs as [|? ? Hs' Hf]; subst. inversion Hle as [|? ? Hln Hle']; subst.
  assert (Vn : valid n) by (apply Vs; left; done).
  assert (Vs' : forall m, In m l -> valid m) by (intros; apply Vs; right; done).
  destruct (Z.leb_spec (bcast n) (bcast lst)).
  - rewrite IH by done. rewrite covers_cons.
    split; [tauto|]. intros [[Hm|Hc]|Hm]; [right|left; done|right; done].
    rewrite mem_bcast in Hm |- * by done. pose proof (le_addr _ _ Hln). lia.
  - rewrite !covers_cons. specialize (IH n Vn Vs' Hf Hs' Hx). tauto.
Qed.

Lemma skip_cover_none l x :
  (forall n, In n l -> valid n) -> StronglySorted le l -> 0 <= x <= ONES ->
  (covers fam (skip_blocks fam None l) x <-> covers fam l x).
Proof.
  intros Vs Hs Hx. destruct l as [|n l]; simpl; [done|].
  inversion Hs as [|? ? Hs' Hf]; subst.
  rewrite !covers_cons.
  pose proof (skip_cover_some l n x (Vs n (or_introl eq_refl))
    (fun m H => Vs m (or_intror H)) Hf Hs' Hx). tauto.
Qed.

Lemma skip_chain_some l lst :
  valid lst -> (forall n, In n l -> valid n) -> Forall (le lst) l ->
  StronglySorted le l ->
  Forall (before lst) (skip_blocks fam (Some lst) l) /\
  StronglySorted before (skip_blocks fam (Some lst) l).
Proof.
  revert lst. induction l as [|n l IH]; intros lst Vl Vs Hle Hs; simpl;
    [split; constructor|].
  inversion Hs as [|? ? Hs' Hf]; subst. inversion Hle as [|? ? Hln Hle']; subst.
  assert (Vn : valid n) by (apply Vs; left; done).
  assert (Vs' : forall m, In m l -> valid m) by (intros; apply Vs; right; done).
  destruct (Z.leb_spec (bcast n) (bcast lst)); [by apply IH|].
  destruct (IH n Vn Vs' Hf Hs') as [F S]. pose proof (next_after lst n Vl Vn Hln ltac:(lia)).
  pose proof (bcast_ge_addr n Vn).
  split.
  - constructor; [done|]. eapply Forall_impl; [exact F|]. unfold before. intros m Hm. lia.
  - constructor; done.
Qed.

Lemma skip_chain_none l :
  (forall n, In n l -> valid n) -> StronglySorted le l ->
  StronglySorted before (skip_blocks fam None l).
Proof.
  intros Vs Hs. destruct l as [|n l]; simpl; [constructor|].
  inversion Hs as [|? ? Hs' Hf]; subst.
  destruct (skip_chain_some l n (Vs n (or_introl eq_refl))
    (fun m H => Vs m (or_intror H)) Hf Hs'). by constructor.
Qed.

Lemma strongly_sorted_pair {A} (R : A -> A -> Prop) l n m :
  StronglySorted R l -> In n l -> In m l -> n <> m -> R n m \/ R m n.
Proof.
  induction 1 as [|a l Hs IH Hf]; [done|].
  intros [<-|Hn] [<-|Hm] Hne; [done| | |auto].
  - left. rewrite Forall_forall in Hf. apply Hf. by apply list_elem_of_In.
  - right. rewrite Forall_forall in Hf. apply Hf. by apply list_elem_of_In.
Qed.

Lemma chain_disjoint l :
  (forall n, In n l -> valid n) -> StronglySorted before l -> pairwise_disjoint fam l.
Proof.
  intros Vs Hs n m Hn Hm Hne x Hx [H1 H2].
  rewrite mem_bcast in H1, H2 by auto.
  destruct (strongly_sorted_pair _ _ _ _ Hs Hn Hm Hne) as [B|B]; unfold before in B; lia.
Qed.

Lemma skip_fst last l :
  map fst (skip_subsumed fam last l) = skip_blocks fam (option_map fst last) (map fst l).
Proof.
  revert last. induction l as [|n l IH]; intros last; simpl; [done|].
  destruct last as [lst|]; simpl.
  - destruct (_ <=? _); simpl; [apply IH|f_equal; apply IH].
  - f_equal. apply IH.
Qed.

Lemma skip_in_py last l x : In x (skip_subsumed fam last l) -> In x l.
Proof.
  revert last. induction l as [|m l IH]; intros last; simpl; [done|].
  destruct last as [lst|].
  - destruct (Z.leb_spec (bcast m.1) (bcast lst.1)).
    + intros Hin. right. eauto.
    + intros [->|Hin]; [by left|right; eauto].
  - intros [->|Hin]; [by left|right; eauto].
Qed.

(** On networks without scope id, [__lt__] is the strict order of
    [net_le]. *)
Lemma py_lt_iff x y : x.2 = None -> y.2 = None ->
  (py_lt fam x y = true <->
   network_address x.1 < network_address y.1 \/
   (network_address x.1 = network_address y.1 /\ netmask fam x.1 < netmask fam y.1)).
Proof.
  destruct x as [n s], y as [m t]; simpl; intros -> ->. unfold py_lt. simpl.
  destruct (Z.eqb_spec (network_address n) (network_address m)); simpl.
  - rewrite Z.ltb_lt. lia.
  - rewrite Z.ltb_lt. lia.
Qed.

Lemma py_lt_le x y : x.2 = None -> y.2 = None -> py_lt fam y x = false <-> le x.1 y.1.
Proof.
  intros Hx Hy. unfold net_le, net_leb.
  rewrite <- not_true_iff_false, (py_lt_iff y x Hy Hx).
  destruct (Z.ltb_spec (network_address x.1) (network_address y.1)),
    (Z.eqb_spec (network_address x.1) (network_address y.1)),
    (Z.leb_spec (netmask fam x.1) (netmask fam y.1)); simpl; split; intros; try done; lia.
Qed.

Lemma py_lt_strict_weak l : (forall x, In x l -> x.2 = None) -> strict_weak_on (py_lt fam) l.
Proof.
  intros Hs x y z Hx Hy Hz.
  pose proof (py_lt_iff x x (Hs x Hx) (Hs x Hx)) as Exx.
  pose proof (py_lt_iff x y (Hs x Hx) (Hs y Hy)) as Exy.
  pose proof (py_lt_iff y z (Hs y Hy) (Hs z Hz)) as Eyz.
  pose proof (py_lt_iff x z (Hs x Hx) (Hs z Hz)) as Exz.
  split; [|split].
  - destruct (py_lt fam x x); [|done]. destruct (proj1 Exx eq_refl); lia.
  - intros H1 H2. apply Exz. apply Exy in H1. apply Eyz in H2. lia.
  - intros H. apply Exz in H.
    destruct (py_lt fam x y) eqn:E1; [by left|].
    destruct (py_lt fam y z) eqn:E2; [by right|].
    pose proof (fun Hc => diff_false_true (proj2 Exy Hc)) as N1.
    pose proof (fun Hc => diff_false_true (proj2 Eyz Hc)) as N2.
    exfalso. lia.
Qed.

Lemma sorted_le vs : (forall x, In x vs -> x.2 = None) ->
  Sorted (fun x y => py_lt fam y x = false) vs -> StronglySorted le (map fst vs).
Proof.
  intros Hs Hsort. apply Sorted_StronglySorted; [apply _|].
  induction Hsort as [|a l Hs' IH Hh]; simpl; constructor.
  - apply IH. intros; apply Hs; right; done.
  - destruct Hh as [|b l Hab]; simpl; constructor.
    apply py_lt_le; [apply Hs; left; done|apply Hs; right; left; done|done].
Qed.

End Skip.

(** ** The address path: [_count_righthand_zero_bits],
    [summarize_address_range], [_find_address_range] *)

Section Summarize.
Variable fam : version.
Local Abbreviation W := (max_prefixlen fam).
Local Abbreviation ONES := (ALL_ONES fam).
Local Abbreviation valid := (valid_net fam).
Local Abbreviation mem x n := (addr_in_net fam x n = true).

Lemma pos_ntz_nonneg p : 0 <= pos_ntz p.
Proof. induction p; simpl; lia. Qed.

Lemma land_double a b : Z.land (2 * a) (2 * b) = 2 * Z.land a b.
Proof.
  apply Z.bits_inj'. intros i Hi. rewrite Z.land_spec.
  destruct (Z.eq_dec i 0) as [->|Hi0].
  - rewrite !Z.testbit_even_0. reflexivity.
  - replace i with (Z.succ (i - 1)) by lia.
    rewrite !Z.testbit_even_succ by lia. symmetry; apply Z.land_spec.
Qed.

Lemma land_double_succ a b : Z.land (2 * a + 1) (2 * b + 1) = 2 * Z.land a b + 1.
Proof.
  apply Z.bits_inj'. intros i Hi. rewrite Z.land_spec.
  destruct (Z.eq_dec i 0) as [->|Hi0].
  - rewrite !Z.testbit_odd_0. reflexivity.
  - replace i with (Z.succ (i - 1)) by lia.
    rewrite !Z.testbit_odd_succ by lia. symmetry; apply Z.land_spec.
Qed.

Lemma lnot_eq a : Z.lnot a = - a - 1.
Proof. pose proof (Z.add_lnot_diag a). lia. Qed.

Lemma land_lnot_pred p :
  Z.land (Z.lnot (Z.pos p)) (Z.pos p - 1) = Z.ones (pos_ntz p) /\
  Z.pos p mod 2 ^ pos_ntz p = 0.
Proof.
  induction p as [p IH|p IH|]; simpl.
  - split; [|apply Z.mod_1_r].
    rewrite Pos2Z.inj_xI. replace (Z.lnot (2 * Z.pos p + 1)) with (2 * Z.lnot (Z.pos p))
      by (rewrite !lnot_eq; lia).
    replace (2 * Z.pos p + 1 - 1) with (2 * Z.pos p) by lia.
    rewrite land_double, Z.land_comm, Z.land_lnot_diag. reflexivity.
  - destruct IH as [IH1 IH2]. pose proof (pos_ntz_nonneg p). rewrite Pos2Z.inj_xO. split.
    + replace (Z.lnot (2 * Z.pos p)) with (2 * Z.lnot (Z.pos p) + 1) by (rewrite !lnot_eq; lia).
      replace (2 * Z.pos p - 1) with (2 * (Z.pos p - 1) + 1) by lia.
      rewrite land_double_succ, IH1, !Z.ones_equiv, Z.pow_succ_r by lia. lia.
    + rewrite Z.pow_succ_r by lia. rewrite Z.mul_mod_distr_l by (try apply pow_pos_helper; lia).
      rewrite IH2. lia.
  - split; reflexivity.
Qed.

Lemma bit_length_ones t : 0 <= t -> bit_length (Z.ones t) = t.
Proof.
  intros Ht. unfold bit_length. rewrite Z.ones_equiv.
  destruct (Z.eq_dec t 0) as [->|Ht0]; [reflexivity|].
  pose proof (pow_pos_helper t Ht).
  assert (2 ^ t = 2 * 2 ^ (t - 1)) by (rewrite <- Z.pow_succ_r by lia; f_equal; lia).
  pose proof (pow_pos_helper (t - 1) ltac:(lia)).
  destruct (Z.eqb_spec (Z.pred (2 ^ t)) 0); [lia|].
  rewrite Z.abs_eq by lia. rewrite (Z.log2_unique _ (t - 1)); [lia|lia|].
  replace (Z.succ (t - 1)) with t by lia. lia.
Qed.

Lemma pow_divide a b : 0 <= a <= b -> (2 ^ a | 2 ^ b).
Proof.
  intros H. exists (2 ^ (b - a)). rewrite <- Z.pow_add_r by lia. f_equal. lia.
Qed.

Lemma crzb_facts f :
  0 <= f ->
  0 <= count_righthand_zero_bits f W <= W /\ f mod 2 ^ count_righthand_zero_bits f W = 0.
Proof.
  intros Hf. pose proof (W_pos fam). unfold count_righthand_zero_bits.
  destruct (Z.eqb_spec f 0) as [->|Hf0].
  - split; [lia|]. apply Z.mod_0_l. pose proof (pow_pos_helper W). lia.
  - destruct f as [|p|p]; [lia| |lia].
    destruct (land_lnot_pred p) as [E M]. rewrite E, bit_length_ones by apply pos_ntz_nonneg.
    pose proof (pos_ntz_nonneg p). split; [lia|].
    apply Z.mod_divide; [apply Z.pow_nonzero; lia|].
    apply (Z.divide_trans _ (2 ^ pos_ntz p)); [apply pow_divide; lia|].
    apply Z.mod_divide; [apply Z.pow_nonzero; lia|done].
Qed.

Lemma bit_length_log2 x : 0 < x -> bit_length x - 1 = Z.log2 x.
Proof.
  intros Hx. unfold bit_length. destruct (Z.eqb_spec x 0); [lia|].
  rewrite Z.abs_eq by lia. lia.
Qed.

Lemma summarize_loop_ok fuel f l :
  0 <= f -> l <= ONES -> (Z.to_nat (l - f + 1) < fuel)%nat ->
  exists out, summarize_loop fam fuel f l = Some out /\
    (forall n, In n out -> valid n) /\
    (forall x, 0 <= x <= ONES -> covers fam out x <-> f <= x <= l).
Proof.
  revert f. induction fuel as [|fuel IH]; intros f Hf Hl Hfuel; [lia|]. simpl.
  destruct (Z.leb_spec f l) as [Hfl|Hfl].
  2:{ exists []. split; [done|]. split; [done|]. intros x Hx. split; [intros H; by apply covers_nil in H|lia]. }
  rewrite (bit_length_log2 (l - f + 1)) by lia.
  set (nbits := Z.min (count_righthand_zero_bits f W) (Z.log2 (l - f + 1))).
  destruct (crzb_facts f Hf) as [Hc Hmod].
  pose proof (Z.log2_nonneg (l - f + 1)). pose proof (Z.log2_spec (l - f + 1) ltac:(lia)).
  assert (Hn : 0 <= nbits <= W) by (unfold nbits; lia).
  assert (Hp : 2 ^ nbits <= l - f + 1).
  { transitivity (2 ^ Z.log2 (l - f + 1)); [apply Z.pow_le_mono_r; unfold nbits; lia|lia]. }
  assert (Hfm : f mod 2 ^ nbits = 0).
  { apply Z.mod_divide; [apply Z.pow_nonzero; lia|].
    apply (Z.divide_trans _ (2 ^ count_righthand_zero_bits f W)); [apply pow_divide; unfold nbits; lia|].
    apply Z.mod_divide; [apply Z.pow_nonzero; lia|done]. }
  pose proof (pow_pos_helper nbits ltac:(lia)).
  assert (Hland : Z.land f (ip_int_from_prefix fam (W - nbits)) = f).
  { rewrite land_netmask by lia. replace (W - (W - nbits)) with nbits by lia.
    rewrite shiftl_shiftr_eq by lia. lia. }
  assert (Hmk : mk_network fam f (W - nbits) = Some (mknet f (W - nbits))).
  { unfold mk_network. rewrite Hland, Z.eqb_refl.
    destruct (Z.leb_spec 0 f), (Z.leb_spec f ONES), (Z.leb_spec 0 (W - nbits)),
      (Z.leb_spec (W - nbits) W); simpl; try lia; reflexivity. }
  rewrite Hmk.
  assert (Vnet : valid (mknet f (W - nbits))).
  { split; [simpl; lia|]. split; [simpl; lia|]. exact Hland. }
  assert (Cnet : forall x, 0 <= x <= ONES -> mem x (mknet f (W - nbits)) <-> f <= x <= f + 2 ^ nbits - 1).
  { intros x Hx. rewrite mem_interval by done. simpl. replace (W - (W - nbits)) with nbits by lia. lia. }
  rewrite Z.shiftl_1_l.
  destruct (Z.eqb_spec (f + 2 ^ nbits - 1) ONES) as [Hend|Hend].
  - exists [mknet f (W - nbits)]. split; [done|]. split; [intros n [<-|[]]; done|].
    intros x Hx. rewrite covers_cons, Cnet by done. split; [|lia].
    intros [Hc1|Hc1]; [lia|by apply covers_nil in Hc1].
  - destruct (IH (f + 2 ^ nbits)) as (rest & Hr & Vr & Cr); [lia|lia|lia|].
    rewrite Hr. exists (mknet f (W - nbits) :: rest). split; [done|]. split.
    + intros n [<-|Hin]; auto.
    + intros x Hx. rewrite covers_cons, Cnet, Cr by done. lia.
Qed.

Lemma summarize_address_range_ok f l :
  0 <= f <= l -> l <= ONES ->
  exists out, summarize_address_range fam f l = Some out /\
    (forall n, In n out -> valid n) /\
    (forall x, 0 <= x <= ONES -> covers fam out x <-> f <= x <= l).
Proof.
  intros Hf Hl. unfold summarize_address_range.
  destruct (Z.ltb_spec l f); [lia|]. apply summarize_loop_ok; lia.
Qed.

End Summarize.

(** ** [collapse_addresses] as a whole *)

Section Collapse.
Variable fam : version.
Variable sorted : sort_fn.
Hypothesis sorted_perm : sort_permutes sorted.
Local Abbreviation W := (max_prefixlen fam).
Local Abbreviation ONES := (ALL_ONES fam).
Local Abbreviation valid := (valid_net fam).
Local Abbreviation mem x n := (addr_in_net fam x n = true).

Lemma find_range_ok rest f lst :
  0 <= f <= lst -> lst <= ONES -> (forall x, In x rest -> 0 <= x <= ONES) ->
  (forall r, In r (find_range_aux f lst rest) -> 0 <= r.1 <= r.2 /\ r.2 <= ONES) /\
  (forall x, (exists r, In r (find_range_aux f lst rest) /\ r.1 <= x <= r.2) <->
             f <= x <= lst \/ In x rest).
Proof.
  revert f lst. induction rest as [|ip rest IH]; intros f lst Hf Hl Hr; simpl.
  - split; [intros r [<-|[]]; simpl; lia|].
    intros x. split; [intros (r & [<-|[]] & H); simpl in H; lia|].
    intros [H|[]]. exists (f, lst). simpl. auto.
  - assert (Hip : 0 <= ip <= ONES) by (apply Hr; left; done).
    assert (Hr' : forall x, In x rest -> 0 <= x <= ONES) by (intros; apply Hr; right; done).
    destruct (Z.eqb_spec ip (lst + 1)) as [E|E]; simpl.
    + destruct (IH f ip ltac:(lia) ltac:(lia) Hr') as [B C]. split; [done|].
      intros x. rewrite C. split.
      * intros [H|H]; [|right; right; done].
        destruct (Z.eq_dec x ip) as [->|]; [right; left; done|left; lia].
      * intros [H|[<-|H]]; [left; lia|left; lia|right; done].
    + destruct (IH ip ip ltac:(lia) ltac:(lia) Hr') as [B C]. split.
      * intros r [<-|Hin]; [simpl; lia|by apply B].
      * intros x. split.
        -- intros (r & [<-|Hin] & H); [left; simpl in H; lia|].
           destruct (proj1 (C x) (ex_intro _ r (conj Hin H))) as [H'|H'];
             [right; left; lia|right; right; done].
        -- intros [H|[<-|H]].
           ++ exists (f, lst). simpl. auto.
           ++ destruct (proj2 (C ip) (or_introl (conj (Z.le_refl ip) (Z.le_refl ip))))
                as (r & Hin & H). exists r. auto.
           ++ destruct (proj2 (C x) (or_intror H)) as (r & Hin & H'). exists r. auto.
Qed.

Lemma summarize_all_ok rs :
  (forall r, In r rs -> 0 <= r.1 <= r.2 /\ r.2 <= ONES) ->
  exists out, summarize_all fam rs = Some out /\
    (forall n, In n out -> valid n) /\
    (forall x, 0 <= x <= ONES ->
       covers fam out x <-> exists r, In r rs /\ r.1 <= x <= r.2).
Proof.
  induction rs as [|[f l] rs IH]; intros Hr; simpl.
  - exists []. split; [done|]. split; [done|]. intros x _.
    split; [intros H; by apply covers_nil in H|intros (r & [] & _)].
  - destruct (Hr (f, l) (or_introl eq_refl)) as [H1 H2]; simpl in H1, H2.
    destruct (summarize_address_range_ok fam f l H1 H2) as (a & Ea & Va & Ca).
    destruct IH as (b & Eb & Vb & Cb); [intros; apply Hr; right; done|].
    rewrite Ea, Eb. exists (a ++ b). split; [done|]. split.
    + intros n Hin. apply in_app_iff in Hin as [Hin|Hin]; auto.
    + intros x Hx. rewrite covers_app, Ca, Cb by done. split.
      * intros [H|(r & Hin & H)]; [exists (f, l); simpl; auto|exists r; auto].
      * intros (r & [<-|Hin] & H); [left; done|right; exists r; auto].
Qed.

Lemma address_path_ok ips :
  (forall x, In x ips -> 0 <= x <= ONES) ->
  exists addrs,
    (match ips with [] => Some [] | _ => summarize_all fam (find_address_range ips) end)
      = Some addrs /\
    (forall n, In n addrs -> valid n) /\
    (forall x, 0 <= x <= ONES -> covers fam addrs x <-> In x ips).
Proof.
  intros Hb. destruct ips as [|i rest].
  - exists []. split; [done|]. split; [done|].
    intros x _. split; [intros H; by apply covers_nil in H|done].
  - assert (Hi : 0 <= i <= ONES) by (apply Hb; left; done).
    destruct (find_range_ok rest i i) as [B C]; [lia|lia|intros; apply Hb; right; done|].
    destruct (summarize_all_ok _ B) as (out & E & V & Cv).
    exists out. split; [exact E|]. split; [done|].
    intros x Hx. rewrite Cv, C by done. simpl. split.
    + intros [H|H]; [left; lia|right; done].
    + intros [<-|H]; [left; lia|right; done].
Qed.

Lemma covers_perm A B x : A ≡ₚ B -> covers fam A x <-> covers fam B x.
Proof.
  intros Hp. split; intros (n & Hin & Hm); exists n; split; try done;
    eapply Permutation_in; [|exact Hin|symmetry|exact Hin]; done.
Qed.

Lemma in_filter_iff {A} (P : A -> Prop) `{forall n, Decision (P n)} l n :
  In n (filter P l) <-> P n /\ In n l.
Proof. rewrite <- !list_elem_of_In. apply list_elem_of_filter. Qed.

Lemma mem_full n x : valid n -> prefixlen n = W -> 0 <= x <= ONES ->
  (mem x n <-> x = network_address n).
Proof.
  intros Vn Hl Hx. rewrite mem_interval by done. rewrite Hl, Z.sub_diag, Z.pow_0_r. lia.
Qed.

(** The full-length networks as [sorted(set(ips))] sees them: each
    address once per scope id, in the order of [sorted]. *)
Lemma ips_in (S : list pynet) i :
  In i (map fst (sorted _ addr_lt (remove_dups
     (map (fun x : pynet => (network_address x.1, x.2))
        (filter (fun x : pynet => prefixlen x.1 = W) S))))) <->
  exists x, In x S /\ prefixlen x.1 = W /\ network_address x.1 = i.
Proof.
  rewrite in_map_iff. split.
  - intros (p & <- & Hp). apply (Permutation_in _ (sorted_perm _ _ _)) in Hp.
    apply list_elem_of_In, elem_of_remove_dups, list_elem_of_In, in_map_iff in Hp
      as (x & <- & Hx).
    apply in_filter_iff in Hx as [Hl Hx]. eauto.
  - intros (x & Hx & Hl & <-). exists (network_address x.1, x.2). split; [done|].
    apply (Permutation_in _ (symmetry (sorted_perm _ _ _))).
    apply list_elem_of_In, elem_of_remove_dups, list_elem_of_In, in_map_iff.
    exists x. split; [done|]. by apply in_filter_iff.
Qed.

Lemma match_map_fst {A} (ips : list (Z * A)) d :
  match ips with [] => d | _ => summarize_all fam (find_address_range (map fst ips)) end =
  match map fst ips with [] => d | _ => summarize_all fam (find_address_range (map fst ips)) end.
Proof. by destruct ips. Qed.

Lemma in_values x D : In x (values D) -> exists k, In (k, x) D.
Proof.
  unfold values. intros Hin. apply in_map_iff in Hin as ([k v] & <- & Hin). by exists k.
Qed.

(** With no key twice in the dict, a key has one value. *)
Lemma keys_functional (D : dict) k v1 v2 :
  NoDup D.*1 -> In (k, v1) D -> In (k, v2) D -> v1 = v2.
Proof.
  induction D as [|[k' v'] D IH]; [done|]. cbn [fmap list_fmap]. rewrite NoDup_cons.
  intros [Hn Hd] [E1|H1] [E2|H2].
  - congruence.
  - injection E1 as -> ->. exfalso. apply Hn. apply list_elem_of_In, in_map_iff.
    by exists (k, v2).
  - injection E2 as -> ->. exfalso. apply Hn. apply list_elem_of_In, in_map_iff.
    by exists (k, v1).
  - by apply IH.
Qed.

(** Values of a dict whose keys are their supernets are never
    siblings: siblings have the same supernet, hence the same key. *)
Lemma no_siblings_keys D (out : list pynet) :
  keys_ok fam D -> (forall x, In x out -> In x (values D)) ->
  forall n m, In n (map fst out) -> In m (map fst out) -> ~ siblings fam n m.
Proof.
  intros [HK HN] Hsub n m Hn Hm (Hne & Hl & Hl1 & Hs).
  apply in_map_iff in Hn as (x & <- & Hx). apply in_map_iff in Hm as (y & <- & Hy).
  apply Hsub, in_values in Hx as [k1 Hk1]. apply Hsub, in_values in Hy as [k2 Hk2].
  pose proof (HK _ _ Hk1) as E1. pose proof (HK _ _ Hk2) as E2.
  unfold py_supernet in E1, E2.
  destruct (Z.eqb_spec (prefixlen x.1) 0); [lia|].
  destruct (Z.eqb_spec (prefixlen y.1) 0); [lia|].
  rewrite Hs in E1. rewrite E1, <- E2 in Hk1.
  apply Hne. f_equal. exact (keys_functional D k2 x y HN Hk1 Hk2).
Qed.

Lemma collapse_internal_some (L : list pynet) :
  exists out D, collapse_addresses_internal fam sorted L = Some out /\
    keys_ok fam D /\ (forall x, In x out -> In x (values D)).
Proof.
  unfold collapse_addresses_internal.
  destruct (merge_loop_some fam (merge_fuel L) (rev L) []) as (D & ED).
  { rewrite fuel_weight_rev. unfold merge_fuel. simpl. lia. }
  rewrite ED. eexists _, D. split; [reflexivity|]. split.
  - apply (merge_loop_keys fam _ _ _ _ ED). split; [done|constructor].
  - intros x Hin. apply skip_in_py in Hin.
    exact (Permutation_in _ (sorted_perm _ _ _) Hin).
Qed.

Lemma collapse_internal_ok (L : list pynet) :
  sort_orders sorted ->
  (forall x, In x L -> valid x.1 /\ x.2 = None) ->
  exists out D, collapse_addresses_internal fam sorted L = Some out /\
    keys_ok fam D /\ merge_inv fam L [] D /\
    (forall x, In x out -> In x (values D)) /\
    StronglySorted (before fam) (map fst out) /\
    (forall x, 0 <= x <= ONES -> covers fam (map fst out) x <-> covers fam (map fst L) x).
Proof.
  intros Hord VL. unfold collapse_addresses_internal.
  destruct (merge_loop_some fam (merge_fuel L) (rev L) []) as (D & ED).
  { rewrite fuel_weight_rev. unfold merge_fuel. simpl. lia. }
  assert (HI : merge_inv fam L [] D).
  { apply (merge_loop_inv fam L _ _ _ _ ED). split; [|split].
    - intros x Hx. apply VL. by apply in_rev.
    - done.
    - intros x Hx. unfold values. simpl. split.
      + intros H. left. eapply covers_perm; [|exact H].
        symmetry. apply Permutation_map, Permutation_rev.
      + intros [H|H]; [|by apply covers_nil in H].
        eapply covers_perm; [|exact H]. apply Permutation_map, Permutation_rev. }
  rewrite ED. eexists _, D. split; [reflexivity|]. split.
  { apply (merge_loop_keys fam _ _ _ _ ED). split; [done|constructor]. }
  split; [done|].
  destruct HI as (_ & HDv & HC).
  set (vs := sorted _ (py_lt fam) (values D)).
  assert (Hvs : forall x, In x vs -> valid x.1 /\ x.2 = None).
  { intros x Hx. apply (Permutation_in _ (sorted_perm _ (py_lt fam) (values D))), in_values in Hx as [k Hk].
    destruct (HDv k x Hk) as (? & ? & _). done. }
  assert (Hle : StronglySorted (net_le fam) (map fst vs)).
  { apply sorted_le; [intros; by apply Hvs|]. apply Hord, py_lt_strict_weak.
    intros x Hx. apply (Permutation_in _ (symmetry (sorted_perm _ (py_lt fam) (values D)))) in Hx.
    by apply Hvs. }
  assert (Vm : forall n, In n (map fst vs) -> valid n).
  { intros n Hn. apply in_map_iff in Hn as (x & <- & Hx). by apply Hvs. }
  split; [|split].
  - intros x Hin. apply skip_in_py in Hin.
    exact (Permutation_in _ (sorted_perm _ _ _) Hin).
  - rewrite skip_fst. by apply skip_chain_none.
  - intros x Hx. rewrite skip_fst. simpl option_map.
    rewrite (skip_cover_none fam _ x Vm Hle Hx), HC by done.
    rewrite (covers_perm _ (map fst (values D))); [|apply Permutation_map, sorted_perm].
    split; [intros H; by right|]. intros [H|H]; [by apply covers_nil in H|done].
Qed.

(** [collapse_addresses] returns, whatever the scope ids, a list of values
    of a dict whose keys are their supernets. *)
Lemma collapse_some (S : list pynet) :
  (forall x, In x S -> valid x.1) ->
  exists out D, collapse_addresses fam sorted S = Some out /\
    keys_ok fam D /\ (forall x, In x out -> In x (values D)).
Proof.
  intros VS. unfold collapse_addresses. cbv zeta. rewrite match_map_fst.
  destruct (address_path_ok (map fst (sorted _ addr_lt (remove_dups
     (map (fun x : pynet => (network_address x.1, x.2))
        (filter (fun x : pynet => prefixlen x.1 = W) S)))))) as (addrs & Ea & _ & _).
  { intros i Hi. apply ips_in in Hi as (x & Hx & _ & <-). apply VS in Hx.
    unfold valid_net in Hx. lia. }
  rewrite Ea. apply collapse_internal_some.
Qed.

(** On networks without scope id, [collapse_addresses] returns networks
    without scope id, canonical, in address order, with the coverage of
    its input. *)
Lemma collapse_ok (S : list pynet) :
  sort_orders sorted ->
  (forall x, In x S -> valid x.1 /\ x.2 = None) ->
  exists out, collapse_addresses fam sorted S = Some out /\
    (forall x, In x out -> x.2 = None) /\
    canonical fam (map fst out) /\
    StronglySorted (before fam) (map fst out) /\
    (forall x, 0 <= x <= ONES -> covers fam (map fst out) x <-> covers fam (map fst S) x).
Proof.
  intros Hord VS. unfold collapse_addresses. cbv zeta. rewrite match_map_fst.
  set (ips := map fst (sorted _ addr_lt (remove_dups
     (map (fun x : pynet => (network_address x.1, x.2))
        (filter (fun x : pynet => prefixlen x.1 = W) S))))).
  set (nets := filter (fun x : pynet => prefixlen x.1 <> W) S).
  assert (Hips : forall i, In i ips <-> exists x, In x S /\ prefixlen x.1 = W /\ network_address x.1 = i)
    by apply ips_in.
  destruct (address_path_ok ips) as (addrs & Ea & Va & Ca).
  { intros i Hi. apply Hips in Hi as (x & Hx & _ & <-). apply VS in Hx as [Hx _].
    unfold valid_net in Hx. lia. }
  rewrite Ea.
  destruct (collapse_internal_ok (map plain addrs ++ nets)) as
    (out & D & Eo & HK & HI & Hsub & Hss & Co); [done| |].
  { intros x Hin. apply in_app_iff in Hin as [Hin|Hin].
    - apply in_map_iff in Hin as (n & <- & Hn). split; [by apply Va|done].
    - apply in_filter_iff in Hin as [_ Hin]. auto. }
  destruct HI as (_ & HDv & _).
  assert (Vo : forall x, In x out -> valid x.1 /\ x.2 = None).
  { intros x Hin. apply Hsub, in_values in Hin as [k Hk].
    destruct (HDv k x Hk) as (? & ? & _). done. }
  assert (Vo' : forall n, In n (map fst out) -> valid n).
  { intros n Hn. apply in_map_iff in Hn as (x & <- & Hx). by apply Vo. }
  exists out. split; [done|]. split; [intros; by apply Vo|].
  split; [|split; [done|]].
  - split; [done|]. split; [by apply chain_disjoint|].
    by apply (no_siblings_keys D).
  - intros x Hx. rewrite Co, map_app, covers_app by done.
    rewrite map_map. simpl. rewrite map_id, Ca by done. split.
    + intros [H|(n & Hin & Hm)].
      * apply Hips in H as (y & Hin & Hl & <-). exists y.1. split; [by apply in_map|].
        apply mem_addr. by apply VS.
      * apply in_map_iff in Hin as (y & <- & Hin). apply in_filter_iff in Hin as [_ Hin].
        exists y.1. split; [by apply in_map|done].
    + intros (n & Hin & Hm). apply in_map_iff in Hin as (y & <- & Hin).
      destruct (decide (prefixlen y.1 = W)) as [Hl|Hl].
      * left. apply Hips. exists y. split; [done|]. split; [done|].
        symmetry. apply (mem_full y.1 x); [by apply VS|done|done|done].
      * right. exists y.1. split; [|done]. apply in_map. by apply in_filter_iff.
Qed.

Lemma sorted_nodup {A} (R : A -> A -> Prop) l :
  StronglySorted R l -> (forall x, In x l -> ~ R x x) -> NoDup l.
Proof.
  induction 1 as [|a l Hs IH Hf]; intros Hirr; constructor.
  - intros Hin. rewrite Forall_forall in Hf. apply (Hirr a); [left; done|].
    by apply Hf.
  - apply IH. intros; apply Hirr; right; done.
Qed.

(** Two canonical lists sorted by [before] with the same coverage are
    the same list. *)
Lemma canonical_sorted_eq A B :
  canonical fam A -> canonical fam B ->
  StronglySorted (before fam) A -> StronglySorted (before fam) B ->
  (forall x, 0 <= x <= ONES -> covers fam A x <-> covers fam B x) -> A = B.
Proof.
  intros HA HB SA SB Hc.
  pose proof (canonical_unique fam A B HA HB Hc) as E.
  destruct HA as [VA _]. destruct HB as [VB _].
  assert (Irr : forall n, valid n -> ~ before fam n n).
  { intros n Vn. unfold before. pose proof (bcast_ge_addr fam n Vn). lia. }
  apply (StronglySorted_unique_strong (before fam)); [|done|done|].
  - intros n m Hn Hm B1 B2. apply list_elem_of_In in Hn, Hm.
    pose proof (bcast_ge_addr fam n (VA n Hn)). pose proof (bcast_ge_addr fam m (VB m Hm)).
    unfold before in B1, B2. lia.
  - apply NoDup_Permutation.
    + apply (sorted_nodup (before fam)); [done|]. intros n Hn. apply Irr. auto.
    + apply (sorted_nodup (before fam)); [done|]. intros n Hn. apply Irr. auto.
    + intros n. rewrite !list_elem_of_In. apply E.
Qed.

End Collapse.

Lemma plain_list_eq (A B : list pynet) :
  (forall x, In x A -> x.2 = None) -> (forall x, In x B -> x.2 = None) ->
  map fst A = map fst B -> A = B.
Proof.
  revert B. induction A as [|[n s] A IH]; intros [|[m t] B] HA HB E; try discriminate; [done|].
  simpl in E. injection E as -> E.
  pose proof (HA _ (or_introl eq_refl)) as Hs. pose proof (HB _ (or_introl eq_refl)) as Ht.
  simpl in Hs, Ht. subst. f_equal. apply IH; [intros; apply HA; right; done|intros; apply HB; right; done|done].
Qed.

(** On networks without scope id, the result depends neither on the
    order of the input nor on the sort, as long as the sort is correct. *)
Lemma collapse_perm fam s1 s2 (S1 S2 : list pynet) :
  sort_permutes s1 -> sort_orders s1 -> sort_permutes s2 -> sort_orders s2 ->
  (forall x, In x S1 -> valid_net fam x.1 /\ x.2 = None) -> S1 ≡ₚ S2 ->
  collapse_addresses fam s1 S1 = collapse_addresses fam s2 S2.
Proof.
  intros P1 O1 P2 O2 V1 Hp.
  assert (V2 : forall x, In x S2 -> valid_net fam x.1 /\ x.2 = None).
  { intros x Hx. apply V1. by apply (Permutation_in _ (symmetry Hp)). }
  destruct (collapse_ok fam s1 P1 S1 O1 V1) as (o1 & E1 & N1 & C1 & SS1 & Cv1).
  destruct (collapse_ok fam s2 P2 S2 O2 V2) as (o2 & E2 & N2 & C2 & SS2 & Cv2).
  rewrite E1, E2. f_equal. apply plain_list_eq; [done|done|].
  apply (canonical_sorted_eq fam); [done|done|done|done|].
  intros x Hx. rewrite Cv1, Cv2 by done. apply covers_perm. by apply Permutation_map.
Qed.

(** ** The parser raises only [ValueError]s *)

Section Raises.


Lemma vraise_ok {A} (a : A) : vraise (Ok a).
Proof. by intros e. Qed.

Lemma vraise_raise {A} e : is_value_error e = true -> vraise (@Raise A e).
Proof. by intros He e' [= <-]. Qed.

Lemma vraise_bind {A B} (m : Exc A) (k : A -> Exc B) :
  vraise m -> (forall a, vraise (k a)) -> vraise (m ≫= k).
Proof.
  intros Hm Hk e. destruct m as [a|e0]; simpl; [apply Hk|].
  intros [= <-]. by apply Hm.
Qed.

Lemma vraise_match {A B} (m : Exc A) (f : A -> Exc B) (h : exn -> Exc B) :
  vraise m -> (forall a, vraise (f a)) ->
  (forall e, is_value_error e = true -> vraise (h e)) ->
  vraise (match m with Ok a => f a | Raise e => h e end).
Proof.
  intros Hm Hf Hh. destruct m as [a|e0]; [apply Hf|]. apply Hh. by apply Hm.
Qed.

Lemma vraise_mapM {A B} (f : A -> Exc B) l :
  (forall x, vraise (f x)) -> vraise (mapM f l).
Proof.
  intros Hf. induction l as [|x l IH]; simpl; [apply vraise_ok|].
  apply vraise_bind; [apply Hf|]. intros b.
  apply vraise_bind; [exact IH|]. intros; apply vraise_ok.
Qed.

Ltac vr_step :=
  first
    [ apply vraise_ok
    | apply vraise_raise; reflexivity
    | apply vraise_bind; [|intros ?]
    | case_match ].

Lemma parse_octet_vraise s : vraise (parse_octet s).
Proof. unfold parse_octet. repeat vr_step. Qed.

Lemma ip4_int_from_string_vraise s : vraise (ip4_int_from_string s).
Proof.
  unfold ip4_int_from_string. repeat case_match; try apply vraise_ok;
    try (apply vraise_raise; reflexivity).
  - apply vraise_raise. eapply vraise_mapM; [apply parse_octet_vraise|eassumption].
Qed.

Lemma ipv4_address_vraise s : vraise (ipv4_address s).
Proof. unfold ipv4_address. case_match; [apply vraise_raise; done|apply ip4_int_from_string_vraise]. Qed.

Lemma prefix_from_prefix_string_vraise v s : vraise (prefix_from_prefix_string v s).
Proof. unfold prefix_from_prefix_string. repeat vr_step. Qed.

Lemma prefix_from_ip_int_vraise v i : vraise (prefix_from_ip_int v i).
Proof. unfold prefix_from_ip_int. repeat vr_step. Qed.

Lemma prefix_from_ip_string_vraise s : vraise (prefix_from_ip_string s).
Proof.
  unfold prefix_from_ip_string.
  destruct (ip4_int_from_string s) as [i|e] eqn:E.
  - destruct (prefix_from_ip_int V4 i) as [p|e] eqn:E1; [apply vraise_ok|].
    pose proof (prefix_from_ip_int_vraise V4 i e E1) as He. rewrite He.
    destruct (prefix_from_ip_int V4 (Z.lxor i (ALL_ONES V4))) as [p|e'] eqn:E2;
      [apply vraise_ok|].
    pose proof (prefix_from_ip_int_vraise _ _ e' E2) as He'. rewrite He'.
    by apply vraise_raise.
  - pose proof (ip4_int_from_string_vraise s e E) as He.
    destruct e; try discriminate; by apply vraise_raise.
Qed.

Lemma make_netmask4_vraise a : vraise (make_netmask4 a).
Proof.
  unfold make_netmask4. destruct a as [p|s]; [repeat vr_step|].
  destruct (prefix_from_prefix_string V4 s) as [p|e] eqn:E; [apply vraise_ok|].
  pose proof (prefix_from_prefix_string_vraise V4 s e E) as He.
  destruct e; try discriminate; try (by apply vraise_raise).
  apply prefix_from_ip_string_vraise.
Qed.

Lemma make_netmask6_vraise a : vraise (make_netmask6 a).
Proof.
  unfold make_netmask6. destruct a; [repeat vr_step|apply prefix_from_prefix_string_vraise].
Qed.

Lemma split_addr_prefix_vraise v s : vraise (split_addr_prefix v s).
Proof. unfold split_addr_prefix. repeat vr_step. Qed.

Lemma parse_hextet_vraise s : vraise (parse_hextet s).
Proof. unfold parse_hextet. repeat vr_step. Qed.

Lemma skip_scan_vraise l i k : vraise (skip_scan l i k).
Proof.
  revert i k. induction l as [|p l IH]; intros i k; simpl; [apply vraise_ok|].
  repeat case_match; auto; by apply vraise_raise.
Qed.

Lemma parse_hextets_vraise i l : vraise (parse_hextets i l).
Proof.
  revert i. induction l as [|p l IH]; intros i; simpl; [apply vraise_ok|].
  apply vraise_bind; [apply parse_hextet_vraise|auto].
Qed.

Lemma ip6_int_from_string_vraise s : vraise (ip6_int_from_string s).
Proof.
  unfold ip6_int_from_string.
  case_match; [by apply vraise_raise|]. case_match; [by apply vraise_raise|].
  apply vraise_bind.
  { case_match; [|apply vraise_ok].
    destruct (ipv4_address _) as [i|e] eqn:E; [apply vraise_ok|].
    pose proof (ipv4_address_vraise _ e E) as He.
    destruct e; try discriminate; by apply vraise_raise. }
  intros parts. case_match; [by apply vraise_raise|].
  apply vraise_bind; [apply skip_scan_vraise|]. intros k.
  apply vraise_bind.
  { destruct k as [i|]; repeat vr_step. }
  intros [[hi lo] sk].
  apply vraise_match.
  - apply vraise_bind; [apply parse_hextets_vraise|]. intros; apply parse_hextets_vraise.
  - intros; apply vraise_ok.
  - intros e He. rewrite He. by apply vraise_raise.
Qed.

Lemma split_scope_id_vraise s : vraise (split_scope_id s).
Proof. unfold split_scope_id. repeat vr_step. Qed.

Lemma ipv6_address_vraise s : vraise (ipv6_address s).
Proof.
  unfold ipv6_address. case_match; [by apply vraise_raise|].
  apply vraise_bind; [apply split_scope_id_vraise|]. intros [addr sc].
  apply vraise_bind; [apply ip6_int_from_string_vraise|]. intros; apply vraise_ok.
Qed.

Lemma host_bits_check_vraise v b p : vraise (host_bits_check v b p).
Proof. unfold host_bits_check. destruct p as [[? ?] ?]. repeat vr_step. Qed.

Lemma IPv4Network_vraise s b : vraise (IPv4Network s b).
Proof.
  unfold IPv4Network, ipv4_network_parts.
  apply vraise_bind; [|intros [? ?]; apply host_bits_check_vraise].
  apply vraise_bind; [apply split_addr_prefix_vraise|]. intros [addr mask].
  apply vraise_bind; [apply ipv4_address_vraise|]. intros.
  apply vraise_bind; [apply make_netmask4_vraise|]. intros. apply vraise_ok.
Qed.

Lemma IPv6Network_vraise s b : vraise (IPv6Network s b).
Proof.
  unfold IPv6Network, ipv6_network_parts.
  apply vraise_bind; [|intros; apply host_bits_check_vraise].
  apply vraise_bind; [apply split_addr_prefix_vraise|]. intros [addr mask].
  apply vraise_bind; [apply ipv6_address_vraise|]. intros.
  apply vraise_bind; [apply make_netmask6_vraise|]. intros. apply vraise_ok.
Qed.

(** [ip_network] raises nothing but a plain [ValueError]. *)
Lemma ip_network_raise s b e : ip_network s b = Raise e -> e = ValueError.
Proof.
  unfold ip_network.
  destruct (IPv4Network s b) as [n|e4] eqn:E4; [discriminate|].
  pose proof (IPv4Network_vraise s b e4 E4) as H4.
  destruct (is_address_or_netmask_error e4) eqn:A4.
  - destruct (IPv6Network s b) as [n|e6] eqn:E6; [discriminate|].
    pose proof (IPv6Network_vraise s b e6 E6) as H6.
    destruct (is_address_or_netmask_error e6) eqn:A6; [by intros [= <-]|].
    intros [= <-]. destruct e6; done.
  - intros [= <-]. destruct e4; done.
Qed.

End Raises.

(** ** The fetchers and [main] *)

Section Fetchers.

Lemma add_or_skip_ip_network acc s b :
  add_or_skip acc (ip_network s b) =
  match ip_network s b with
  | Ok (V4, n) => Ok (acc.1 ++ [(V4, n)], acc.2)
  | Ok (V6, n) => Ok (acc.1, acc.2 ++ [(V6, n)])
  | Raise _ => Ok acc
  end.
Proof.
  destruct (ip_network s b) as [[[] n]|e] eqn:E; try done.
  simpl. by rewrite (ip_network_raise _ _ _ E).
Qed.

Lemma add_or_skip_ok acc s b : exists acc', add_or_skip acc (ip_network s b) = Ok acc'.
Proof.
  rewrite add_or_skip_ip_network. destruct (ip_network s b) as [[[] n]|e]; eauto.
Qed.

Lemma ip_network_int_raise z e : ip_network_int z = Raise e -> e = ValueError.
Proof. unfold ip_network_int. repeat case_match; congruence. Qed.

(** [ip_network] on a decoded value raises nothing but [ValueError]. *)
Lemma ip_network_json_raise x b e : ip_network_json x b = Raise e -> e = ValueError.
Proof.
  destruct x; simpl; try congruence; try apply ip_network_int_raise.
  apply ip_network_raise.
Qed.

Lemma add_or_skip_json_ok acc x b : exists acc', add_or_skip acc (ip_network_json x b) = Ok acc'.
Proof.
  destruct (ip_network_json x b) as [[[] n]|e] eqn:E; simpl; eauto.
  rewrite (ip_network_json_raise _ _ _ E). eauto.
Qed.

Lemma add_all_ok l acc : exists r, add_all l acc = Ok r.
Proof.
  revert acc. induction l as [|s l IH]; intros acc; simpl; [eauto|].
  destruct (add_or_skip_json_ok acc s true) as [acc' ->]. apply IH.
Qed.

Lemma noreq_ok {A} (a : A) : noreq (Ok a).
Proof. by intros e. Qed.

Lemma noreq_raise {A} e : e <> RequestException -> noreq (@Raise A e).
Proof. by intros He e' [= <-]. Qed.

Lemma noreq_bind {A B} (m : Exc A) (k : A -> Exc B) :
  noreq m -> (forall a, noreq (k a)) -> noreq (m ≫= k).
Proof.
  intros Hm Hk e. destruct m as [a|e0]; simpl; [apply Hk|].
  intros [= <-]. by apply Hm.
Qed.

Lemma noreq_mapM {A B} (f : A -> Exc B) l :
  (forall x, noreq (f x)) -> noreq (mapM f l).
Proof.
  intros Hf. induction l as [|x l IH]; simpl; [apply noreq_ok|].
  apply noreq_bind; [apply Hf|]. intros b.
  apply noreq_bind; [exact IH|]. intros; apply noreq_ok.
Qed.

Ltac nr_step :=
  first
    [ apply noreq_ok
    | apply noreq_raise; discriminate
    | apply noreq_bind; [|intros ?]
    | case_match ].

Lemma py_get_noreq d k v : noreq (py_get d k v).
Proof. unfold py_get. repeat nr_step. Qed.

Lemma py_getitem_noreq d k : noreq (py_getitem d k).
Proof. unfold py_getitem. repeat nr_step. Qed.

Lemma py_iter_noreq d : noreq (py_iter d).
Proof. unfold py_iter. repeat nr_step. Qed.

Lemma py_contains_noreq k d : noreq (py_contains k d).
Proof. unfold py_contains. repeat nr_step. Qed.

Lemma ip_network_json_noreq x b : noreq (ip_network_json x b).
Proof. intros e He. by rewrite (ip_network_json_raise _ _ _ He). Qed.

Lemma add_all_noreq l acc : noreq (add_all l acc).
Proof. destruct (add_all_ok l acc) as [r ->]. apply noreq_ok. Qed.

Create HintDb noreq.
#[local] Hint Resolve py_get_noreq py_getitem_noreq py_iter_noreq py_contains_noreq
  ip_network_json_noreq add_all_noreq noreq_ok : noreq.

Ltac nr := repeat (nr_step || (apply noreq_mapM; intros ?) || eauto with noreq).

Lemma aws_set_noreq r k1 k2 : noreq (aws_set r k1 k2).
Proof. unfold aws_set. nr. Qed.

Lemma gcp_filter_noreq k l : noreq (gcp_filter k l).
Proof. induction l as [|x l IH]; simpl; nr. Qed.

Lemma gcp_set_noreq r k : noreq (gcp_set r k).
Proof. unfold gcp_set. nr. apply gcp_filter_noreq. Qed.

Lemma add_azure_values_noreq l acc : noreq (add_azure_values l acc).
Proof. revert acc. induction l as [|x l IH]; intros acc; simpl; nr. Qed.

Lemma add_cidrs_noreq l acc : noreq (add_cidrs l acc).
Proof.
  revert acc. induction l as [|x l IH]; intros acc; simpl; [apply noreq_ok|].
  apply noreq_bind; [apply py_getitem_noreq|]. intros c.
  destruct (add_or_skip_json_ok acc c true) as [acc' ->]. simpl. apply IH.
Qed.

Lemma add_oracle_regions_noreq l acc : noreq (add_oracle_regions l acc).
Proof. revert acc. induction l as [|x l IH]; intros acc; simpl; nr. apply add_cidrs_noreq. Qed.

Lemma add_ocean_lines_ok l acc : exists r, add_ocean_lines l acc = Ok r.
Proof.
  revert acc. induction l as [|s l IH]; intros acc; simpl; [eauto|].
  destruct (add_or_skip_ok acc (first_field s) true) as [acc' ->]. apply IH.
Qed.

Lemma linode_record_nil x : ~ linode_record [] x.
Proof. by intros (l & [] & _). Qed.

Lemma linode_record_cons line lines x :
  linode_record (line :: lines) x <->
  (startswith "#" line = false /\ ip_network (first_field line) false = Ok x) \/
  linode_record lines x.
Proof.
  unfold linode_record. split.
  - intros (l & [<-|Hl] & H1 & H2); [by left|right; eauto].
  - intros [[H1 H2]|(l & Hl & H1 & H2)]; [exists line|exists l]; simpl; auto.
Qed.

(** The Linode loop keeps exactly the records of its lines, each in the
    list of its family. *)
Lemma add_linode_lines_spec lines acc :
  exists r, add_linode_lines lines acc = Ok r /\
    forall x, (In x r.1 <-> In x acc.1 \/ (x.1 = V4 /\ linode_record lines x)) /\
              (In x r.2 <-> In x acc.2 \/ (x.1 = V6 /\ linode_record lines x)).
Proof.
  revert acc. induction lines as [|line lines IH]; intros acc; simpl.
  - exists acc. split; [done|]. intros x.
    pose proof (linode_record_nil x). tauto.
  - destruct (startswith "#" line) eqn:Hs; simpl.
    + destruct (IH acc) as (r & Hr & Hin). exists r. split; [done|].
      intros x. rewrite (proj1 (Hin x)), (proj2 (Hin x)), linode_record_cons, Hs.
      assert (~ (true = false)) by done. tauto.
    + rewrite add_or_skip_ip_network.
      destruct (ip_network (first_field line) false) as [[v n]|e] eqn:E.
      * destruct v; [destruct (IH (acc.1 ++ [(V4, n)], acc.2)) as (r & Hr & Hin)
                    |destruct (IH (acc.1, acc.2 ++ [(V6, n)])) as (r & Hr & Hin)];
          exists r; (split; [exact Hr|]); intros x;
          rewrite (proj1 (Hin x)), (proj2 (Hin x)), linode_record_cons, E;
          simpl; rewrite ?in_app_iff; simpl;
          destruct x as [[] m]; simpl;
          (split; split; [intros H|intros H|intros H|intros H]);
          (repeat match goal with
                  | H : _ \/ _ |- _ => destruct H
                  | H : _ /\ _ |- _ => destruct H
                  | H : Ok _ = Ok _ |- _ => injection H as H
                  | H : (_, _) = (_, _) |- _ => injection H as H
                  | H : False |- _ => destruct H
                  end); subst; try discriminate; try tauto.
      * destruct (IH acc) as (r & Hr & Hin). exists r. split; [done|].
        intros x. rewrite (proj1 (Hin x)), (proj2 (Hin x)), linode_record_cons, E.
        assert (~ (Raise e = Ok x)) by done. tauto.
Qed.

Lemma add_linode_lines_ok l acc : exists r, add_linode_lines l acc = Ok r.
Proof. destruct (add_linode_lines_spec l acc) as (r & Hr & _). eauto. Qed.

(** [retry_request] re-raises nothing but the last [RequestException]. *)
Lemma retry_loop_raise {A} (get : nat -> option A) attempt n e :
  retry_loop get attempt n = Raise e -> e = RequestException.
Proof.
  revert attempt. induction n as [|n IH]; intros attempt; simpl; [congruence|].
  destruct (get attempt); [discriminate|apply IH].
Qed.

Lemma retry_request_raise {A} (get : nat -> option A) e :
  retry_request get = Raise e -> e = RequestException.
Proof. apply retry_loop_raise. Qed.

Lemma add_ocean_lines_noreq l acc : noreq (add_ocean_lines l acc).
Proof. destruct (add_ocean_lines_ok l acc) as [r ->]. apply noreq_ok. Qed.

Lemma add_linode_lines_noreq l acc : noreq (add_linode_lines l acc).
Proof. destruct (add_linode_lines_ok l acc) as [r ->]. apply noreq_ok. Qed.

(** No fetcher lets a [RequestException] escape. *)
Lemma fetch_result_noreq e p ex : fetch_result e p = Raise ex -> ex <> RequestException.
Proof.
  destruct p; simpl;
    unfold fetch_aws_ip_ranges, fetch_azure_ip_ranges, fetch_gcp_ip_ranges,
      fetch_digital_ocean_ip_ranges, fetch_oracle_ip_ranges, linode_ip_ranges;
    revert ex; fold (noreq (A := prefix_sets)); repeat nr_step.
  all: first [ apply py_get_noreq | apply py_iter_noreq
             | apply add_azure_values_noreq | apply add_oracle_regions_noreq
             | apply add_ocean_lines_noreq | apply add_linode_lines_noreq ].
Qed.

(** A fetch that failed after all retries contributes empty sets. *)
Lemma fetch_failed_empty e p : fetch_failed e p -> fetch_result e p = Ok ([], []).
Proof.
  destruct p; simpl; unfold request_failed.
  - intros H. unfold fetch_aws_ip_ranges. by rewrite H.
  - unfold fetch_azure_ip_ranges. intros [H|(page & url & H1 & H2 & H3)].
    + by rewrite H.
    + by rewrite H1, H2, H3.
  - intros H. unfold fetch_gcp_ip_ranges. by rewrite H.
  - intros H. unfold fetch_digital_ocean_ip_ranges. by rewrite H.
  - intros H. unfold fetch_oracle_ip_ranges. by rewrite H.
  - intros H. unfold linode_ip_ranges. by rewrite H.
Qed.

Lemma collapse_ipnets_raise sorted l e :
  collapse_ipnets sorted l = Raise e -> e = TypeError \/ e = OutOfFuel.
Proof. unfold collapse_ipnets. repeat case_match; intros Hres; simplify_eq; auto. Qed.

Lemma record_failed_in name r f x :
  In x (record_failed name r f) <-> In x f \/ (x = name /\ r = ([], [])).
Proof.
  destruct r as [[|a l] [|b k]]; simpl; rewrite ?in_app_iff; simpl; naive_solver.
Qed.

(** A run that completes went through six successful fetches, and
    reports the providers with empty results. *)
Lemma main_ok_inv sorted union e r : main sorted union e = Ok r ->
  exists aws azure gcp ocean oracle linode,
    fetch_result e AWS = Ok aws /\ fetch_result e Azure = Ok azure /\
    fetch_result e GCP = Ok gcp /\ fetch_result e DigitalOcean = Ok ocean /\
    fetch_result e Oracle = Ok oracle /\ fetch_result e Linode = Ok linode /\
    failed_providers r =
      record_failed "Linode" linode (record_failed "Oracle" oracle
        (record_failed "DigitalOcean" ocean (record_failed "GCP" gcp
          (record_failed "Azure" azure (record_failed "AWS" aws []))))).
Proof.
  unfold main, mbind, exc_bind, mret, exc_ret.
  repeat case_match; intros Hr; simplify_eq.
  unfold fetch_result. eexists _, _, _, _, _, _. repeat split; eassumption || reflexivity.
Qed.

(** A run that raises does so from a fetcher or from the aggregation. *)
Lemma main_raise_inv sorted union e ex : main sorted union e = Raise ex ->
  (exists p, fetch_result e p = Raise ex) \/ ex = TypeError \/ ex = OutOfFuel.
Proof.
  unfold main, mbind, exc_bind, mret, exc_ret.
  repeat case_match; intros Hr; simplify_eq;
    try (left; first [exists AWS; eassumption | exists Azure; eassumption
                     | exists GCP; eassumption | exists DigitalOcean; eassumption
                     | exists Oracle; eassumption | exists Linode; eassumption]);
    right; eapply collapse_ipnets_raise; eassumption.
Qed.

Lemma main_noreq sorted union e ex : main sorted union e = Raise ex -> ex <> RequestException.
Proof.
  intros H. destruct (main_raise_inv sorted union e ex H) as [[p Hp]|[-> | ->]]; [|done|done].
  by apply (fetch_result_noreq e p).
Qed.

(** What [strict] changes in [ip_network]: host bits are masked off
    (and the scope id goes with them), or raise [ValueError]. *)
Lemma host_bits_check_nonstrict v a sc l :
  host_bits_check v false ((a, sc), l) =
  Ok (mknet (Z.land a (ip_int_from_prefix v l)) l,
      if Z.land a (ip_int_from_prefix v l) =? a then sc else None).
Proof.
  unfold host_bits_check. destruct (Z.land a _ =? a) eqn:E; simpl; [|done].
  apply Z.eqb_eq in E. by rewrite E.
Qed.

Lemma host_bits_check_strict v a sc l :
  Z.land a (ip_int_from_prefix v l) <> a -> host_bits_check v true ((a, sc), l) = Raise ValueError.
Proof.
  intros H. unfold host_bits_check. apply Z.eqb_neq in H. by rewrite H.
Qed.

Lemma ip_network_v4_nonstrict s a l : ipv4_network_parts s = Ok (a, l) ->
  ip_network s false = Ok (V4, plain (mknet (Z.land a (ip_int_from_prefix V4 l)) l)).
Proof.
  intros H. unfold ip_network, IPv4Network. rewrite H.
  change (Ok (a, l) ≫= _) with (host_bits_check V4 false ((a, None), l)).
  rewrite host_bits_check_nonstrict. unfold plain. by destruct (_ =? _).
Qed.

Lemma ip_network_v4_strict s a l : ipv4_network_parts s = Ok (a, l) ->
  Z.land a (ip_int_from_prefix V4 l) <> a -> ip_network s true = Raise ValueError.
Proof.
  intros H Hl. unfold ip_network, IPv4Network. rewrite H.
  change (Ok (a, l) ≫= _) with (host_bits_check V4 true ((a, None), l)).
  by rewrite host_bits_check_strict.
Qed.

Lemma ip_network_v6_nonstrict s e4 a sc l :
  ipv4_network_parts s = Raise e4 -> is_address_or_netmask_error e4 = true ->
  ipv6_network_parts s = Ok ((a, sc), l) ->
  ip_network s false =
  Ok (V6, (mknet (Z.land a (ip_int_from_prefix V6 l)) l,
           if Z.land a (ip_int_from_prefix V6 l) =? a then sc else None)).
Proof.
  intros H4 He H6. unfold ip_network, IPv4Network, IPv6Network. rewrite H4, H6.
  change (Ok ((a, sc), l) ≫= _) with (host_bits_check V6 false ((a, sc), l)).
  change (Raise e4 ≫= ?k) with (@Raise pynet e4).
  rewrite host_bits_check_nonstrict. cbv iota. by rewrite He.
Qed.

Lemma ip_network_v6_strict s e4 a sc l :
  ipv4_network_parts s = Raise e4 -> is_address_or_netmask_error e4 = true ->
  ipv6_network_parts s = Ok ((a, sc), l) ->
  Z.land a (ip_int_from_prefix V6 l) <> a -> ip_network s true = Raise ValueError.
Proof.
  intros H4 He H6 Hl. unfold ip_network, IPv4Network, IPv6Network. rewrite H4, H6.
  change (Ok ((a, sc), l) ≫= _) with (host_bits_check V6 true ((a, sc), l)).
  change (Raise e4 ≫= ?k) with (@Raise pynet e4).
  rewrite host_bits_check_strict by done. cbv iota. by rewrite He.
Qed.

End Fetchers.


(** Every network of a concrete list is valid and has no scope id. *)
Ltac plain_list :=
  let x := fresh "x" in let Hx := fresh "Hx" in
  intros x Hx; simpl in Hx; repeat destruct Hx as [<-|Hx]; try contradiction;
  unfold valid_net; simpl; repeat split; vm_compute; congruence.

(** [fe80:0:0:1::], in [fe80::/63] but in neither [fe80::/64] nor
    [fe80::/65]. *)
Lemma fe80_1_outside : forall n, In n (map fst [ll64; ll64_eth0]) ->
  addr_in_net V6 (fe80 + 2 ^ 64) n = false.
Proof. intros n Hn. simpl in Hn. repeat destruct Hn as [<-|Hn]; try contradiction; vm_compute; reflexivity. Qed.

(** * The claims *)

(** C1 (counterexample): [fe80::/64] and [fe80::%eth0/64] are two
    distinct network objects of the set (equality compares scope ids),
    yet the merge loop takes them for siblings: both have the supernet
    [fe80::/63], and the existing value is not equal to the other one.
    The output [fe80::/63] covers [fe80:0:0:1::], which no input covers.
    [main] does the same with DigitalOcean listing [fe80::/64] and
    Linode [fe80::%eth0/64], in either order of the union. *)
Theorem collapse_scope_breaks_coverage :
  collapse_addresses V6 list_sort [ll64; ll64_eth0] = Some [plain (mknet fe80 63)] /\
  collapse_addresses V6 list_sort [ll64_eth0; ll64] = Some [plain (mknet fe80 63)] /\
  covers V6 (map fst [plain (mknet fe80 63)]) (fe80 + 2 ^ 64) /\
  ~ covers V6 (map fst [ll64; ll64_eth0]) (fe80 + 2 ^ 64) /\
  (exists r, main list_sort (fun ls => concat ls) env_scoped = Ok r /\
     ipv6nets r = [(V6, plain (mknet fe80 63))]) /\
  (exists r, main list_sort (fun ls => rev (concat ls)) env_scoped = Ok r /\
     ipv6nets r = [(V6, plain (mknet fe80 63))]).
Proof.
  split; [vm_compute; reflexivity|]. split; [vm_compute; reflexivity|].
  split; [exists (mknet fe80 63); split; [left; reflexivity|vm_compute; reflexivity]|].
  split; [|split; eexists; split; vm_compute; reflexivity].
  intros (n & Hn & Hm). by rewrite (fe80_1_outside n Hn) in Hm.
Qed.

(** C1 (amended): for every finite list [S] of valid networks of one
    family without scope id, and a sort with the properties of Python's,
    [collapse_addresses] returns networks that cover exactly the
    addresses [S] covers. *)
Theorem collapse_preserves_coverage fam sorted S :
  sort_permutes sorted -> sort_orders sorted ->
  (forall x, In x S -> valid_net fam x.1 /\ x.2 = None) ->
  exists out, collapse_addresses fam sorted S = Some out /\
    forall a, 0 <= a <= ALL_ONES fam -> covers fam (map fst out) a <-> covers fam (map fst S) a.
Proof.
  intros Hp Ho Hv. destruct (collapse_ok fam sorted Hp S Ho Hv) as (out & E & _ & _ & _ & Hc).
  eauto.
Qed.

Lemma collapse_preserves_coverage_witness :
  (forall x, In x (map plain sample_nets) -> valid_net V4 x.1 /\ x.2 = None) /\
  exists out, collapse_addresses V4 list_sort (map plain sample_nets) = Some out /\
    forall a, 0 <= a <= ALL_ONES V4 ->
      covers V4 (map fst out) a <-> covers V4 (map fst (map plain sample_nets)) a.
Proof.
  assert (Hv : forall x, In x (map plain sample_nets) -> valid_net V4 x.1 /\ x.2 = None)
    by plain_list.
  split; [exact Hv|].
  exact (collapse_preserves_coverage V4 list_sort _ list_sort_permutes list_sort_orders Hv).
Defined.

(** C2: whatever their scope ids, the aggregation of valid networks of
    one family contains no two sibling networks at all, so in particular
    no siblings whose parent is absent from it. *)
Theorem collapse_minimal fam sorted S :
  sort_permutes sorted ->
  (forall x, In x S -> valid_net fam x.1) ->
  exists out, collapse_addresses fam sorted S = Some out /\
    forall n m, In n (map fst out) -> In m (map fst out) -> ~ siblings fam n m.
Proof.
  intros Hp Hv. destruct (collapse_some fam sorted Hp S Hv) as (out & D & E & HK & Hsub).
  exists out. split; [done|]. by apply (no_siblings_keys fam D).
Qed.

Lemma collapse_minimal_witness :
  (forall x, In x [ll64; ll64_eth0; ll65] -> valid_net V6 x.1) /\
  exists out, collapse_addresses V6 list_sort [ll64; ll64_eth0; ll65] = Some out /\
    forall n m, In n (map fst out) -> In m (map fst out) -> ~ siblings V6 n m.
Proof.
  assert (Hv : forall x, In x [ll64; ll64_eth0; ll65] -> valid_net V6 x.1).
  { intros x Hx. simpl in Hx. repeat destruct Hx as [<-|Hx]; try contradiction;
      unfold valid_net; simpl; repeat split; vm_compute; congruence. }
  split; [exact Hv|exact (collapse_minimal V6 list_sort _ list_sort_permutes Hv)].
Defined.

(** C3 (counterexample): the set {fe80::/65, fe80::%eth0/64}, which
    CPython iterates as [fe80::%eth0/64, fe80::/65], aggregates to both
    networks: the sort puts [fe80::/65] first (its address differs from
    [fe80::%eth0] by the scope id, and is not less), and the skip pass
    keeps [fe80::%eth0/64] since its broadcast address is larger.  The
    two overlap on [fe80::]. *)
Theorem collapse_scope_overlap :
  collapse_addresses V6 list_sort [ll64_eth0; ll65] = Some [ll65; ll64_eth0] /\
  ~ pairwise_disjoint V6 (map fst [ll65; ll64_eth0]).
Proof.
  split; [vm_compute; reflexivity|].
  intros Hd. apply (Hd (mknet fe80 65) (mknet fe80 64) (or_introl eq_refl)
    (or_intror (or_introl eq_refl)) ltac:(discriminate) fe80); vm_compute.
  - split; discriminate.
  - split; reflexivity.
Qed.

(** C3 (amended): for networks without scope id, no address of the
    family lies in two distinct networks of the aggregation. *)
Theorem collapse_disjoint fam sorted S :
  sort_permutes sorted -> sort_orders sorted ->
  (forall x, In x S -> valid_net fam x.1 /\ x.2 = None) ->
  exists out, collapse_addresses fam sorted S = Some out /\ pairwise_disjoint fam (map fst out).
Proof.
  intros Hp Ho Hv.
  destruct (collapse_ok fam sorted Hp S Ho Hv) as (out & E & _ & (_ & Hd & _) & _ & _). eauto.
Qed.

Lemma collapse_disjoint_witness :
  (forall x, In x (map plain sample_nets) -> valid_net V4 x.1 /\ x.2 = None) /\
  exists out, collapse_addresses V4 list_sort (map plain sample_nets) = Some out /\
    pairwise_disjoint V4 (map fst out).
Proof.
  assert (Hv : forall x, In x (map plain sample_nets) -> valid_net V4 x.1 /\ x.2 = None)
    by plain_list.
  split; [exact Hv|].
  exact (collapse_disjoint V4 list_sort _ list_sort_permutes list_sort_orders Hv).
Defined.

(** C4 (counterexample): the aggregation [fe80::/65, fe80::%eth0/64] of
    the set of C3 aggregates again to [fe80::%eth0/64] alone. *)
Theorem collapse_scope_not_idempotent :
  collapse_addresses V6 list_sort [ll64_eth0; ll65] = Some [ll65; ll64_eth0] /\
  collapse_addresses V6 list_sort [ll65; ll64_eth0] = Some [ll64_eth0].
Proof. split; vm_compute; reflexivity. Qed.

(** C4 (amended): for networks without scope id, aggregating the
    aggregation returns it unchanged, as the same list. *)
Theorem collapse_idempotent fam sorted S :
  sort_permutes sorted -> sort_orders sorted ->
  (forall x, In x S -> valid_net fam x.1 /\ x.2 = None) ->
  exists out, collapse_addresses fam sorted S = Some out /\
    collapse_addresses fam sorted out = Some out.
Proof.
  intros Hp Ho Hv. destruct (collapse_ok fam sorted Hp S Ho Hv) as (out & E & N & C & Ss & _).
  exists out. split; [done|].
  assert (Vo : forall x, In x out -> valid_net fam x.1 /\ x.2 = None).
  { intros x Hx. split; [apply (proj1 C); by apply in_map|by apply N]. }
  destruct (collapse_ok fam sorted Hp out Ho Vo) as (out' & E' & N' & C' & Ss' & Cov').
  rewrite E'. f_equal. apply plain_list_eq; [done|done|].
  by apply (canonical_sorted_eq fam).
Qed.

Lemma collapse_idempotent_witness :
  (forall x, In x (map plain sample_nets) -> valid_net V4 x.1 /\ x.2 = None) /\
  exists out, collapse_addresses V4 list_sort (map plain sample_nets) = Some out /\
    collapse_addresses V4 list_sort out = Some out.
Proof.
  assert (Hv : forall x, In x (map plain sample_nets) -> valid_net V4 x.1 /\ x.2 = None)
    by plain_list.
  split; [exact Hv|].
  exact (collapse_idempotent V4 list_sort _ list_sort_permutes list_sort_orders Hv).
Defined.

(** C5 (counterexample): the two enumerations of {fe80::/65,
    fe80::%eth0/64} aggregate to different results. *)
Theorem collapse_scope_order_dependent :
  collapse_addresses V6 list_sort [ll65; ll64_eth0] = Some [ll64_eth0] /\
  collapse_addresses V6 list_sort [ll64_eth0; ll65] = Some [ll65; ll64_eth0].
Proof. split; vm_compute; reflexivity. Qed.

(** C5 (amended): two enumerations of the same valid networks without
    scope id (one a permutation of the other) aggregate to the same
    list, with any two sorts that have the properties of Python's. *)
Theorem collapse_order_independent fam sorted1 sorted2 S1 S2 :
  sort_permutes sorted1 -> sort_orders sorted1 ->
  sort_permutes sorted2 -> sort_orders sorted2 ->
  (forall x, In x S1 -> valid_net fam x.1 /\ x.2 = None) -> S1 ≡ₚ S2 ->
  exists out, collapse_addresses fam sorted1 S1 = Some out /\
    collapse_addresses fam sorted2 S2 = Some out.
Proof.
  intros P1 O1 P2 O2 Hv HP. destruct (collapse_ok fam sorted1 P1 S1 O1 Hv) as (out & E & _).
  exists out. split; [done|].
  rewrite <- (collapse_perm fam sorted1 sorted2 S1 S2 P1 O1 P2 O2 Hv HP). done.
Qed.

Lemma collapse_order_independent_witness :
  (forall x, In x (map plain sample_nets) -> valid_net V4 x.1 /\ x.2 = None) /\
  map plain sample_nets ≡ₚ rev (map plain sample_nets) /\
  exists out, collapse_addresses V4 list_sort (map plain sample_nets) = Some out /\
    collapse_addresses V4 list_sort (rev (map plain sample_nets)) = Some out.
Proof.
  assert (Hv : forall x, In x (map plain sample_nets) -> valid_net V4 x.1 /\ x.2 = None)
    by plain_list.
  assert (HP : map plain sample_nets ≡ₚ rev (map plain sample_nets)) by (apply Permutation_rev).
  split; [exact Hv|split; [exact HP|]].
  exact (collapse_order_independent V4 list_sort list_sort _ _ list_sort_permutes
    list_sort_orders list_sort_permutes list_sort_orders Hv HP).
Defined.

(** C6: with a sort that has the properties of Python's, every
    enumeration of 10.0.0.0/24, 10.0.1.0/24 and 10.0.3.0/24 aggregates
    to 10.0.0.0/23 and 10.0.3.0/24. *)
Theorem scenario4_collapse sorted S :
  sort_permutes sorted -> sort_orders sorted ->
  S ≡ₚ map plain scenario4 -> collapse_addresses V4 sorted S = Some (map plain scenario4_out).
Proof.
  intros Hp Ho HP.
  assert (Hv : forall x, In x (map plain scenario4) -> valid_net V4 x.1 /\ x.2 = None)
    by plain_list.
  rewrite <- (collapse_perm V4 list_sort sorted (map plain scenario4) S list_sort_permutes
    list_sort_orders Hp Ho Hv (symmetry HP)).
  vm_compute. reflexivity.
Qed.

Lemma scenario4_collapse_witness :
  map plain [mknet (ip4 10 0 3 0) 24; mknet (ip4 10 0 0 0) 24; mknet (ip4 10 0 1 0) 24]
    ≡ₚ map plain scenario4 /\
  collapse_addresses V4 list_sort
    (map plain [mknet (ip4 10 0 3 0) 24; mknet (ip4 10 0 0 0) 24; mknet (ip4 10 0 1 0) 24])
  = Some (map plain scenario4_out).
Proof.
  assert (HP : map plain [mknet (ip4 10 0 3 0) 24; mknet (ip4 10 0 0 0) 24; mknet (ip4 10 0 1 0) 24]
               ≡ₚ map plain scenario4) by exact (Permutation_cons_append
                    (map plain [mknet (ip4 10 0 0 0) 24; mknet (ip4 10 0 1 0) 24])
                    (plain (mknet (ip4 10 0 3 0) 24))).
  split; [exact HP|exact (scenario4_collapse list_sort _ list_sort_permutes list_sort_orders HP)].
Defined.

(** C7: on a list of valid networks of one family, whatever their scope
    ids, the aggregation step of [main] returns a list and raises
    nothing. *)
Theorem collapse_total v sorted (l : list ipnet) :
  sort_permutes sorted ->
  (forall x, In x l -> x.1 = v /\ valid_net v x.2.1) ->
  exists out, collapse_ipnets sorted l = Ok out.
Proof.
  intros Hp Hl. destruct l as [|[w n] l']; [by exists []|].
  assert (Hw : w = v) by (apply (Hl (w, n)); by left). subst w.
  unfold collapse_ipnets. cbv beta iota.
  destruct (forallb _ _) eqn:Hf.
  2:{ exfalso. revert Hf. apply Bool.not_false_iff_true, forallb_forall.
      intros x Hx. rewrite (proj1 (Hl x Hx)). by destruct v. }
  destruct (collapse_some v sorted Hp (map snd (@cons ipnet (v, n) l'))) as (out & D & Ho & _).
  { intros m Hm. apply in_map_iff in Hm as (x & <- & Hx). apply (Hl x Hx). }
  rewrite Ho. eauto.
Qed.

Lemma collapse_total_witness :
  (forall x, In x (map (pair V6) [ll64; ll64_eth0; ll65]) -> x.1 = V6 /\ valid_net V6 x.2.1) /\
  exists out, collapse_ipnets list_sort (map (pair V6) [ll64; ll64_eth0; ll65]) = Ok out.
Proof.
  assert (Hv : forall x, In x (map (pair V6) [ll64; ll64_eth0; ll65]) ->
                 x.1 = V6 /\ valid_net V6 x.2.1).
  { intros x Hx. simpl in Hx. repeat destruct Hx as [<-|Hx]; try contradiction;
      (split; [reflexivity|]); unfold valid_net; simpl; repeat split; vm_compute; congruence. }
  split; [exact Hv|exact (collapse_total V6 list_sort _ list_sort_permutes Hv)].
Defined.

(** C8: a malformed prefix string in the AWS document makes
    [fetch_aws_ip_ranges] raise [ValueError], which aborts [main]; the
    same holds for GCP, while DigitalOcean skips the malformed line and
    keeps the good one. *)
Theorem malformed_prefix_aborts_aws :
  fetch_aws_ip_ranges (fun _ => Some (Some aws_doc_malformed)) = Raise ValueError /\
  (forall sorted union, main sorted union env_malformed_aws = Raise ValueError) /\
  fetch_gcp_ip_ranges (fun _ => Some (Some gcp_doc_malformed)) = Raise ValueError /\
  fetch_digital_ocean_ip_ranges (fun _ => Some ocean_text_malformed)
  = Ok ([(V4, plain (mknet (ip4 10 0 0 0) 8))], []).
Proof. repeat split; intros; vm_compute; reflexivity. Qed.

(** C9 (counterexample): GCP answers at its first attempt with a document
    without prefixes, so its fetch did not fail, yet the run completes and
    reports GCP among the failed providers. *)
Theorem failure_report_includes_empty_provider :
  ~ fetch_failed env_empty_gcp GCP /\
  fetch_result env_empty_gcp GCP = Ok ([], []) /\
  exists r, main list_sort (fun ls => concat ls) env_empty_gcp = Ok r /\
    In "GCP"%string (failed_providers r).
Proof.
  split; [|split].
  - unfold fetch_failed, request_failed. vm_compute. discriminate.
  - vm_compute. reflexivity.
  - eexists. split; [vm_compute; reflexivity|].
    simpl. repeat (first [left; reflexivity | right]).
Qed.

(** C9 (amended): a fetch that fails after all retries contributes empty
    sets and no [RequestException] escapes [main]; the report of a
    completed run lists exactly the providers whose fetch returned no
    prefixes at all, whether it failed or the provider answered with
    none. *)
Theorem failure_report_lists_empty_providers sorted union e :
  (forall p, fetch_failed e p -> fetch_result e p = Ok ([], [])) /\
  (forall ex, main sorted union e = Raise ex -> ex <> RequestException) /\
  (forall r, main sorted union e = Ok r -> forall p,
     In (provider_name p) (failed_providers r) <-> fetch_result e p = Ok ([], [])).
Proof.
  split; [apply fetch_failed_empty|split; [apply main_noreq|]].
  intros r Hr p.
  destruct (main_ok_inv sorted union e r Hr)
    as (aws & azure & gcp & ocean & oracle & linode & E1 & E2 & E3 & E4 & E5 & E6 & Ef).
  rewrite Ef, !record_failed_in.
  destruct p;
    [rewrite E1|rewrite E2|rewrite E3|rewrite E4|rewrite E5|rewrite E6];
    unfold provider_name;
    (split; [intros H; repeat destruct H as [H|H]; try contradiction;
             destruct H as [H1 H2]; try discriminate H1; by subst
            |intros [= ->]; tauto]).
Qed.

Lemma failure_report_lists_empty_providers_witness :
  exists r, main list_sort (fun ls => concat ls) env_empty_gcp = Ok r /\
    (In (provider_name GCP) (failed_providers r) <->
     fetch_result env_empty_gcp GCP = Ok ([], [])).
Proof.
  destruct (failure_report_lists_empty_providers list_sort (fun ls => concat ls) env_empty_gcp)
    as (_ & _ & H).
  eexists. split; [vm_compute; reflexivity|].
  apply H. vm_compute. reflexivity.
Defined.

(** C10: once its request succeeds, [linode_ip_ranges] returns the
    networks of the lines not starting with ["#"], parsed with
    [strict=False], each in the list of its family; a line whose address
    has host bits set contributes its network with these bits cleared
    (and, for IPv6, without its scope id), where [strict=True] (the other
    fetchers) raises [ValueError]. *)
Theorem linode_ip_ranges_masks_host_bits get text :
  retry_request get = Ok text ->
  exists v4 v6, linode_ip_ranges get = Ok (v4, v6) /\
    (forall x, In x v4 <-> x.1 = V4 /\ linode_record (splitlines text) x) /\
    (forall x, In x v6 <-> x.1 = V6 /\ linode_record (splitlines text) x) /\
    (forall line a l, In line (splitlines text) -> startswith "#" line = false ->
       ipv4_network_parts (first_field line) = Ok (a, l) ->
       In (V4, plain (mknet (Z.land a (ip_int_from_prefix V4 l)) l)) v4 /\
       (Z.land a (ip_int_from_prefix V4 l) <> a ->
        ip_network (first_field line) true = Raise ValueError)) /\
    (forall line e4 a sc l, In line (splitlines text) -> startswith "#" line = false ->
       ipv4_network_parts (first_field line) = Raise e4 ->
       is_address_or_netmask_error e4 = true ->
       ipv6_network_parts (first_field line) = Ok ((a, sc), l) ->
       In (V6, (mknet (Z.land a (ip_int_from_prefix V6 l)) l,
                if Z.land a (ip_int_from_prefix V6 l) =? a then sc else None)) v6 /\
       (Z.land a (ip_int_from_prefix V6 l) <> a ->
        ip_network (first_field line) true = Raise ValueError)).
Proof.
  intros H. unfold linode_ip_ranges. rewrite H.
  destruct (add_linode_lines_spec (splitlines text) ([], [])) as ([v4 v6] & Hr & Hin).
  simpl in Hin. exists v4, v6. split; [done|].
  assert (H4 : forall x, In x v4 <-> x.1 = V4 /\ linode_record (splitlines text) x).
  { intros x. rewrite (proj1 (Hin x)). tauto. }
  assert (H6 : forall x, In x v6 <-> x.1 = V6 /\ linode_record (splitlines text) x).
  { intros x. rewrite (proj2 (Hin x)). tauto. }
  split; [exact H4|split; [exact H6|split]].
  - intros line a l Hl Hs Hp. split.
    + apply H4. split; [done|]. exists line. split; [done|split; [done|]].
      by apply ip_network_v4_nonstrict.
    + by apply ip_network_v4_strict.
  - intros line e4 a sc l Hl Hs Hp4 He Hp6. split.
    + apply H6. split; [done|]. exists line. split; [done|split; [done|]].
      by apply (ip_network_v6_nonstrict _ e4).
    + by apply (ip_network_v6_strict _ e4 a sc).
Qed.

Lemma linode_ip_ranges_masks_host_bits_witness :
  retry_request (fun _ : nat => Some linode_sample) = Ok linode_sample /\
  exists v4 v6, linode_ip_ranges (fun _ => Some linode_sample) = Ok (v4, v6) /\
    In (V4, plain (mknet (ip4 10 0 0 0) 24)) v4.
Proof.
  assert (Hg : retry_request (fun _ : nat => Some linode_sample) = Ok linode_sample)
    by reflexivity.
  split; [exact Hg|].
  destruct (linode_ip_ranges_masks_host_bits _ _ Hg) as (v4 & v6 & Hr & _ & _ & Hm4 & _).
  exists v4, v6. split; [exact Hr|].
  refine (proj1 (Hm4 ("10.0.0.1/24,US")%string (ip4 10 0 0 1) 24 _ _ _)).
  - vm_compute. right. left. reflexivity.
  - reflexivity.
  - vm_compute. reflexivity.
Defined.

(** ** The networks [ip_network] returns are well formed *)

Section Wellformed.

Lemma mapM_ok {A B} (f : A -> Exc B) l bs :
  mapM f l = Ok bs -> Forall2 (fun x y => f x = Ok y) l bs.
Proof.
  revert bs. induction l as [|x l IH]; intros bs; simpl.
  - intros [= <-]. constructor.
  - destruct (f x) as [y|e] eqn:Ef; simpl; [|discriminate].
    destruct (mapM f l) as [ys|e] eqn:El; simpl; [|discriminate].
    intros [= <-]. constructor; auto.
Qed.

Lemma digits_dec_value_acc acc s :
  0 <= acc -> forallb is_ascii_digit (list_ascii_of_string s) = true ->
  0 <= dec_value_acc acc s.
Proof.
  revert acc. induction s as [|c s IH]; intros acc Ha; simpl; [done|].
  intros [Hc Hs]%andb_true_iff. apply IH; [|done].
  unfold is_ascii_digit in Hc. apply andb_true_iff in Hc as [H1 H2].
  apply Nat.leb_le in H1. lia.
Qed.

Lemma parse_octet_range s b : parse_octet s = Ok b -> 0 <= b <= 255.
Proof.
  unfold parse_octet.
  destruct (String.eqb s "") eqn:E0; [discriminate|].
  destruct (ascii_digits s) eqn:E1; [|discriminate]. simpl.
  destruct (3 <? String.length s)%nat; [discriminate|].
  destruct (negb _ && _); [discriminate|].
  destruct (255 <? dec_value s) eqn:E2; [discriminate|]. intros [= <-].
  apply Z.ltb_ge in E2. split; [|lia].
  destruct s as [|c s]; [discriminate|]. apply digits_dec_value_acc; [lia|exact E1].
Qed.

Lemma ip4_int_from_string_range s x :
  ip4_int_from_string s = Ok x -> 0 <= x <= ALL_ONES V4.
Proof.
  unfold ip4_int_from_string.
  destruct (String.eqb s "") eqn:E0; [discriminate|]. simpl.
  destruct (length (split_on "." s) =? 4)%nat eqn:E1; [|discriminate]. simpl.
  destruct (mapM parse_octet (split_on "." s)) as [bs|e] eqn:E2;
    [|destruct (is_value_error e); discriminate].
  intros [= <-]. apply mapM_ok in E2.
  pose proof (Forall2_length _ _ _ E2) as Hlen. apply Nat.eqb_eq in E1.
  destruct (split_on "." s) as [|o0 [|o1 [|o2 [|o3 [|o4 os]]]]]; try discriminate.
  inversion E2 as [|? b0 ? bs0 P0 E2a]; subst.
  inversion E2a as [|? b1 ? bs1 P1 E2b]; subst.
  inversion E2b as [|? b2 ? bs2 P2 E2c]; subst.
  inversion E2c as [|? b3 ? bs3 P3 E2d]; subst.
  inversion E2d; subst.
  apply parse_octet_range in P0, P1, P2, P3. unfold ALL_ONES. simpl. lia.
Qed.

Lemma ipv4_address_range s x : ipv4_address s = Ok x -> 0 <= x <= ALL_ONES V4.
Proof.
  unfold ipv4_address. destruct (str_contains "/" s); [discriminate|].
  apply ip4_int_from_string_range.
Qed.

Lemma prefix_from_prefix_string_range v s p :
  prefix_from_prefix_string v s = Ok p -> 0 <= p <= max_prefixlen v.
Proof.
  unfold prefix_from_prefix_string.
  destruct (ascii_digits s); [|discriminate]. simpl.
  destruct (_ && _) eqn:E; [|discriminate]. intros [= <-].
  apply andb_true_iff in E as [E1 E2]. apply Z.leb_le in E1, E2. lia.
Qed.

Lemma prefix_from_ip_int_range v x p :
  0 <= x -> prefix_from_ip_int v x = Ok p -> 0 <= p <= max_prefixlen v.
Proof.
  intros Hx. unfold prefix_from_ip_int.
  destruct (negb _); [discriminate|]. intros [= <-].
  pose proof (crzb_facts v x Hx) as [H _]. lia.
Qed.

Lemma prefix_from_ip_string_range s p :
  prefix_from_ip_string s = Ok p -> 0 <= p <= 32.
Proof.
  unfold prefix_from_ip_string.
  destruct (ip4_int_from_string s) as [x|e] eqn:E; [|destruct e; discriminate].
  apply ip4_int_from_string_range in E.
  destruct (prefix_from_ip_int V4 x) as [p'|e] eqn:E1.
  - intros [= <-]. apply (prefix_from_ip_int_range V4 x); [lia|done].
  - destruct (is_value_error e); [|discriminate].
    destruct (prefix_from_ip_int V4 (Z.lxor x (ALL_ONES V4))) as [p'|e'] eqn:E2;
      [|destruct (is_value_error e'); discriminate].
    intros [= <-]. apply (prefix_from_ip_int_range V4 (Z.lxor x (ALL_ONES V4))); [|done].
    apply Z.lxor_nonneg. unfold ALL_ONES in *. simpl in *. lia.
Qed.

Lemma make_netmask4_range m p : make_netmask4 m = Ok p -> 0 <= p <= 32.
Proof.
  unfold make_netmask4. destruct m as [q|s].
  - destruct (_ && _) eqn:E; [|discriminate]. intros [= <-].
    apply andb_true_iff in E as [E1 E2]. apply Z.leb_le in E1, E2. lia.
  - destruct (prefix_from_prefix_string V4 s) as [q|[]] eqn:E; try discriminate.
    + intros [= <-]. apply (prefix_from_prefix_string_range V4 s q E).
    + apply prefix_from_ip_string_range.
Qed.

Lemma make_netmask6_range m p : make_netmask6 m = Ok p -> 0 <= p <= 128.
Proof.
  unfold make_netmask6. destruct m as [q|s].
  - destruct (_ && _) eqn:E; [|discriminate]. intros [= <-].
    apply andb_true_iff in E as [E1 E2]. apply Z.leb_le in E1, E2. lia.
  - apply (prefix_from_prefix_string_range V6).
Qed.

Lemma hex_digit_value_range c d : hex_digit_value c = Some d -> 0 <= d < 16.
Proof.
  unfold hex_digit_value.
  destruct ((48 <=? _) && _) eqn:E1;
    [intros [= <-]; apply andb_true_iff in E1 as [A B]; apply Z.leb_le in A, B; lia|].
  destruct ((97 <=? _) && _) eqn:E2;
    [intros [= <-]; apply andb_true_iff in E2 as [A B]; apply Z.leb_le in A, B; lia|].
  destruct ((65 <=? _) && _) eqn:E3;
    [intros [= <-]; apply andb_true_iff in E3 as [A B]; apply Z.leb_le in A, B; lia|].
  discriminate.
Qed.

Lemma hex_value_acc_range acc s :
  0 <= acc -> forallb is_hex_digit (list_ascii_of_string s) = true ->
  0 <= hex_value_acc acc s < (acc + 1) * 16 ^ Z.of_nat (String.length s).
Proof.
  revert acc. induction s as [|c s IH]; intros acc Ha; simpl; [lia|].
  intros [Hc Hs]%andb_true_iff. unfold is_hex_digit in Hc.
  destruct (hex_digit_value c) as [d|] eqn:Ed; [|discriminate].
  apply hex_digit_value_range in Ed.
  specialize (IH (acc * 16 + d) ltac:(lia) Hs).
  rewrite Nat2Z.inj_succ, Z.pow_succ_r by lia.
  assert (0 < 16 ^ Z.of_nat (String.length s)) by (apply Z.pow_pos_nonneg; lia).
  split; [lia|]. nia.
Qed.

Lemma parse_hextet_range s h : parse_hextet s = Ok h -> 0 <= h < 2 ^ 16.
Proof.
  unfold parse_hextet.
  destruct (forallb is_hex_digit _) eqn:E1; [|discriminate]. simpl.
  destruct (4 <? String.length s)%nat eqn:E2; [discriminate|].
  destruct (String.eqb s ""); [discriminate|]. intros [= <-].
  apply Nat.ltb_ge in E2.
  pose proof (hex_value_acc_range 0 s ltac:(lia) E1) as [H1 H2].
  split; [lia|].
  assert (16 ^ Z.of_nat (String.length s) <= 16 ^ 4)
    by (apply Z.pow_le_mono_r; lia).
  change (2 ^ 16) with (16 ^ 4). lia.
Qed.

Lemma lor_shiftl_16 a h : 0 <= h < 2 ^ 16 -> Z.lor (Z.shiftl a 16) h = a * 2 ^ 16 + h.
Proof.
  intros Hh. rewrite <- Z.shiftl_mul_pow2 by lia.
  rewrite <- Z.add_lor_land.
  assert (Hl : Z.land (Z.shiftl a 16) h = 0).
  { apply Z.bits_inj'. intros i Hi. rewrite Z.land_spec, Z.bits_0.
    destruct (Z.lt_ge_cases i 16).
    - rewrite Z.shiftl_spec_low by lia. done.
    - rewrite <- (Z.mod_small h (2 ^ 16)) by lia.
      rewrite Z.mod_pow2_bits_high by lia. apply andb_false_r. }
  rewrite Hl. lia.
Qed.

Lemma parse_hextets_range acc l r :
  0 <= acc -> parse_hextets acc l = Ok r ->
  0 <= r < (acc + 1) * 2 ^ (16 * Z.of_nat (length l)).
Proof.
  revert acc. induction l as [|p l IH]; intros acc Ha; simpl.
  - intros [= <-]. change (2 ^ (16 * Z.of_nat 0)) with 1. lia.
  - destruct (parse_hextet p) as [h|e] eqn:Eh; simpl; [|discriminate].
    apply parse_hextet_range in Eh. rewrite lor_shiftl_16 by done.
    intros Hr. specialize (IH (acc * 2 ^ 16 + h) ltac:(lia) Hr).
    replace (16 * Z.of_nat (S (length l))) with (16 + 16 * Z.of_nat (length l)) by lia.
    rewrite Z.pow_add_r by lia.
    assert (0 < 2 ^ (16 * Z.of_nat (length l))) by (apply Z.pow_pos_nonneg; lia).
    change (2 ^ 16) with 65536 in *. nia.
Qed.

Lemma skip_scan_range l i o j :
  skip_scan l i o = Ok (Some j) -> o = Some j \/ i <= j < i + Z.of_nat (length l).
Proof.
  revert i o. induction l as [|p l IH]; intros i o; simpl.
  - intros [= ->]. by left.
  - destruct (String.eqb p "").
    + destruct o as [k|]; [discriminate|].
      intros H. destruct (IH _ _ H) as [[= ->]|H']; right; lia.
    + intros H. destruct (IH _ _ H) as [->|H']; [by left|right; lia].
Qed.

Lemma ip6_int_from_string_range s x :
  ip6_int_from_string s = Ok x -> 0 <= x <= ALL_ONES V6.
Proof.
  unfold ip6_int_from_string.
  destruct (String.eqb s "") eqn:E0; [discriminate|]. simpl.
  destruct (length (split_on ":" s) <? 3)%nat eqn:E1; [discriminate|]. simpl.
  set (parts0 := split_on ":" s).
  match goal with |- (?m ≫= _) = _ -> _ => destruct m as [parts|e] eqn:Ep end;
    simpl; [|discriminate].
  set (len := Z.of_nat (length parts)).
  destruct (HEXTET_COUNT + 1 <? len) eqn:E2; [discriminate|]. simpl.
  apply Z.ltb_ge in E2. unfold HEXTET_COUNT in E2.
  destruct (skip_scan _ 1 None) as [o|e] eqn:Es; simpl; [|discriminate].
  set (T := match o with Some i => _ | None => _ end).
  destruct T as [[[hi lo] sk]|e] eqn:ET; simpl; [|discriminate].
  destruct (parse_hextets 0 (firstn (Z.to_nat hi) parts)) as [h|e] eqn:Eh; simpl;
    [|destruct (is_value_error e); discriminate].
  destruct (parse_hextets (Z.shiftl h (16 * sk)) _) as [r|e] eqn:Er;
    [|destruct (is_value_error e); discriminate].
  intros [= <-].
  (* the counts of parsed and skipped hextets add up to at most 8 *)
  assert (Hc : 0 <= hi /\ 0 <= lo /\ 0 <= sk /\ hi + lo + sk <= 8).
  { subst T. destruct o as [i|].
    - apply skip_scan_range in Es as [Es|Es]; [discriminate|].
      rewrite length_firstn, length_tl in Es.
      repeat (match type of ET with context [if ?c then _ else _] =>
                let E := fresh "Eb" in destruct c eqn:E end;
              simpl in ET; try discriminate);
      injection ET as <- <- <-; rewrite ?negb_false_iff, ?Z.eqb_eq, ?Z.ltb_ge in *;
      unfold HEXTET_COUNT in *; lia.
    - simpl in ET.
      repeat (match type of ET with context [if ?c then _ else _] =>
                let E := fresh "Eb" in destruct c eqn:E end;
              simpl in ET; try discriminate).
      injection ET as <- <- <-. apply negb_false_iff, Z.eqb_eq in Eb. unfold len, HEXTET_COUNT in *. lia. }
  apply parse_hextets_range in Eh as [Eh1 Eh2]; [|lia].
  rewrite length_firstn in Eh2.
  rewrite Z.shiftl_mul_pow2 in Er by lia.
  apply parse_hextets_range in Er as [Er1 Er2]; [|nia].
  rewrite length_skipn in Er2.
  set (a := Z.of_nat (Nat.min (Z.to_nat hi) (length parts))) in *.
  set (b := Z.of_nat (length parts - (length parts - Z.to_nat lo))) in *.
  assert (Ha : 0 <= a <= hi) by lia.
  assert (Hb : 0 <= b <= lo) by lia.
  unfold ALL_ONES. simpl max_prefixlen.
  assert (P1 : 0 < 2 ^ (16 * a)) by (apply Z.pow_pos_nonneg; lia).
  assert (P2 : 0 < 2 ^ (16 * sk)) by (apply Z.pow_pos_nonneg; lia).
  assert (P3 : 0 < 2 ^ (16 * b)) by (apply Z.pow_pos_nonneg; lia).
  assert (Hle : 2 ^ (16 * a) * 2 ^ (16 * sk) * 2 ^ (16 * b) <= 2 ^ 128).
  { rewrite <- !Z.pow_add_r by lia. apply Z.pow_le_mono_r; lia. }
  set (A := 2 ^ (16 * a)) in *. set (S := 2 ^ (16 * sk)) in *.
  set (B := 2 ^ (16 * b)) in *.
  assert (Q1 : h * S + 1 <= A * S) by nia.
  assert (Q2 : (h * S + 1) * B <= A * S * B) by (apply Z.mul_le_mono_nonneg_r; lia).
  split; [done|]. lia.
Qed.

Lemma ipv6_address_range s x sc :
  ipv6_address s = Ok (x, sc) -> 0 <= x <= ALL_ONES V6.
Proof.
  unfold ipv6_address. destruct (str_contains "/" s); [discriminate|].
  destruct (split_scope_id s) as [[a sc']|e]; simpl; [|discriminate].
  destruct (ip6_int_from_string a) as [y|e] eqn:Ey; simpl; [|discriminate].
  intros [= <- _]. by apply ip6_int_from_string_range in Ey.
Qed.

Lemma land_mask_le a m : 0 <= a -> 0 <= Z.land a m <= a.
Proof.
  intros Ha. split; [apply Z.land_nonneg; by left|].
  pose proof (Z.sub_land_same_l a m).
  assert (0 <= Z.land a (Z.lnot m)) by (apply Z.land_nonneg; by left). lia.
Qed.

Lemma host_bits_check_valid v b a sc l n :
  0 <= a <= ALL_ONES v -> 0 <= l <= max_prefixlen v ->
  host_bits_check v b ((a, sc), l) = Ok n -> valid_net v n.1.
Proof.
  intros Ha Hl. unfold host_bits_check.
  destruct (Z.land a (ip_int_from_prefix v l) =? a) eqn:E; simpl.
  - intros [= <-]. apply Z.eqb_eq in E. unfold valid_net, netmask. simpl. lia.
  - destruct b; [discriminate|]. intros [= <-].
    pose proof (land_mask_le a (ip_int_from_prefix v l) ltac:(lia)).
    unfold valid_net, netmask. simpl. split; [lia|split; [lia|]].
    by rewrite <- Z.land_assoc, Z.land_diag.
Qed.

Lemma split_addr_prefix_mask v s a m :
  split_addr_prefix v s = Ok (a, m) ->
  m = MaskInt (max_prefixlen v) \/ exists t, m = MaskStr t.
Proof.
  unfold split_addr_prefix. destruct (2 <? length _)%nat; [discriminate|].
  repeat case_match; intros [= <- <-]; eauto.
Qed.

(** Every network [ip_network] returns is a well-formed network of its
    family. *)
Lemma ip_network_valid s b v n : ip_network s b = Ok (v, n) -> valid_net v n.1.
Proof.
  unfold ip_network.
  assert (H4 : forall n', IPv4Network s b = Ok n' -> valid_net V4 n'.1).
  { unfold IPv4Network, ipv4_network_parts. intros n'.
    destruct (split_addr_prefix V4 s) as [[a m]|e]; simpl; [|discriminate].
    destruct (ipv4_address a) as [x|e] eqn:Ex; simpl; [|discriminate].
    destruct (make_netmask4 m) as [l|e] eqn:El; simpl; [|discriminate].
    apply host_bits_check_valid.
    - by apply ipv4_address_range in Ex.
    - apply make_netmask4_range in El. simpl. lia. }
  assert (H6 : forall n', IPv6Network s b = Ok n' -> valid_net V6 n'.1).
  { unfold IPv6Network, ipv6_network_parts. intros n'.
    destruct (split_addr_prefix V6 s) as [[a m]|e]; simpl; [|discriminate].
    destruct (ipv6_address a) as [[x sc]|e] eqn:Ex; simpl; [|discriminate].
    destruct (make_netmask6 m) as [l|e] eqn:El; simpl; [|discriminate].
    apply host_bits_check_valid.
    - by apply ipv6_address_range in Ex.
    - apply make_netmask6_range in El. simpl. lia. }
  destruct (IPv4Network s b) as [n4|e4] eqn:E4.
  - intros [= <- <-]. by apply H4.
  - destruct (is_address_or_netmask_error e4); [|discriminate].
    destruct (IPv6Network s b) as [n6|e6] eqn:E6.
    + intros [= <- <-]. by apply H6.
    + destruct (is_address_or_netmask_error e6); discriminate.
Qed.

End Wellformed.

(** ** Retries, lines and fields *)

Section Text.

Lemma retry_loop_ok {A} (get : nat -> option A) a n r :
  retry_loop get a n = Ok r <->
  exists k, (a <= k < a + n)%nat /\ get k = Some r /\ forall j, (a <= j < k)%nat -> get j = None.
Proof.
  revert a. induction n as [|n IH]; intros a; simpl.
  - split; [discriminate|]. intros (k & Hk & _). lia.
  - destruct (get a) as [r'|] eqn:Ea.
    + split.
      * intros [= <-]. exists a. split; [lia|split; [done|]]. intros j Hj. lia.
      * intros (k & Hk & Hg & Hj). destruct (Nat.eq_dec k a) as [->|Hne]; [congruence|].
        rewrite Hj in Ea by lia. discriminate.
    + rewrite IH. split.
      * intros (k & Hk & Hg & Hj). exists k. split; [lia|split; [done|]].
        intros j Hj'. destruct (Nat.eq_dec j a) as [->|]; [done|]. apply Hj. lia.
      * intros (k & Hk & Hg & Hj). destruct (Nat.eq_dec k a) as [->|Hne]; [congruence|].
        exists k. split; [lia|split; [done|]]. intros j Hj'. apply Hj. lia.
Qed.

Lemma retry_loop_raise_iff {A} (get : nat -> option A) a n e :
  retry_loop get a n = Raise e <->
  e = RequestException /\ forall j, (a <= j < a + n)%nat -> get j = None.
Proof.
  revert a. induction n as [|n IH]; intros a; simpl.
  - split; [intros [= <-]; split; [done|]; intros; lia|intros [-> _]; done].
  - destruct (get a) as [r'|] eqn:Ea.
    + split; [discriminate|]. intros [_ H]. rewrite H in Ea by lia. discriminate.
    + rewrite IH. split.
      * intros [-> H]. split; [done|]. intros j Hj.
        destruct (Nat.eq_dec j a) as [->|]; [done|]. apply H. lia.
      * intros [-> H]. split; [done|]. intros j Hj. apply H. lia.
Qed.

Lemma retry_trace_fst {A} (get : nat -> option A) a n :
  fst (retry_trace_loop get a n) = retry_loop get a n.
Proof.
  revert a. induction n as [|n IH]; intros a; simpl; [done|].
  destruct (get a); [done|]. rewrite <- IH. by destruct (retry_trace_loop get (S a) n).
Qed.

Lemma split_on_no_sep c a : str_contains c a = false -> split_on c a = [a].
Proof.
  induction a as [|x a IH]; simpl; [done|].
  intros [Hx Ha]%orb_false_iff. rewrite Hx, IH by done. done.
Qed.

Lemma split_on_app_sep c a b :
  str_contains c a = false -> split_on c (a ++ String c b) = a :: split_on c b.
Proof.
  induction a as [|x a IH]; simpl.
  - intros _. by rewrite Ascii.eqb_refl.
  - intros [Hx Ha]%orb_false_iff. rewrite Hx, IH by done. done.
Qed.

Lemma split_on_nonempty c s : split_on c s <> [].
Proof.
  destruct s as [|x s]; simpl; [done|].
  destruct (Ascii.eqb x c); [done|]. by destruct (split_on c s).
Qed.

Lemma split_on_head_no_sep c s a rest :
  split_on c s = a :: rest -> str_contains c a = false.
Proof.
  revert a rest. induction s as [|x s IH]; intros a rest; simpl.
  - by intros [= <- _].
  - destruct (Ascii.eqb x c) eqn:Ex; [by intros [= <- _]|].
    destruct (split_on c s) as [|w ws] eqn:Es; [by destruct (split_on_nonempty c s)|].
    intros [= <- _]. simpl. rewrite Ex. by apply (IH w ws).
Qed.


Lemma cr_is_line_break c : is_line_break c = false -> Ascii.eqb c "013"%char = false.
Proof. intros H. destruct (Ascii.eqb_spec c "013"%char); [subst; discriminate|done]. Qed.

Lemma splitlines_acc_line l t cur : no_breaks l ->
  splitlines_acc (l ++ String "010" t) cur =
  string_of_rev (rev (list_ascii_of_string l) ++ cur) :: splitlines_acc t [].
Proof.
  unfold no_breaks. revert cur. induction l as [|c l IH]; intros cur Hl; [done|].
  simpl in Hl. inversion Hl as [|? ? Hc Hl']; subst.
  simpl. rewrite (cr_is_line_break c Hc), Hc. rewrite IH by done.
  simpl. by rewrite <- app_assoc.
Qed.

Lemma splitlines_acc_no_breaks n s cur : (String.length s <= n)%nat ->
  Forall (fun c => is_line_break c = false) cur -> Forall no_breaks (splitlines_acc s cur).
Proof.
  assert (Hcur : forall cur, Forall (fun c => is_line_break c = false) cur ->
                  no_breaks (string_of_rev cur)).
  { intros c0 H. unfold no_breaks, string_of_rev.
    rewrite list_ascii_of_string_of_list_ascii. by apply Forall_rev. }
  revert s cur. induction n as [|n IH]; intros s cur Hlen Hc.
  - destruct s; simpl in *; [destruct cur; constructor; auto|lia].
  - destruct s as [|c s']; simpl in *; [destruct cur; constructor; auto|].
    destruct (Ascii.eqb c "013"%char) eqn:Ecr.
    + destruct s' as [|c2 s'']; [constructor; auto|].
      destruct (Ascii.eqb c2 "010"%char); constructor; auto; apply IH; simpl in *; auto; lia.
    + destruct (is_line_break c) eqn:Eb.
      * constructor; auto. apply IH; auto; lia.
      * apply IH; [lia|]. constructor; auto.
Qed.

Lemma first_field_spec a b :
  str_contains "," a = false ->
  first_field a = a /\ first_field (a ++ String "," b) = a.
Proof.
  intros H. unfold first_field. by rewrite split_on_no_sep, split_on_app_sep.
Qed.

Lemma first_field_no_comma s : str_contains "," (first_field s) = false.
Proof.
  unfold first_field. destruct (split_on "," s) as [|a rest] eqn:E; [done|].
  by apply (split_on_head_no_sep "," s a rest).
Qed.

End Text.

(** ** What each fetcher returns *)

Section Results.

Lemma parsed_app b l1 l2 : parsed b (l1 ++ l2) = parsed b l1 ++ parsed b l2.
Proof. apply omap_app. Qed.

Lemma of_family_app v l1 l2 : of_family v (l1 ++ l2) = of_family v l1 ++ of_family v l2.
Proof. apply List.filter_app. Qed.

Lemma add_or_skip_step acc p b :
  add_or_skip acc (ip_network p b) =
  Ok (acc.1 ++ of_family V4 (parsed b [p]), acc.2 ++ of_family V6 (parsed b [p])).
Proof.
  rewrite add_or_skip_ip_network. unfold parsed, of_family. simpl.
  destruct acc; destruct (ip_network p b) as [[[] n]|e]; simpl; by rewrite ?app_nil_r.
Qed.

Lemma bind_Ok {A B} (a : A) (k : A -> Exc B) : Ok a ≫= k = k a.
Proof. done. Qed.

Ltac step_loop IH :=
  rewrite add_or_skip_step, bind_Ok, IH; cbn [fst snd];
  rewrite <- !app_assoc, <- !of_family_app, <- parsed_app; done.

Lemma add_ocean_lines_eq lines acc :
  add_ocean_lines lines acc =
  Ok (acc.1 ++ of_family V4 (parsed true (map first_field lines)),
      acc.2 ++ of_family V6 (parsed true (map first_field lines))).
Proof.
  revert acc. induction lines as [|p l IH]; intros acc; simpl.
  - destruct acc. by rewrite !app_nil_r.
  - step_loop IH.
Qed.

Lemma add_linode_lines_eq lines acc :
  add_linode_lines lines acc =
  Ok (acc.1 ++ of_family V4 (parsed false (map first_field (List.filter not_comment lines))),
      acc.2 ++ of_family V6 (parsed false (map first_field (List.filter not_comment lines)))).
Proof.
  revert acc. induction lines as [|p l IH]; intros acc; simpl.
  - destruct acc. by rewrite !app_nil_r.
  - change (negb (startswith "#" p)) with (not_comment p).
    destruct (not_comment p); [step_loop IH|apply IH].
Qed.

End Results.

(** ** The networks the fetchers return are well formed *)

Section Valid.

Lemma post_ok {A} (P : A -> Prop) a : P a -> post P (Ok a).
Proof. by intros Ha b [= <-]. Qed.

Lemma post_raise {A} (P : A -> Prop) e : post P (Raise e).
Proof. by intros b. Qed.

Lemma post_bind {A B} (Q : A -> Prop) (P : B -> Prop) (m : Exc A) (k : A -> Exc B) :
  post Q m -> (forall a, Q a -> post P (k a)) -> post P (m ≫= k).
Proof. intros Hm Hk b. destruct m as [a|e]; simpl; [|discriminate]. apply Hk, Hm. done. Qed.

Lemma post_bind_any {A B} (P : B -> Prop) (m : Exc A) (k : A -> Exc B) :
  (forall a, post P (k a)) -> post P (m ≫= k).
Proof. intros Hk. apply (post_bind (fun _ => True)); [done|auto]. Qed.

Lemma post_mapM {A B} (P : B -> Prop) (f : A -> Exc B) l :
  (forall x, post P (f x)) -> post (Forall P) (mapM f l).
Proof.
  intros Hf. induction l as [|x l IH]; simpl; [by apply post_ok|].
  apply (post_bind P); [apply Hf|]. intros b Hb.
  apply (post_bind (Forall P)); [exact IH|]. intros bs Hbs. by apply post_ok; constructor.
Qed.

Ltac ps_step :=
  first [ apply post_raise | apply post_bind_any; intros ? | case_match ].

Lemma ip_int_from_prefix_max v : ip_int_from_prefix v (max_prefixlen v) = ALL_ONES v.
Proof. by destruct v. Qed.

Lemma land_all_ones v z : 0 <= z <= ALL_ONES v -> Z.land z (ALL_ONES v) = z.
Proof.
  intros Hz. rewrite ONES_ones, Z.land_ones by (destruct v; simpl; lia).
  apply Z.mod_small. pose proof (ONES_pow v). lia.
Qed.

Lemma host_net_valid v z : 0 <= z <= ALL_ONES v -> valid_net v (mknet z (max_prefixlen v)).
Proof.
  intros Hz. unfold valid_net, netmask. cbn [network_address prefixlen].
  rewrite ip_int_from_prefix_max, land_all_ones by done.
  split; [destruct v; simpl; lia|done].
Qed.

(** [ip_network(n)] for an int [n] is a well-formed network. *)
Lemma ip_network_int_valid z : post net_ok (ip_network_int z).
Proof.
  unfold ip_network_int.
  destruct ((0 <=? z) && (z <=? ALL_ONES V4)) eqn:E4;
    [|destruct ((0 <=? z) && (z <=? ALL_ONES V6)) eqn:E6; [|apply post_raise]];
    apply post_ok; unfold net_ok; cbn [fst snd]; apply host_net_valid;
    [apply andb_true_iff in E4 as [A B]|apply andb_true_iff in E6 as [A B]];
    apply Z.leb_le in A, B; lia.
Qed.

Lemma ip_network_post s b : post net_ok (ip_network s b).
Proof. intros [v n] H. exact (ip_network_valid s b v n H). Qed.

Lemma ip_network_json_valid x b : post net_ok (ip_network_json x b).
Proof.
  destruct x; simpl; try apply post_raise; try apply ip_network_int_valid.
  apply ip_network_post.
Qed.

Lemma sets_ok_nil : sets_ok ([], []).
Proof. split; [|split]; intros x; simpl; tauto. Qed.

Lemma add_or_skip_valid acc r :
  sets_ok acc -> post net_ok r -> post sets_ok (add_or_skip acc r).
Proof.
  intros (N & F4 & F6) Hr. destruct r as [[v n]|e]; simpl.
  - specialize (Hr _ eq_refl). destruct v; apply post_ok; (split; [|split]); cbn [fst snd];
      intros x H; simpl in H; rewrite ?in_app_iff in H; simpl in H; repeat destruct H as [H|H]; subst;
      first [contradiction | exact Hr | reflexivity | apply N; tauto | by apply F4 | by apply F6].
  - destruct (is_value_error e); [by apply post_ok|apply post_raise].
Qed.

Lemma add_all_valid l acc : sets_ok acc -> post sets_ok (add_all l acc).
Proof.
  revert acc. induction l as [|x l IH]; intros acc Ha; simpl; [by apply post_ok|].
  apply (post_bind sets_ok); [by apply add_or_skip_valid, ip_network_json_valid|exact IH].
Qed.

Lemma add_azure_values_valid l acc : sets_ok acc -> post sets_ok (add_azure_values l acc).
Proof.
  revert acc. induction l as [|x l IH]; intros acc Ha; simpl; [by apply post_ok|].
  do 3 (apply post_bind_any; intros ?).
  apply (post_bind sets_ok); [by apply add_all_valid|exact IH].
Qed.

Lemma add_cidrs_valid l acc : sets_ok acc -> post sets_ok (add_cidrs l acc).
Proof.
  revert acc. induction l as [|x l IH]; intros acc Ha; simpl; [by apply post_ok|].
  apply post_bind_any; intros c.
  apply (post_bind sets_ok); [by apply add_or_skip_valid, ip_network_json_valid|exact IH].
Qed.

Lemma add_oracle_regions_valid l acc : sets_ok acc -> post sets_ok (add_oracle_regions l acc).
Proof.
  revert acc. induction l as [|x l IH]; intros acc Ha; simpl; [by apply post_ok|].
  do 2 (apply post_bind_any; intros ?).
  apply (post_bind sets_ok); [by apply add_cidrs_valid|exact IH].
Qed.

Lemma add_ocean_lines_valid l acc : sets_ok acc -> post sets_ok (add_ocean_lines l acc).
Proof.
  revert acc. induction l as [|x l IH]; intros acc Ha; simpl; [by apply post_ok|].
  apply (post_bind sets_ok); [by apply add_or_skip_valid, ip_network_post|exact IH].
Qed.

Lemma add_linode_lines_valid l acc : sets_ok acc -> post sets_ok (add_linode_lines l acc).
Proof.
  revert acc. induction l as [|x l IH]; intros acc Ha; simpl; [by apply post_ok|].
  destruct (negb _); [|by apply IH].
  apply (post_bind sets_ok); [by apply add_or_skip_valid, ip_network_post|exact IH].
Qed.

Lemma gcp_filter_valid k l : post (Forall net_ok) (gcp_filter k l).
Proof.
  induction l as [|x l IH]; simpl; [by apply post_ok|].
  apply post_bind_any; intros b. destruct b; [|exact IH].
  apply post_bind_any; intros p.
  apply (post_bind net_ok); [apply ip_network_json_valid|]. intros n Hn.
  apply (post_bind (Forall net_ok)); [exact IH|]. intros ns Hns. by apply post_ok; constructor.
Qed.

Lemma aws_set_valid r k1 k2 : post (Forall net_ok) (aws_set r k1 k2).
Proof.
  unfold aws_set. do 2 (apply post_bind_any; intros ?).
  apply post_mapM. intros x. apply post_bind_any; intros p. apply ip_network_json_valid.
Qed.

Lemma gcp_set_valid r k : post (Forall net_ok) (gcp_set r k).
Proof. unfold gcp_set. do 2 (apply post_bind_any; intros ?). apply gcp_filter_valid. Qed.

Lemma sets_of_lists (l4 l6 : list ipnet) :
  Forall net_ok l4 -> Forall net_ok l6 -> nets_ok (l4, l6).
Proof.
  rewrite !List.Forall_forall. intros H4 H6 x [Hx|Hx]; [exact (H4 x Hx)|exact (H6 x Hx)].
Qed.

(** The four fetchers but AWS and GCP return well-formed networks, each
    in the set of its family. *)
Lemma fetch_result_sets e p : p <> AWS -> p <> GCP -> post sets_ok (fetch_result e p).
Proof.
  intros H1 H2. destruct p; try done; simpl;
    unfold fetch_azure_ip_ranges, fetch_digital_ocean_ip_ranges, fetch_oracle_ip_ranges,
      linode_ip_ranges;
    repeat first [ apply post_ok, sets_ok_nil | ps_step ].
  all: first [ apply add_azure_values_valid | apply add_ocean_lines_valid
             | apply add_oracle_regions_valid | apply add_linode_lines_valid ];
    apply sets_ok_nil.
Qed.

(** [match m with Raise RequestException => Ok ([], []) | r => r end] *)
Ltac post_catch :=
  match goal with |- post ?P (match ?m with _ => _ end) =>
    let Hm := fresh "Hm" in let a := fresh "a" in
    assert (Hm : post P m);
    [|intros a; destruct m as [?b|[]];
      first [discriminate | intros [= <-]; apply (proj1 sets_ok_nil) | apply Hm]]
  end.

Lemma fetch_aws_valid get : post nets_ok (fetch_aws_ip_ranges get).
Proof.
  unfold fetch_aws_ip_ranges. post_catch.
  do 2 (apply post_bind_any; intros ?).
  apply (post_bind (Forall net_ok)); [apply aws_set_valid|]. intros l4 H4.
  apply (post_bind (Forall net_ok)); [apply aws_set_valid|]. intros l6 H6.
  apply post_ok. by apply sets_of_lists.
Qed.

Lemma fetch_gcp_valid get : post nets_ok (fetch_gcp_ip_ranges get).
Proof.
  unfold fetch_gcp_ip_ranges. post_catch.
  do 2 (apply post_bind_any; intros ?).
  apply (post_bind (Forall net_ok)); [apply gcp_set_valid|]. intros l4 H4.
  apply (post_bind (Forall net_ok)); [apply gcp_set_valid|]. intros l6 H6.
  apply post_ok. by apply sets_of_lists.
Qed.

(** Every fetcher returns well-formed networks. *)
Lemma fetch_result_nets e p : post nets_ok (fetch_result e p).
Proof.
  destruct p; [apply fetch_aws_valid| |apply fetch_gcp_valid| | |];
    intros r Hr; refine (proj1 (fetch_result_sets e _ _ _ r Hr)); discriminate.
Qed.

End Valid.
(** ** Strictness, lines and the Azure URL *)

Section Strings.

Lemma host_bits_check_relax v p n :
  host_bits_check v true p = Ok n -> host_bits_check v false p = Ok n.
Proof. destruct p as [[a sc] l]. unfold host_bits_check. by destruct (negb _). Qed.

Lemma host_bits_check_relax_raise v p e :
  host_bits_check v true p = Raise e -> is_address_or_netmask_error e = true ->
  host_bits_check v false p = Raise e.
Proof.
  destruct p as [[a sc] l]. unfold host_bits_check.
  destruct (negb _); simpl; intros [= <-]; discriminate.
Qed.

Lemma IPv4Network_relax s n : IPv4Network s true = Ok n -> IPv4Network s false = Ok n.
Proof.
  unfold IPv4Network. destruct (ipv4_network_parts s) as [[a l]|e]; [|done].
  intros H. exact (host_bits_check_relax V4 ((a, None), l) n H).
Qed.

Lemma IPv4Network_relax_raise s e :
  IPv4Network s true = Raise e -> is_address_or_netmask_error e = true ->
  IPv4Network s false = Raise e.
Proof.
  unfold IPv4Network. destruct (ipv4_network_parts s) as [[a l]|e0]; [|done].
  intros H He. exact (host_bits_check_relax_raise V4 ((a, None), l) e H He).
Qed.

Lemma IPv6Network_relax s n : IPv6Network s true = Ok n -> IPv6Network s false = Ok n.
Proof.
  unfold IPv6Network. destruct (ipv6_network_parts s) as [p|e]; [|done].
  apply host_bits_check_relax.
Qed.

Lemma ip_network_relax s x : ip_network s true = Ok x -> ip_network s false = Ok x.
Proof.
  unfold ip_network.
  destruct (IPv4Network s true) as [n|e] eqn:E.
  - by rewrite (IPv4Network_relax _ _ E).
  - destruct (is_address_or_netmask_error e) eqn:He; [|discriminate].
    rewrite (IPv4Network_relax_raise _ _ E He), He.
    destruct (IPv6Network s true) as [n6|e6] eqn:E6.
    + by rewrite (IPv6Network_relax _ _ E6).
    + by destruct (is_address_or_netmask_error e6).
Qed.

Lemma splitlines_unlines ls : Forall no_breaks ls -> splitlines (unlines ls) = ls.
Proof.
  unfold splitlines. induction 1 as [|l ls Hl Hls IH]; [done|]. simpl.
  rewrite splitlines_acc_line by done. rewrite IH, app_nil_r. unfold string_of_rev.
  by rewrite rev_involutive, string_of_list_ascii_of_string.
Qed.

Lemma splitlines_no_breaks s : Forall no_breaks (splitlines s).
Proof. apply (splitlines_acc_no_breaks (String.length s)); [lia|constructor]. Qed.

Lemma string_app_assoc (a b c : string) : ((a ++ b) ++ c = a ++ (b ++ c))%string.
Proof. induction a as [|x a IH]; [done|]. exact (f_equal (String x) IH). Qed.

Lemma str_contains_app c (a b : string) :
  str_contains c (a ++ b) = str_contains c a || str_contains c b.
Proof.
  induction a as [|x a IH]; [done|].
  change (String x a ++ b)%string with (String x (a ++ b)). cbn [str_contains].
  by rewrite IH, orb_assoc.
Qed.

Lemma substring_app_length (pre rest : string) :
  substring 0 (String.length pre) (pre ++ rest) = pre.
Proof. induction pre as [|x pre IH]; [by destruct rest|]. exact (f_equal (String x) IH). Qed.

Lemma prefix_app (p s : string) : String.prefix p s = true -> exists post, s = (p ++ post)%string.
Proof.
  revert s. induction p as [|x p IH]; intros s; [by exists s|].
  destruct s as [|y s]; [discriminate|]. cbn [String.prefix].
  destruct (Ascii.ascii_dec x y) as [<-|]; [|discriminate].
  intros H. destruct (IH s H) as [post ->]. by exists post.
Qed.

Lemma match_head_spec h s rest :
  Forall (fun o => o <> Some "010"%char) h -> match_head h s = Some rest ->
  exists pre, s = (pre ++ rest)%string /\ String.length pre = length h /\
    str_contains "010" pre = false /\ forall t, match_head h (pre ++ t) = Some t.
Proof.
  intros Hh. revert s. induction Hh as [|o h Ho Hh IH]; intros s; simpl.
  - intros [= <-]. by exists EmptyString.
  - destruct o as [a|], s as [|c s']; try discriminate.
    + destruct (Ascii.eqb_spec a c) as [<-|]; [|discriminate].
      intros Hm. destruct (IH s' Hm) as (pre & -> & Hl & Hn & Ht).
      exists (String a pre). simpl. rewrite Hl, Hn, Ascii.eqb_refl. repeat split; auto.
      destruct (Ascii.eqb_spec a "010"%char); [subst; done|done].
    + destruct (Ascii.eqb c "010"%char) eqn:Ec; [discriminate|].
      intros Hm. destruct (IH s' Hm) as (pre & -> & Hl & Hn & Ht).
      exists (String c pre). simpl. rewrite Hl, Hn, Ec. repeat split; auto.
Qed.

Lemma match_lazy_json_spec s tail : match_lazy_json s = Some tail ->
  exists m post, tail = (m ++ ".json")%string /\ s = (tail ++ post)%string /\
    str_contains "010" m = false.
Proof.
  revert tail. induction s as [|c s IH]; intros tail Hs.
  - discriminate Hs.
  - change (match_lazy_json (String c s)) with
      (if String.prefix ".json" (String c s) then Some ".json"%string
       else if Ascii.eqb c "010"%char then None
       else match match_lazy_json s with Some m => Some (String c m) | None => None end) in Hs.
    destruct (String.prefix ".json" (String c s)) eqn:Ep.
    + injection Hs as <-. apply prefix_app in Ep as [post Ep].
      exists EmptyString, post. by rewrite Ep.
    + destruct (Ascii.eqb c "010"%char) eqn:Ec; [discriminate|].
      destruct (match_lazy_json s) as [m'|]; [|discriminate]. injection Hs as <-.
      destruct (IH m' eq_refl) as (m & post & -> & -> & Hm).
      exists (String c m), post. simpl. rewrite Ec, Hm. done.
Qed.

Lemma azure_url_head_no_newline : Forall (fun o => o <> Some "010"%char) azure_url_head.
Proof. vm_compute. repeat constructor; discriminate. Qed.

Lemma azure_url_match_at_spec s u : azure_url_match_at s = Some u ->
  (exists post, s = (u ++ post)%string) /\ (exists m, u = (m ++ ".json")%string) /\
  str_contains "010" u = false /\ exists r, match_head azure_url_head u = Some r.
Proof.
  unfold azure_url_match_at.
  destruct (match_head azure_url_head s) as [rest|] eqn:Eh; [|discriminate].
  destruct (match_lazy_json rest) as [tail|] eqn:Et; [|discriminate].
  destruct (match_head_spec _ _ _ azure_url_head_no_newline Eh) as (pre & -> & Hl & Hn & Ht).
  destruct (match_lazy_json_spec _ _ Et) as (m & post & -> & -> & Hm).
  rewrite <- Hl, substring_app_length. intros [= <-]. repeat split.
  - exists post. by rewrite !string_app_assoc.
  - exists (pre ++ m)%string. by rewrite string_app_assoc.
  - by rewrite !str_contains_app, Hn, Hm.
  - eexists. apply Ht.
Qed.

Lemma azure_json_url_spec page u : azure_json_url page = Some u ->
  (exists pre post, page = (pre ++ u ++ post)%string) /\
  (exists m, u = (m ++ ".json")%string) /\
  str_contains "010" u = false /\ exists r, match_head azure_url_head u = Some r.
Proof.
  induction page as [|c page IH]; simpl.
  - unfold azure_url_match_at. simpl. discriminate.
  - destruct (azure_url_match_at (String c page)) as [m|] eqn:E.
    + intros [= <-]. destruct (azure_url_match_at_spec _ _ E) as ([post Hp] & H2 & H3 & H4).
      split; [|done]. exists EmptyString, post. done.
    + intros H. destruct (IH H) as ((pre & post & ->) & H2 & H3 & H4).
      split; [|done]. by exists (String c pre), post.
Qed.

End Strings.

(** ** The fetchers and [main], composed *)

Section Compose.

Ltac request_raise E := apply retry_request_raise in E; subst; reflexivity.

Lemma fetch_ocean_eq get :
  fetch_digital_ocean_ip_ranges get =
  match retry_request get with
  | Ok text =>
    let ns := parsed true (map first_field (splitlines text)) in
    Ok (of_family V4 ns, of_family V6 ns)
  | Raise _ => Ok ([], [])
  end.
Proof.
  unfold fetch_digital_ocean_ip_ranges. destruct (retry_request get) as [text|ex] eqn:E.
  - apply add_ocean_lines_eq.
  - request_raise E.
Qed.

Lemma fetch_linode_eq get :
  linode_ip_ranges get =
  match retry_request get with
  | Ok text =>
    let ns := parsed false (map first_field (List.filter not_comment (splitlines text))) in
    Ok (of_family V4 ns, of_family V6 ns)
  | Raise _ => Ok ([], [])
  end.
Proof.
  unfold linode_ip_ranges. destruct (retry_request get) as [text|ex] eqn:E.
  - apply add_linode_lines_eq.
  - request_raise E.
Qed.

Lemma version_eqb_eq v w : version_eqb v w = true <-> v = w.
Proof. destruct v, w; simpl; split; congruence. Qed.

Lemma forallb_false_ex {A} (f : A -> bool) l :
  forallb f l = false -> exists x, In x l /\ f x = false.
Proof.
  induction l as [|a l IH]; simpl; [done|].
  destruct (f a) eqn:Ea; simpl; [|eauto].
  intros H. destruct (IH H) as (x & Hx & Hf). eauto.
Qed.

Lemma canonical_nil v : canonical v [].
Proof. split; [|split]; [intros n []|intros n m []|intros n m []]. Qed.

(** On well-formed networks, whatever their scope ids, the aggregation
    step returns when the networks are of one family, and raises
    [TypeError] when they are of both. *)
Lemma collapse_ipnets_cases sorted l :
  sort_permutes sorted -> (forall x, In x l -> net_ok x) ->
  (exists v out, (forall x, In x l -> x.1 = v) /\ collapse_ipnets sorted l = Ok out) \/
  (collapse_ipnets sorted l = Raise TypeError /\ exists x y, In x l /\ In y l /\ x.1 <> y.1).
Proof.
  intros Hp Hv. destruct l as [|[v n] l'].
  - left. exists V4, []. split; [done|done].
  - unfold collapse_ipnets. cbv beta iota.
    destruct (forallb _ _) eqn:Hf.
    + assert (Hall : forall x, In x ((v, n) :: l') -> x.1 = v).
      { intros x Hx. apply version_eqb_eq. eapply forallb_forall in Hf; [exact Hf|exact Hx]. }
      destruct (collapse_some v sorted Hp (map snd (@cons ipnet (v, n) l'))) as (out & D & Ho & _).
      { intros m Hm. apply in_map_iff in Hm as (x & <- & Hx).
        rewrite <- (Hall x Hx). by apply Hv. }
      rewrite Ho. left. exists v, (map (pair v) out). split; [exact Hall|reflexivity].
    + right. split; [done|].
      destruct (forallb_false_ex _ _ Hf) as (x & Hx & Hxv).
      exists x, (v, n). split; [done|]. split; [by left|]. simpl.
      intros Heq. rewrite Heq in Hxv. by destruct v.
Qed.

Lemma blocks_snd (l : list ipnet) : map fst (map snd l) = blocks l.
Proof. unfold blocks. by rewrite map_map. Qed.

(** On well-formed networks of one family without scope id, with a sort
    that has the properties of Python's, the aggregation step returns
    their sorted canonical aggregation. *)
Lemma collapse_ipnets_aggregates sorted l out :
  sort_permutes sorted -> sort_orders sorted ->
  (forall x, In x l -> net_ok x /\ x.2.2 = None) ->
  collapse_ipnets sorted l = Ok out -> aggregates l out.
Proof.
  intros Hp Ho Hv. destruct l as [|[v n] l'].
  - intros [= <-]. exists V4. split; [done|]. split; [done|].
    split; [apply canonical_nil|]. split; [constructor|done].
  - unfold collapse_ipnets. cbv beta iota.
    destruct (forallb _ _) eqn:Hf; [|discriminate].
    assert (Hall : forall x, In x ((v, n) :: l') -> x.1 = v).
    { intros x Hx. apply version_eqb_eq. eapply forallb_forall in Hf; [exact Hf|exact Hx]. }
    destruct (collapse_ok v sorted Hp (map snd (@cons ipnet (v, n) l')) Ho) as (o & E & N & C & Ss & Cov).
    { intros m Hm. apply in_map_iff in Hm as (x & <- & Hx).
      destruct (Hv x Hx) as [H1 H2]. split; [|done]. rewrite <- (Hall x Hx). exact H1. }
    rewrite E. intros [= <-].
    assert (Hb : blocks (map (pair v) o) = map fst o).
    { unfold blocks. rewrite map_map. done. }
    exists v. split; [exact Hall|]. split.
    { intros x Hx. apply in_map_iff in Hx as (m & <- & Hm). split; [done|]. by apply N. }
    rewrite Hb, <- blocks_snd. done.
Qed.

(** [aggregates] depends on the networks of its input, not on their
    order or repetitions. *)
Lemma aggregates_same_elems l1 l2 out :
  (forall x, In x l1 <-> In x l2) -> aggregates l1 out -> aggregates l2 out.
Proof.
  intros Hs (v & Hl & Ho & Hc & Hss & Hcov). exists v.
  split; [intros x Hx; apply Hl, Hs, Hx|]. do 3 (split; [done|]).
  intros a Ha. rewrite (Hcov a Ha). unfold covers, blocks.
  split; intros (m & Hm & Hin); exists m; split; [|done| |done];
    apply in_map_iff in Hm as (x & <- & Hx); apply in_map_iff; exists x;
    (split; [done|]); by apply Hs.
Qed.

Lemma main_ok_full sorted union e r : main sorted union e = Ok r ->
  exists aws azure gcp ocean oracle linode,
    fetch_result e AWS = Ok aws /\ fetch_result e Azure = Ok azure /\
    fetch_result e GCP = Ok gcp /\ fetch_result e DigitalOcean = Ok ocean /\
    fetch_result e Oracle = Ok oracle /\ fetch_result e Linode = Ok linode /\
    collapse_ipnets sorted (union [aws.1; azure.1; gcp.1; ocean.1; oracle.1; linode.1])
      = Ok (ipv4nets r) /\
    collapse_ipnets sorted (union [aws.2; azure.2; gcp.2; ocean.2; oracle.2; linode.2])
      = Ok (ipv6nets r).
Proof.
  unfold main, mbind, exc_bind, mret, exc_ret.
  repeat case_match; intros Hr; simplify_eq.
  unfold fetch_result. eexists _, _, _, _, _, _. repeat split; eassumption || reflexivity.
Qed.


End Compose.

(** ** [str] of an IPv4 network parses back *)

Section Str4.

Lemma land255 x : Z.land x 255 = x mod 256.
Proof. apply (Z.land_ones x 8). lia. Qed.

Lemma to_bytes4_spec a : 0 <= a <= ALL_ONES V4 ->
  exists b3 b2 b1 b0, to_bytes4 a = [b3; b2; b1; b0] /\
    0 <= b3 <= 255 /\ 0 <= b2 <= 255 /\ 0 <= b1 <= 255 /\ 0 <= b0 <= 255 /\
    fold_left (fun acc b => acc * 256 + b) [b3; b2; b1; b0] 0 = a.
Proof.
  intros Ha. unfold ALL_ONES in Ha. simpl in Ha.
  unfold to_bytes4. simpl. rewrite !land255, !Z.shiftr_div_pow2 by lia.
  eexists _, _, _, _. split; [reflexivity|].
  assert (E16 : a / 2 ^ 16 = a / 2 ^ 8 / 2 ^ 8) by (rewrite Z.div_div; [reflexivity|lia|lia]).
  assert (E24 : a / 2 ^ 24 = a / 2 ^ 16 / 2 ^ 8) by (rewrite Z.div_div; [reflexivity|lia|lia]).
  assert (B24 : 0 <= a / 2 ^ 24 < 256) by (split; [apply Z.div_pos; lia|apply Z.div_lt_upper_bound; lia]).
  pose proof (Z.div_mod a (2 ^ 8) ltac:(lia)) as D0.
  pose proof (Z.div_mod (a / 2 ^ 8) (2 ^ 8) ltac:(lia)) as D1.
  pose proof (Z.div_mod (a / 2 ^ 16) (2 ^ 8) ltac:(lia)) as D2.
  rewrite <- E16 in D1. rewrite <- E24 in D2.
  rewrite (Z.mod_small (a / 2 ^ 24)) by lia.
  change (8 * 2) with 16. change (8 * 1) with 8. change (8 * 0) with 0.
  rewrite Z.pow_0_r, Z.div_1_r. change (2 ^ 8) with 256 in *.
  pose proof (Z.mod_pos_bound a 256 ltac:(lia)).
  pose proof (Z.mod_pos_bound (a / 256) 256 ltac:(lia)).
  pose proof (Z.mod_pos_bound (a / 2 ^ 16) 256 ltac:(lia)).
  simpl. lia.
Qed.

Lemma str_int_octet b : 0 <= b <= 255 ->
  parse_octet (str_int b) = Ok b /\ str_contains "." (str_int b) = false /\
  str_contains "/" (str_int b) = false.
Proof.
  intros Hb.
  assert (T : forallb (fun b => match parse_octet (str_int b) with Ok b' => b' =? b | Raise _ => false end
                              && negb (str_contains "." (str_int b))
                              && negb (str_contains "/" (str_int b)))
                (map Z.of_nat (seq 0 256)) = true) by (vm_compute; reflexivity).
  eapply forallb_forall in T.
  2:{ apply in_map_iff. exists (Z.to_nat b). split; [apply Z2Nat.id; lia|].
      apply in_seq. split; [lia|]. change (0 + 256)%nat with (Z.to_nat 256).
      apply Z2Nat.inj_lt; lia. }
  destruct (parse_octet (str_int b)) as [b'|e]; [|discriminate].
  apply andb_true_iff in T as [T T3]. apply andb_true_iff in T as [T1 T2].
  apply Z.eqb_eq in T1. subst b'. apply negb_true_iff in T2, T3. auto.
Qed.

Lemma str_int_prefix l : 0 <= l <= 32 ->
  prefix_from_prefix_string V4 (str_int l) = Ok l /\ str_contains "/" (str_int l) = false.
Proof.
  intros Hl.
  assert (T : forallb (fun l => match prefix_from_prefix_string V4 (str_int l) with
                                | Ok l' => l' =? l | Raise _ => false end
                              && negb (str_contains "/" (str_int l)))
                (map Z.of_nat (seq 0 33)) = true) by (vm_compute; reflexivity).
  eapply forallb_forall in T.
  2:{ apply in_map_iff. exists (Z.to_nat l). split; [apply Z2Nat.id; lia|].
      apply in_seq. split; [lia|]. change (0 + 33)%nat with (Z.to_nat 33).
      apply Z2Nat.inj_lt; lia. }
  destruct (prefix_from_prefix_string V4 (str_int l)) as [l'|e]; [|discriminate].
  apply andb_true_iff in T as [T1 T2]. apply Z.eqb_eq in T1. subst l'.
  apply negb_true_iff in T2. auto.
Qed.

Lemma str_contains_sep4 c s3 s2 s1 s0 :
  c <> "."%char ->
  str_contains c s3 = false -> str_contains c s2 = false ->
  str_contains c s1 = false -> str_contains c s0 = false ->
  str_contains c (s3 ++ String "." (s2 ++ String "." (s1 ++ String "." s0))) = false.
Proof.
  intros Hc H3 H2 H1 H0.
  assert (Hd : Ascii.eqb "." c = false) by (destruct (Ascii.eqb_spec "." c); congruence).
  rewrite !str_contains_app. cbn [str_contains]. rewrite !str_contains_app. cbn [str_contains].
  rewrite !str_contains_app. cbn [str_contains]. rewrite H3, H2, H1, H0, Hd. done.
Qed.

Lemma network_str4_parse n :
  valid_net V4 n -> ip_network (network_str4 n) true = Ok (V4, plain n).
Proof.
  destruct n as [a l]. intros (Hl & Ha & Hm). simpl in Hl, Ha, Hm.
  destruct (to_bytes4_spec a Ha) as (b3 & b2 & b1 & b0 & Eb & H3 & H2 & H1 & H0 & Hf).
  destruct (str_int_octet b3 H3) as (P3 & D3 & S3).
  destruct (str_int_octet b2 H2) as (P2 & D2 & S2).
  destruct (str_int_octet b1 H1) as (P1 & D1 & S1).
  destruct (str_int_octet b0 H0) as (P0 & D0 & S0).
  destruct (str_int_prefix l Hl) as (Pl & Sl).
  set (sa := (str_int b3 ++ String "." (str_int b2 ++ String "." (str_int b1 ++ String "." (str_int b0))))%string).
  assert (Esa : string_from_ip_int4 a = sa) by (unfold string_from_ip_int4; rewrite Eb; reflexivity).
  assert (Ssa : str_contains "/" sa = false) by (apply str_contains_sep4; done).
  assert (Dsa : split_on "." sa = [str_int b3; str_int b2; str_int b1; str_int b0]).
  { unfold sa. rewrite !split_on_app_sep, split_on_no_sep by done. done. }
  assert (Nsa : String.eqb sa "" = false).
  { unfold sa. by destruct (str_int b3). }
  assert (Hparts : ipv4_network_parts (network_str4 (mknet a l)) = Ok (a, l)).
  { unfold ipv4_network_parts, network_str4. simpl network_address; simpl prefixlen.
    rewrite Esa. unfold split_addr_prefix.
    change ("/" ++ str_int l)%string with (String "/" (str_int l)).
    rewrite split_on_app_sep, (split_on_no_sep _ (str_int l)) by done.
    replace ((2 <? Datatypes.length [sa; str_int l])%nat) with false by reflexivity.
    cbv iota. rewrite bind_Ok. cbv beta iota.
    unfold ipv4_address. rewrite Ssa. unfold ip4_int_from_string. rewrite Nsa, Dsa.
    replace (negb (Datatypes.length [str_int b3; str_int b2; str_int b1; str_int b0] =? 4)%nat)
      with false by reflexivity.
    cbv iota. simpl mapM. rewrite P3, P2, P1, P0. simpl.
    rewrite Pl. simpl. rewrite <- Hf. reflexivity. }
  unfold ip_network, IPv4Network. rewrite Hparts.
  change (Ok (a, l) ≫= _) with (host_bits_check V4 true ((a, None), l)).
  unfold host_bits_check. unfold netmask in Hm. simpl in Hm. rewrite Hm, Z.eqb_refl. reflexivity.
Qed.

End Str4.

(** ** Further properties of the program *)

Section Union.

Lemma union_valid e aws azure gcp ocean oracle linode :
  fetch_result e AWS = Ok aws -> fetch_result e Azure = Ok azure ->
  fetch_result e GCP = Ok gcp -> fetch_result e DigitalOcean = Ok ocean ->
  fetch_result e Oracle = Ok oracle -> fetch_result e Linode = Ok linode ->
  (forall x, In x (aws.1 ++ azure.1 ++ gcp.1 ++ ocean.1 ++ oracle.1 ++ linode.1) -> net_ok x) /\
  (forall x, In x (aws.2 ++ azure.2 ++ gcp.2 ++ ocean.2 ++ oracle.2 ++ linode.2) -> net_ok x).
Proof.
  intros Ha Hz Hg Ho Hr Hl. split; intros x Hx; rewrite !in_app_iff in Hx;
    repeat destruct Hx as [Hx|Hx];
    first [ eapply (fetch_result_nets e AWS); [exact Ha|solve [auto]]
          | eapply (fetch_result_nets e Azure); [exact Hz|solve [auto]]
          | eapply (fetch_result_nets e GCP); [exact Hg|solve [auto]]
          | eapply (fetch_result_nets e DigitalOcean); [exact Ho|solve [auto]]
          | eapply (fetch_result_nets e Oracle); [exact Hr|solve [auto]]
          | eapply (fetch_result_nets e Linode); [exact Hl|solve [auto]] ].
Qed.

Lemma concat6 {A} (l1 l2 l3 l4 l5 l6 : list A) :
  concat [l1; l2; l3; l4; l5; l6] = l1 ++ l2 ++ l3 ++ l4 ++ l5 ++ l6.
Proof. simpl. by rewrite app_nil_r. Qed.

End Union.

(** X1: every network object [ip_network] returns, strict or not, is
    well formed: prefix length within the family's bounds, address in
    range, no host bits set. *)
Theorem ip_network_result_valid s b v n :
  ip_network s b = Ok (v, n) -> valid_net v n.1.
Proof. apply ip_network_valid. Qed.

Lemma ip_network_result_valid_witness :
  ip_network "10.0.0.1/8" false = Ok (V4, plain (mknet (ip4 10 0 0 0) 8)) /\
  valid_net V4 (plain (mknet (ip4 10 0 0 0) 8)).1.
Proof.
  assert (H : ip_network "10.0.0.1/8" false = Ok (V4, plain (mknet (ip4 10 0 0 0) 8)))
    by (vm_compute; reflexivity).
  split; [exact H|exact (ip_network_result_valid _ _ _ _ H)].
Defined.

(** X2: [ip_network] raises nothing but [ValueError]: an address or
    netmask error of either family becomes [ValueError], and host bits
    with [strict] raise [ValueError]. *)
Theorem ip_network_raises_value_error s b e :
  ip_network s b = Raise e -> e = ValueError.
Proof. apply ip_network_raise. Qed.

Lemma ip_network_raises_value_error_witness :
  ip_network "bogus" true = Raise ValueError /\ ValueError = ValueError.
Proof.
  assert (H : ip_network "bogus" true = Raise ValueError) by (vm_compute; reflexivity).
  split; [exact H|exact (ip_network_raises_value_error _ _ _ H)].
Defined.

(** X3: what [ip_network] accepts with [strict=True] it also accepts
    with [strict=False], with the same result. *)
Theorem ip_network_strict_nonstrict s x :
  ip_network s true = Ok x -> ip_network s false = Ok x.
Proof. apply ip_network_relax. Qed.

Lemma ip_network_strict_nonstrict_witness :
  ip_network "2001:db8::/32" true = Ok (V6, plain (mknet (0x20010db8 * 2 ^ 96) 32)) /\
  ip_network "2001:db8::/32" false = Ok (V6, plain (mknet (0x20010db8 * 2 ^ 96) 32)).
Proof.
  assert (H : ip_network "2001:db8::/32" true = Ok (V6, plain (mknet (0x20010db8 * 2 ^ 96) 32)))
    by (vm_compute; reflexivity).
  split; [exact H|exact (ip_network_strict_nonstrict _ _ H)].
Defined.

(** X4: [retry_request] returns a response exactly when one of the
    [MAX_RETRIES] attempts succeeds, and then returns the response of the
    first successful attempt. *)
Theorem retry_request_ok_iff {A} (get : nat -> option A) r :
  retry_request get = Ok r <->
  exists k, (k < MAX_RETRIES)%nat /\ get k = Some r /\ forall j, (j < k)%nat -> get j = None.
Proof.
  unfold retry_request. rewrite retry_loop_ok. split.
  - intros (k & Hk & Hg & Hj). exists k. split; [lia|split; [done|]]. intros j Hj'. apply Hj. lia.
  - intros (k & Hk & Hg & Hj). exists k. split; [lia|split; [done|]]. intros j Hj'. apply Hj. lia.
Qed.

(** X5: [retry_request] raises only [RequestException], and exactly when
    all [MAX_RETRIES] attempts fail. *)
Theorem retry_request_raise_iff {A} (get : nat -> option A) e :
  retry_request get = Raise e <->
  e = RequestException /\ forall j, (j < MAX_RETRIES)%nat -> get j = None.
Proof.
  unfold retry_request. rewrite retry_loop_raise_iff. split.
  - intros [-> Hj]. split; [done|]. intros j Hj'. apply Hj. lia.
  - intros [-> Hj]. split; [done|]. intros j Hj'. apply Hj. lia.
Qed.

(** X6: [retry_request] requests at attempts 0, 1, ... up to the first
    success or the last attempt, and sleeps [2 ** attempt] seconds after
    each failed attempt but the last: at most three requests, at most
    1 + 2 seconds of sleep, no sleep after the final attempt. *)
Theorem retry_request_trace_shape {A} (get : nat -> option A) :
  fst (retry_request_trace get) = retry_request get /\
  exists k, (k < MAX_RETRIES)%nat /\ (forall j, (j < k)%nat -> get j = None) /\
    (get k <> None \/ k = (MAX_RETRIES - 1)%nat) /\
    snd (retry_request_trace get) = firstn (2 * k + 1) [Get 0; Sleep 1; Get 1; Sleep 2; Get 2].
Proof.
  split; [apply retry_trace_fst|].
  unfold retry_request_trace, MAX_RETRIES. simpl.
  destruct (get 0%nat) as [r0|] eqn:E0.
  { exists 0%nat. split; [lia|]. split; [intros; lia|]. split; [left; congruence|done]. }
  destruct (get 1%nat) as [r1|] eqn:E1.
  { exists 1%nat. split; [lia|]. split; [intros j Hj; by assert (j = 0)%nat as -> by lia|].
    split; [left; congruence|done]. }
  exists 2%nat. split; [lia|]. split.
  { intros j Hj. by destruct j as [|[|]]; [| |lia]. }
  split; [by right|]. by destruct (get 2%nat).
Qed.

(** X7: no line [splitlines] returns contains a line boundary. *)
Theorem splitlines_no_line_breaks s : Forall no_breaks (splitlines s).
Proof. apply splitlines_no_breaks. Qed.

(** X8: [splitlines] recovers lines without line boundaries from the text
    that ends each of them with a newline. *)
Theorem splitlines_unlines_roundtrip ls :
  Forall no_breaks ls -> splitlines (unlines ls) = ls.
Proof. apply splitlines_unlines. Qed.

Lemma splitlines_unlines_roundtrip_witness :
  Forall no_breaks ["# comment"; "10.0.0.0/8,US"; ""]%string /\
  splitlines (unlines ["# comment"; "10.0.0.0/8,US"; ""]%string) =
    ["# comment"; "10.0.0.0/8,US"; ""]%string.
Proof.
  assert (H : Forall no_breaks ["# comment"; "10.0.0.0/8,US"; ""]%string)
    by (unfold no_breaks; vm_compute; repeat constructor).
  split; [exact H|exact (splitlines_unlines_roundtrip _ H)].
Defined.

(** X9: [line.split(",")[0]] never contains a comma; it is the text
    before the first comma, or the whole line when it has none. *)
Theorem first_field_before_comma a b :
  str_contains "," a = false ->
  str_contains "," (first_field (a ++ String "," b)) = false /\
  first_field a = a /\ first_field (a ++ String "," b) = a.
Proof.
  intros H. split; [apply first_field_no_comma|]. by apply first_field_spec.
Qed.

Lemma first_field_before_comma_witness :
  str_contains "," "10.0.0.0/8" = false /\
  str_contains "," (first_field ("10.0.0.0/8" ++ String "," "US,,x")) = false /\
  first_field "10.0.0.0/8" = "10.0.0.0/8"%string /\
  first_field ("10.0.0.0/8" ++ String "," "US,,x") = "10.0.0.0/8"%string.
Proof.
  assert (H : str_contains "," "10.0.0.0/8" = false) by reflexivity.
  split; [exact H|exact (first_field_before_comma _ "US,,x" H)].
Defined.

(** X10: the URL found in the Azure download page is a piece of the page
    without a newline that starts with the pattern
    [https://download.microsoft.com/download/] (each ['.'] any character)
    and ends with [.json]. *)
Theorem azure_json_url_found page u :
  azure_json_url page = Some u ->
  (exists pre post, page = (pre ++ u ++ post)%string) /\
  (exists m, u = (m ++ ".json")%string) /\
  str_contains "010" u = false /\ exists r, match_head azure_url_head u = Some r.
Proof. apply azure_json_url_spec. Qed.

Lemma azure_json_url_found_witness :
  azure_json_url "href=https://download.microsoft.com/download/7/ServiceTags_Public.json>" =
    Some "https://download.microsoft.com/download/7/ServiceTags_Public.json"%string /\
  ((exists pre post, "href=https://download.microsoft.com/download/7/ServiceTags_Public.json>"%string =
      (pre ++ "https://download.microsoft.com/download/7/ServiceTags_Public.json" ++ post)%string) /\
   (exists m, "https://download.microsoft.com/download/7/ServiceTags_Public.json"%string =
      (m ++ ".json")%string) /\
   str_contains "010" "https://download.microsoft.com/download/7/ServiceTags_Public.json" = false /\
   exists r, match_head azure_url_head
     "https://download.microsoft.com/download/7/ServiceTags_Public.json" = Some r).
Proof.
  assert (H : azure_json_url "href=https://download.microsoft.com/download/7/ServiceTags_Public.json>" =
    Some "https://download.microsoft.com/download/7/ServiceTags_Public.json"%string)
    by (vm_compute; reflexivity).
  split; [exact H|exact (azure_json_url_found _ _ H)].
Defined.

(** X14: [fetch_digital_ocean_ip_ranges] never raises: it returns the
    networks that parse from the first field of each line of the CSV
    text, in order and split by family, and empty sets when the request
    fails. *)
Theorem fetch_digital_ocean_ip_ranges_result get :
  fetch_digital_ocean_ip_ranges get =
  match retry_request get with
  | Ok text =>
    let ns := parsed true (map first_field (splitlines text)) in
    Ok (of_family V4 ns, of_family V6 ns)
  | Raise _ => Ok ([], [])
  end.
Proof. apply fetch_ocean_eq. Qed.

(** X16: [linode_ip_ranges] never raises: it returns the networks that
    parse with [strict=False] from the first field of each line not
    starting with ["#"], in order and split by family, and empty sets
    when the request fails. *)
Theorem linode_ip_ranges_result get :
  linode_ip_ranges get =
  match retry_request get with
  | Ok text =>
    let ns := parsed false (map first_field (List.filter not_comment (splitlines text))) in
    Ok (of_family V4 ns, of_family V6 ns)
  | Raise _ => Ok ([], [])
  end.
Proof. apply fetch_linode_eq. Qed.

(** X17: every network a fetcher returns is a well-formed network
    object; every fetcher but AWS and GCP puts only IPv4 networks in its
    first set and only IPv6 networks in its second. *)
Theorem fetch_result_valid_families e p r :
  fetch_result e p = Ok r ->
  (forall x, In x r.1 \/ In x r.2 -> valid_net x.1 x.2.1) /\
  (p <> AWS -> p <> GCP -> (forall x, In x r.1 -> x.1 = V4) /\ (forall x, In x r.2 -> x.1 = V6)).
Proof.
  intros H. split.
  - exact (fetch_result_nets e p r H).
  - intros H1 H2. exact (proj2 (fetch_result_sets e p H1 H2 r H)).
Qed.

Lemma fetch_result_valid_families_witness :
  fetch_result env_sample Linode =
    Ok ([(V4, plain (mknet (ip4 10 0 0 0) 24))], [(V6, plain (mknet (0x20010db8 * 2 ^ 96) 32))]) /\
  ((forall x, In x [(V4, plain (mknet (ip4 10 0 0 0) 24))] \/
              In x [(V6, plain (mknet (0x20010db8 * 2 ^ 96) 32))] -> valid_net x.1 x.2.1) /\
   (Linode <> AWS -> Linode <> GCP ->
      (forall x, In x [(V4, plain (mknet (ip4 10 0 0 0) 24))] -> x.1 = V4) /\
      (forall x, In x [(V6, plain (mknet (0x20010db8 * 2 ^ 96) 32))] -> x.1 = V6))).
Proof.
  assert (H : fetch_result env_sample Linode =
    Ok ([(V4, plain (mknet (ip4 10 0 0 0) 24))], [(V6, plain (mknet (0x20010db8 * 2 ^ 96) 32))]))
    by (vm_compute; reflexivity).
  split; [exact H|exact (fetch_result_valid_families _ _ _ H)].
Defined.



(** X19: on well-formed networks, whatever their scope ids,
    [list(collapse_addresses(...))] as [main] calls it raises
    [TypeError] exactly when the networks are of both families and
    raises nothing else; on networks without scope id, with a sort that
    has the properties of Python's, it returns the sorted canonical
    aggregation of its input. *)
Theorem collapse_ipnets_families sorted (l : list ipnet) :
  sort_permutes sorted ->
  (forall x, In x l -> valid_net x.1 x.2.1) ->
  (collapse_ipnets sorted l = Raise TypeError <-> exists x y, In x l /\ In y l /\ x.1 <> y.1) /\
  (forall ex, collapse_ipnets sorted l = Raise ex -> ex = TypeError) /\
  (sort_orders sorted -> (forall x, In x l -> x.2.2 = None) ->
     forall out, collapse_ipnets sorted l = Ok out -> aggregates l out).
Proof.
  intros Hp Hv.
  assert (Hagg : sort_orders sorted -> (forall x, In x l -> x.2.2 = None) ->
     forall out, collapse_ipnets sorted l = Ok out -> aggregates l out).
  { intros Ho Hn out. apply collapse_ipnets_aggregates; [done|done|].
    intros x Hx. split; [exact (Hv x Hx)|exact (Hn x Hx)]. }
  destruct (collapse_ipnets_cases sorted l Hp Hv) as [(v & out & Hl & Ho)|[Ht Hm]].
  - split; [|split; [|exact Hagg]]; rewrite Ho; [split; [discriminate|]|discriminate].
    intros (x & y & Hx & Hy & Hxy). exfalso. apply Hxy. by rewrite (Hl x Hx), (Hl y Hy).
  - split; [|split; [|exact Hagg]]; rewrite Ht; [done|congruence].
Qed.

Lemma collapse_ipnets_families_witness :
  (forall x, In x [(V4, plain (mknet (ip4 10 0 0 0) 8)); (V6, plain (mknet 0 0))] ->
     valid_net x.1 x.2.1) /\
  ((collapse_ipnets list_sort [(V4, plain (mknet (ip4 10 0 0 0) 8)); (V6, plain (mknet 0 0))]
      = Raise TypeError <->
    exists x y, In x [(V4, plain (mknet (ip4 10 0 0 0) 8)); (V6, plain (mknet 0 0))] /\
      In y [(V4, plain (mknet (ip4 10 0 0 0) 8)); (V6, plain (mknet 0 0))] /\ x.1 <> y.1) /\
   (forall ex, collapse_ipnets list_sort
      [(V4, plain (mknet (ip4 10 0 0 0) 8)); (V6, plain (mknet 0 0))] = Raise ex ->
      ex = TypeError) /\
   (sort_orders list_sort ->
    (forall x, In x [(V4, plain (mknet (ip4 10 0 0 0) 8)); (V6, plain (mknet 0 0))] ->
       x.2.2 = None) ->
    forall out, collapse_ipnets list_sort
      [(V4, plain (mknet (ip4 10 0 0 0) 8)); (V6, plain (mknet 0 0))] = Ok out ->
      aggregates [(V4, plain (mknet (ip4 10 0 0 0) 8)); (V6, plain (mknet 0 0))] out)).
Proof.
  assert (Hv : forall x, In x [(V4, plain (mknet (ip4 10 0 0 0) 8)); (V6, plain (mknet 0 0))] ->
                 valid_net x.1 x.2.1).
  { intros x Hx. simpl in Hx. repeat destruct Hx as [<-|Hx]; try contradiction;
      unfold valid_net; simpl; repeat split; vm_compute; congruence. }
  split; [exact Hv|exact (collapse_ipnets_families list_sort _ list_sort_permutes Hv)].
Defined.



(** X21: with a union that yields the networks of the six sets and a
    sort that has the properties of Python's, when [main] completes each
    list it writes is, when no network of the union carries a scope id,
    the sorted canonical aggregation of that union: one family
    throughout, and exactly the addresses of the union. *)
Theorem main_output_aggregates sorted union e r :
  sort_permutes sorted -> sort_orders sorted ->
  (forall ls x, In x (union ls) <-> In x (concat ls)) ->
  main sorted union e = Ok r ->
  exists aws azure gcp ocean oracle linode,
    fetch_result e AWS = Ok aws /\ fetch_result e Azure = Ok azure /\
    fetch_result e GCP = Ok gcp /\ fetch_result e DigitalOcean = Ok ocean /\
    fetch_result e Oracle = Ok oracle /\ fetch_result e Linode = Ok linode /\
    ((forall x, In x (aws.1 ++ azure.1 ++ gcp.1 ++ ocean.1 ++ oracle.1 ++ linode.1) ->
        x.2.2 = None) ->
     aggregates (aws.1 ++ azure.1 ++ gcp.1 ++ ocean.1 ++ oracle.1 ++ linode.1) (ipv4nets r)) /\
    ((forall x, In x (aws.2 ++ azure.2 ++ gcp.2 ++ ocean.2 ++ oracle.2 ++ linode.2) ->
        x.2.2 = None) ->
     aggregates (aws.2 ++ azure.2 ++ gcp.2 ++ ocean.2 ++ oracle.2 ++ linode.2) (ipv6nets r)).
Proof.
  intros Hp Ho Hu H.
  destruct (main_ok_full sorted union e r H) as (aws & azure & gcp & ocean & oracle & linode &
                                    Ha & Hz & Hg & Hoc & Hr & Hl & C1 & C2).
  destruct (union_valid e aws azure gcp ocean oracle linode Ha Hz Hg Hoc Hr Hl) as [V1 V2].
  exists aws, azure, gcp, ocean, oracle, linode. do 6 (split; [done|]).
  split; intros Hn.
  - apply (aggregates_same_elems (union [aws.1; azure.1; gcp.1; ocean.1; oracle.1; linode.1])).
    { intros x. by rewrite Hu, concat6. }
    apply (collapse_ipnets_aggregates sorted); [done|done| |exact C1].
    intros x Hx. rewrite Hu, concat6 in Hx. split; [exact (V1 x Hx)|exact (Hn x Hx)].
  - apply (aggregates_same_elems (union [aws.2; azure.2; gcp.2; ocean.2; oracle.2; linode.2])).
    { intros x. by rewrite Hu, concat6. }
    apply (collapse_ipnets_aggregates sorted); [done|done| |exact C2].
    intros x Hx. rewrite Hu, concat6 in Hx. split; [exact (V2 x Hx)|exact (Hn x Hx)].
Qed.

Lemma main_output_aggregates_witness :
  main list_sort (fun ls => concat ls) env_sample =
    Ok {| failed_providers := ["AWS"; "Azure"; "GCP"; "Oracle"]%string;
          ipv4nets := [(V4, plain (mknet (ip4 10 0 0 0) 8))];
          ipv6nets := [(V6, plain (mknet (0x20010db8 * 2 ^ 96) 32))] |} /\
  exists aws azure gcp ocean oracle linode,
    fetch_result env_sample AWS = Ok aws /\ fetch_result env_sample Azure = Ok azure /\
    fetch_result env_sample GCP = Ok gcp /\ fetch_result env_sample DigitalOcean = Ok ocean /\
    fetch_result env_sample Oracle = Ok oracle /\ fetch_result env_sample Linode = Ok linode /\
    ((forall x, In x (aws.1 ++ azure.1 ++ gcp.1 ++ ocean.1 ++ oracle.1 ++ linode.1) ->
        x.2.2 = None) ->
     aggregates (aws.1 ++ azure.1 ++ gcp.1 ++ ocean.1 ++ oracle.1 ++ linode.1)
       [(V4, plain (mknet (ip4 10 0 0 0) 8))]) /\
    ((forall x, In x (aws.2 ++ azure.2 ++ gcp.2 ++ ocean.2 ++ oracle.2 ++ linode.2) ->
        x.2.2 = None) ->
     aggregates (aws.2 ++ azure.2 ++ gcp.2 ++ ocean.2 ++ oracle.2 ++ linode.2)
       [(V6, plain (mknet (0x20010db8 * 2 ^ 96) 32))]).
Proof.
  assert (H : main list_sort (fun ls => concat ls) env_sample =
    Ok {| failed_providers := ["AWS"; "Azure"; "GCP"; "Oracle"]%string;
          ipv4nets := [(V4, plain (mknet (ip4 10 0 0 0) 8))];
          ipv6nets := [(V6, plain (mknet (0x20010db8 * 2 ^ 96) 32))] |})
    by (vm_compute; reflexivity).
  split; [exact H|].
  exact (main_output_aggregates list_sort (fun ls => concat ls) env_sample _
    list_sort_permutes list_sort_orders (fun ls x => iff_refl _) H).
Defined.

(** X22: the text [main] writes for an IPv4 network, [str(network)],
    parses back with [ip_network] to the same network. *)
Theorem network_str4_roundtrip n :
  valid_net V4 n -> ip_network (network_str4 n) true = Ok (V4, plain n).
Proof. apply network_str4_parse. Qed.

Lemma network_str4_roundtrip_witness :
  valid_net V4 (mknet (ip4 192 168 128 0) 17) /\
  ip_network (network_str4 (mknet (ip4 192 168 128 0) 17)) true =
    Ok (V4, plain (mknet (ip4 192 168 128 0) 17)).
Proof.
  assert (H : valid_net V4 (mknet (ip4 192 168 128 0) 17))
    by (unfold valid_net; simpl; repeat split; vm_compute; congruence).
  split; [exact H|exact (network_str4_roundtrip _ H)].
Defined.
